(** * Deals to Meals: a shallow embedding of [server.js]

    The server is an Express application that proxies a retail partner's
    catalog, coupon and cart endpoints, a recipe search service and a
    hosted relational store.  This development embeds the handlers that
    carry logic of their own:

    - [GET /api/deals]: batched fan-out over the category list, mapping
      of promoted products to deal objects, de-duplication, ranking by
      percent off, cap at 200;
    - [POST /api/recipes/search]: attribution of sale items and coupons
      to the ingredients of each recipe;
    - [GET /api/coupons] and [POST /api/cart]: refresh of an expired
      user token before the dependent request;
    - [PATCH /api/profile]: whitelisted profile update;
    - the site gate and [POST /api/site-login]: the cookie of the
      shared password;
    - [/auth/kroger/callback], [/auth/kroger/disconnect] and
      [GET /api/profile]: the user's account at the grocer;
    - [POST /api/recipes/search]: the query sent to the recipe search;
    - [GET /api/stores] and the three handlers of
      [/api/recipes/saved].

    Conventions of the embedding.

    - A JavaScript number is a double (type [double]): a rational, the
      exact value of a finite double, the zero of negative sign, one of
      [Infinity], [-Infinity], or [NaN].  Each arithmetic operation on
      finite numbers is the exact operation followed by the rounding
      [fl] to a double with an exponent of any size, and by the overflow
      to an infinity beyond [Number.MAX_VALUE]; [fl] is a parameter
      with the laws of rounding to nearest (class [Rounding]).
    - A string is kept as the bytes of its UTF-8 text;
      [String.prototype.toLowerCase] is a parameter with the laws that
      the proofs rely on (class [CaseMapping]).
    - An object used as a table is read through its chain of
      prototypes: a key that it does not own gives the member that
      every object inherits under that name, if there is one.
    - A property that may be absent ([undefined]) is an [option].
    - A thrown exception is [None] in the option monad; [try]/[catch]
      is a [match] on it.
    - Everything the network answers is an input of the model: the
      answer to each request, and the order in which the requests of
      one batch settle. *)

From Stdlib Require Import ZArith QArith Qabs Qround Lia Lqa List Permutation Sorted.
From Stdlib Require Import Ascii String.
From stdpp Require Import base option list sorting gmap strings.

#[local] Set Warnings "-clear-no-such-hyp".

Local Open Scope Z_scope.

(** ** Floating point *)

(** [fl x] is the double nearest to the rational [x].  The laws are
    those of IEEE 754 rounding to nearest that the proofs rely on. *)
Class Rounding : Type := {
  fl : Q -> Q;
  fl_proper : forall x y : Q, (x == y)%Q -> (fl x == fl y)%Q;
  fl_mono : forall x y : Q, (x <= y)%Q -> (fl x <= fl y)%Q;
  fl_odd : forall x : Q, (fl (- x) == - fl x)%Q;
  fl_idem : forall x : Q, (fl (fl x) == fl x)%Q;
  fl_1 : (fl 1 == 1)%Q;
  fl_100 : (fl 100 == 100)%Q
}.

(** ** JavaScript numbers *)

Module JS.

Inductive number (A : Type) : Type :=
| Fin (x : A)
| PosInfinity
| NegInfinity
| NaN.
Arguments Fin {A} x.
Arguments PosInfinity {A}.
Arguments NegInfinity {A}.
Arguments NaN {A}.

Definition Qltb (a b : Q) : bool := negb (Qle_bool b a).

(** [a - b] on numbers whose finite values are integers, generic in
    their subtraction. *)
Definition sub {A : Type} (minus : A -> A -> A) (a b : number A) : number A :=
  match a, b with
  | NaN, _ | _, NaN => NaN
  | Fin x, Fin y => Fin (minus x y)
  | PosInfinity, PosInfinity => NaN
  | NegInfinity, NegInfinity => NaN
  | PosInfinity, _ => PosInfinity
  | NegInfinity, _ => NegInfinity
  | Fin _, PosInfinity => NegInfinity
  | Fin _, NegInfinity => PosInfinity
  end.

(** *** Doubles

    A double is a finite value, kept as the rational it is, the zero
    of negative sign, an infinity, or [NaN].  [Finite x] with [x == 0]
    is the zero of positive sign. *)
Inductive double : Type :=
| Finite (x : Q)
| NegZero
| PosInf
| NegInf
| NotANumber.

(** [Number.MAX_VALUE], the largest finite double. *)
Definition MAX_VALUE : Q := inject_Z (2 ^ 1024 - 2 ^ 971).
Arguments MAX_VALUE : simpl never.

Definition zero (negative : bool) : double :=
  if negative then NegZero else Finite 0.

Definition infinity (negative : bool) : double :=
  if negative then NegInf else PosInf.

(** The double that an operation returns when its exact result is the
    rational [x]: the result is rounded as if the exponent had no
    bound, and is an infinity when the rounded value lies beyond
    [MAX_VALUE]; a result rounded to zero keeps the sign of [x]. *)
Definition round `{!Rounding} (x : Q) : double :=
  let v := fl x in
  if Qltb MAX_VALUE v then PosInf
  else if Qltb v (- MAX_VALUE) then NegInf
  else if Qeq_bool v 0 && Qltb x 0 then NegZero
  else Finite v.

(** A number of a JSON text: the exact value of the decimal, or the
    zero written with a minus sign ([-0], [-0.0], [-0e3]). *)
Inductive literal : Type :=
| Decimal (q : Q)
| MinusZero.

(** [JSON.parse] of a number. *)
Definition parse `{!Rounding} (l : literal) : double :=
  match l with
  | Decimal q => round q
  | MinusZero => NegZero
  end.

(** [ToNumber] of a property that is a number when present:
    [undefined] converts to [NaN]. *)
Definition ToNumber (o : option double) : double :=
  match o with
  | Some x => x
  | None => NotANumber
  end.

(** The value of a finite double. *)
Definition value (a : double) : Q :=
  match a with
  | Finite x => x
  | _ => 0%Q
  end.

Definition is_zero (a : double) : bool :=
  match a with
  | Finite x => Qeq_bool x 0
  | NegZero => true
  | _ => false
  end.

(** The sign bit of a double that is not [NaN]. *)
Definition negative (a : double) : bool :=
  match a with
  | Finite x => Qltb x 0
  | NegZero | NegInf => true
  | PosInf | NotANumber => false
  end.

(** [a - b].  Two infinities of the same sign give [NaN]; a zero
    result is the positive zero, except for [-0 - 0]. *)
Definition minus `{!Rounding} (a b : double) : double :=
  match a, b with
  | NotANumber, _ | _, NotANumber => NotANumber
  | PosInf, PosInf | NegInf, NegInf => NotANumber
  | PosInf, _ | _, NegInf => PosInf
  | NegInf, _ | _, PosInf => NegInf
  | NegZero, Finite y => if Qeq_bool y 0 then NegZero else round (- y)
  | _, _ => round (value a - value b)
  end.

(** [a / b].  The sign of the result is the product of the signs.  An
    infinity by an infinity and zero by zero give [NaN]; a finite
    number by an infinity gives zero; a non-zero number by zero gives
    an infinity. *)
Definition div `{!Rounding} (a b : double) : double :=
  let sign := xorb (negative a) (negative b) in
  match a, b with
  | NotANumber, _ | _, NotANumber => NotANumber
  | (PosInf | NegInf), (PosInf | NegInf) => NotANumber
  | (PosInf | NegInf), _ => infinity sign
  | _, (PosInf | NegInf) => zero sign
  | _, _ =>
      if is_zero b then (if is_zero a then NotANumber else infinity sign)
      else if is_zero a then zero sign
      else round (value a / value b)
  end.

(** [a * b].  The sign of the result is the product of the signs.  An
    infinity times zero is [NaN]. *)
Definition mul `{!Rounding} (a b : double) : double :=
  let sign := xorb (negative a) (negative b) in
  match a, b with
  | NotANumber, _ | _, NotANumber => NotANumber
  | (PosInf | NegInf), _ => if is_zero b then NotANumber else infinity sign
  | _, (PosInf | NegInf) => if is_zero a then NotANumber else infinity sign
  | _, _ =>
      if is_zero a || is_zero b then zero sign
      else round (value a * value b)
  end.

(** [a > b]: false as soon as one side is [NaN]; the two zeros are
    equal. *)
Definition gt (a b : double) : bool :=
  match a, b with
  | NotANumber, _ | _, NotANumber => false
  | PosInf, PosInf | NegInf, _ | _, PosInf => false
  | PosInf, _ | _, NegInf => true
  | _, _ => Qltb (value b) (value a)
  end.

(** [Math.round(x)]: the integer nearest to [x], the larger one when
    two are equally near, that is [floor (x + 1/2)], computed exactly.
    The result is kept without the sign of a zero, which neither the
    comparator of the sort nor the JSON of the reply shows. *)
Definition Math_round (x : double) : number Z :=
  match x with
  | Finite q => Fin (Qfloor (q + (1 # 2))%Q)
  | NegZero => Fin 0
  | PosInf => PosInfinity
  | NegInf => NegInfinity
  | NotANumber => NaN
  end.

(** [x.toFixed(2)] for a finite [x].  The method prints the sign and
    then the integer [n] for which [n / 100] is nearest to the exact
    value of [|x|], the larger [n] when two are equally near, with two
    fraction digits.  The embedding keeps the value printed, as a
    signed number of hundredths. *)
Definition toFixed2 (x : Q) : Z :=
  if Qltb x 0
  then - Qfloor (- x * 100 + (1 # 2))%Q
  else Qfloor (x * 100 + (1 # 2))%Q.

(** What [x.toFixed(2)] prints for any double: two fraction digits
    when [x] is finite and below [1e21] in magnitude, and otherwise the
    text that [String(x)] gives ([Infinity], [NaN], [1e+21], ...),
    kept as the number it denotes. *)
Inductive Printed : Type :=
| Hundredths (n : Z)
| Shortest (x : double).

Definition toFixed (x : double) : Printed :=
  match x with
  | Finite q =>
      if Qle_bool (inject_Z (10 ^ 21)) (Qabs q) then Shortest x
      else Hundredths (toFixed2 q)
  | NegZero => Hundredths 0
  | _ => Shortest x
  end.

(** [a || b] on strings: the empty string and [undefined] are falsy. *)
Definition or_string (a : option string) (b : string) : string :=
  match a with
  | Some s => if String.eqb s "" then b else s
  | None => b
  end.

(** [a || null] on strings. *)
Definition or_null (a : option string) : option string :=
  match a with
  | Some s => if String.eqb s "" then None else Some s
  | None => None
  end.

(** *** [Array.prototype.sort]

    The comparator's result [v] orders [a] after [b] when [v > 0]; a
    [NaN] result counts as [0].  The sort is stable (ECMAScript 2019):
    it is embedded as the insertion sort that moves an element past the
    ones that the comparator puts strictly before it.  For a comparator
    that is consistent this is the one result that a stable sort may
    give.  For a comparator that is not, the standard leaves the order
    to the engine, and the embedding fixes one order among those: the
    result is a permutation of the array in every case. *)
Definition gt_zero (v : number Z) : bool :=
  match v with
  | Fin z => 0 <? z
  | PosInfinity => true
  | NegInfinity | NaN => false
  end.

Fixpoint sort_insert {A : Type} (comparefn : A -> A -> number Z) (x : A) (l : list A) : list A :=
  match l with
  | [] => [x]
  | y :: l' =>
      if gt_zero (comparefn x y)
      then y :: sort_insert comparefn x l'
      else x :: l
  end.

Definition sort {A : Type} (comparefn : A -> A -> number Z) (l : list A) : list A :=
  foldr (sort_insert comparefn) [] l.

(** [l.slice(i, j)] for [0 <= i <= j]. *)
Definition slice {A : Type} (i j : nat) (l : list A) : list A :=
  take (j - i) (drop i l).

End JS.

Import JS.

(** ** The catalog's product records

    The shape of one entry of [data.data] in the answer of the catalog's
    product search, as far as the server reads it.  A price that is
    present is a JSON number, kept as the literal of the body; the
    server sees it through [JS.parse]. *)

Module Price.
Record t : Type := { regular : option literal; promo : option literal }.
End Price.

Module Item.
Record t : Type := { upc : option string; size : option string; price : option Price.t }.
End Item.

Module ImageSize.
Record t : Type := { size : option string; url : option string }.
End ImageSize.

Module Image.
Record t : Type := { perspective : option string; sizes : option (list ImageSize.t) }.
End Image.

Module Product.
Record t : Type := {
  productId : string;
  description : option string;
  brand : option string;
  items : option (list Item.t);
  images : option (list Image.t)
}.
End Product.

(** ** Deal objects, as [/api/deals] returns them *)

Module Deal.
Record t : Type := {
  id : string;
  upc : string;
  name : option string;
  brand : string;
  category : string;
  regularPrice : Printed;   (* [toFixed(2)] *)
  salePrice : Printed;      (* [toFixed(2)] *)
  savings : Printed;        (* [toFixed(2)] *)
  pctOff : number Z;
  size : string;
  image : option string
}.
End Deal.

Definition DEAL_CATEGORIES : list string := [
  "chicken"; "beef"; "pork"; "seafood"; "turkey"; "lamb"; "sausage"; "bacon";
  "vegetables"; "fruit"; "salad"; "herbs"; "mushrooms"; "potatoes";
  "pasta"; "rice"; "bread"; "tortilla"; "noodles"; "grains";
  "dairy"; "cheese"; "eggs"; "yogurt"; "butter"; "cream";
  "frozen meals"; "frozen vegetables"; "frozen pizza"; "frozen seafood";
  "snacks"; "chips"; "crackers"; "nuts"; "popcorn";
  "beverages"; "juice"; "soda"; "water"; "tea"; "coffee";
  "condiments"; "sauce"; "oil"; "dressing"; "spices"; "seasoning";
  "soup"; "canned goods"; "beans"; "tomatoes"; "broth";
  "breakfast"; "cereal"; "oatmeal"; "pancake";
  "bakery"; "dessert"; "ice cream"; "cookies";
  "deli"; "lunch meat"; "hot dogs"
]%string.

(** [p.items?.[0]?.price?.promo] *)
Definition promo_of `{!Rounding} (p : Product.t) : option double :=
  items ← Product.items p;
  item ← head items;
  price ← Item.price item;
  JS.parse <$> Price.promo price.

(** The filter of the product list: [p.items?.[0]?.price?.promo > 0]. *)
Definition on_promotion `{!Rounding} (p : Product.t) : bool :=
  JS.gt (ToNumber (promo_of p)) (Finite 0).

(** [p.images?.find(i => i.perspective === "front")
       ?.sizes?.find(s => s.size === "thumbnail")?.url || null] *)
Definition thumbnail (p : Product.t) : option string :=
  or_null (
    images ← Product.images p;
    front ← List.find (fun i => bool_decide (Image.perspective i = Some "front"%string)) images;
    sizes ← Image.sizes front;
    thumb ← List.find (fun s => bool_decide (ImageSize.size s = Some "thumbnail"%string)) sizes;
    ImageSize.url thumb).

(** [((regular - promo) / regular) * 100], rounded by [Math.round]. *)
Definition percent_off `{!Rounding} (regular promo : double) : number Z :=
  Math_round (JS.mul (JS.div (JS.minus regular promo) regular) (Finite 100)).

(** The callback of [.map]: the deal object built from a product.
    [None] is a [TypeError]: reading a property of [undefined], or
    calling [toFixed] on a price that is absent. *)
Definition to_deal `{!Rounding} (category : string) (p : Product.t) : option Deal.t :=
  items ← Product.items p;
  item ← head items;
  price ← Item.price item;
  let pctOff :=
    percent_off (ToNumber (JS.parse <$> Price.regular price))
      (ToNumber (JS.parse <$> Price.promo price)) in
  regular ← JS.parse <$> Price.regular price;
  promo ← JS.parse <$> Price.promo price;
  Some {|
    Deal.id := Product.productId p;
    Deal.upc := or_string (Item.upc item) "";
    Deal.name := Product.description p;
    Deal.brand := or_string (Product.brand p) "";
    Deal.category := category;
    Deal.regularPrice := toFixed regular;
    Deal.salePrice := toFixed promo;
    Deal.savings := toFixed (JS.minus regular promo);
    Deal.pctOff := pctOff;
    Deal.size := or_string (Item.size item) "";
    Deal.image := thumbnail p
  |}.

(** ** One category request *)

(** What the catalog answers to one product search. *)
Inductive Fetched : Type :=
| TransportError                              (* [fetch] rejects *)
| NotOk                                       (* [r.ok] is false *)
| InvalidBody                                 (* [r.json()] rejects *)
| Data (data : option (list Product.t)).      (* the body's [data] *)

(** The [try] block of the per-category callback: the products it
    pushes, or [None] when it throws. *)
Definition category_try `{!Rounding} (category : string) (r : Fetched)
    : option (list Deal.t) :=
  match r with
  | TransportError => None
  | NotOk => Some []
  | InvalidBody => None
  | Data data => mapM (to_deal category) (List.filter on_promotion (default [] data))
  end.

(** The whole callback: [catch (e) {}] swallows the exception and
    nothing is pushed. *)
Definition category_products `{!Rounding} (category : string) (r : Fetched) : list Deal.t :=
  default [] (category_try category r).

(** ** The batched fan-out *)

Inductive Event : Type :=
| Issue (category : string)     (* [fetch] is called for the category *)
| Settle (category : string).   (* the category's callback has settled *)

Record Progress : Type := {
  allProducts : list Deal.t;
  trace : list Event;
  rounds : nat                   (* number of [Promise.all] awaited *)
}.

Definition start : Progress :=
  {| allProducts := []; trace := []; rounds := 0 |}.

Section FanOut.

Context `{!Rounding}.

(** The catalog's answer to the search for a category term. *)
Variable catalog : string -> Fetched.

(** The order in which the callbacks of the batch starting at index
    [i] settle.  [batch.map] calls every callback at once, so all
    requests of the batch are issued before any settles. *)
Variable settled : nat -> list string -> list string.

(** [await Promise.all(batch.map(async (category) => ...))] *)
Definition run_batch (i : nat) (batch : list string) (st : Progress) : Progress :=
  let order := settled i batch in
  {| allProducts :=
       allProducts st ++ List.flat_map (fun c => category_products c (catalog c)) order;
     trace := trace st ++ map Issue batch ++ map Settle order;
     rounds := S (rounds st) |}.

(** [for (let i = ...; i < categories.length; i += batchSize)], from
    the current [i].  [None]: the fuel ran out before the loop ended. *)
Fixpoint for_batches (fuel batchSize : nat) (categories : list string)
    (i : nat) (st : Progress) : option Progress :=
  if (i <? length categories)%nat then
    match fuel with
    | O => None
    | S fuel' =>
        let batch := slice i (i + batchSize) categories in
        for_batches fuel' batchSize categories (i + batchSize) (run_batch i batch st)
    end
  else Some st.

Definition fan_out (batchSize : nat) (categories : list string) : option Progress :=
  for_batches (length categories) batchSize categories 0 start.

End FanOut.

(** ** De-duplication, ranking and cap *)

(** [.filter(p => { if (seen.has(p.id)) return false; seen.add(p.id);
    return true; })], from the current [seen]. *)
Fixpoint unique_by_id (seen : gset string) (l : list Deal.t) : list Deal.t :=
  match l with
  | [] => []
  | p :: l' =>
      if decide (Deal.id p ∈ seen)
      then unique_by_id seen l'
      else p :: unique_by_id ({[Deal.id p]} ∪ seen) l'
  end.

(** [(a, b) => b.pctOff - a.pctOff] *)
Definition by_pctOff (a b : Deal.t) : number Z :=
  JS.sub Z.sub (Deal.pctOff b) (Deal.pctOff a).

Definition cap : nat := 200.

Definition aggregate (allProducts : list Deal.t) : list Deal.t :=
  slice 0 cap (JS.sort by_pctOff (unique_by_id ∅ allProducts)).

(** ** [GET /api/deals] *)

(** What the token endpoint answers. *)
Inductive TokenAnswer : Type :=
| TokenRejected (message : string)                       (* [fetch] rejects *)
| TokenDenied (text : string)                            (* [res.ok] is false *)
| TokenGranted (access_token : string) (expires_in : Z).

Inductive DealsReply : Type :=
| Status400 (error : string)
| Status500 (error : string)
| Status200 (deals : list Deal.t).

(** [getAppToken]: the access token, or the message of the error
    thrown. *)
Definition getAppToken (answer : TokenAnswer) : string + string :=
  match answer with
  | TokenRejected message => inr message
  | TokenDenied text => inr text
  | TokenGranted access_token _ => inl access_token
  end.

(** The handler.  [products] is the catalog's product search, by
    location, bearer token and term.  [None]: the loop over the batches
    did not finish within its fuel. *)
Definition get_deals `{!Rounding}
    (token_endpoint : TokenAnswer)
    (products : string -> string -> string -> Fetched)
    (settled : nat -> list string -> list string)
    (batchSize : nat) (categories : list string)
    (locationId : option string) : option DealsReply :=
  match locationId with
  | None => Some (Status400 "locationId is required")
  | Some location =>
      if String.eqb location ""
      then Some (Status400 "locationId is required")
      else
        match getAppToken token_endpoint with
        | inr message => Some (Status500 message)
        | inl token =>
            st ← fan_out (products location token) settled batchSize categories;
            Some (Status200 (aggregate (allProducts st)))
        end
  end.

(** The handler as deployed: batches of 8 over [DEAL_CATEGORIES]. *)
Definition api_deals `{!Rounding} token_endpoint products settled locationId
    : option DealsReply :=
  get_deals token_endpoint products settled 8 DEAL_CATEGORIES locationId.

(** ** Strings *)

(** A string is kept as the bytes that carry it: the UTF-8 text of a
    string of a JSON body, the bytes of a header. *)

(** The lower-case form of an ASCII letter; other characters are
    kept. *)
Definition lower_ascii (c : ascii) : ascii :=
  let n := N_of_ascii c in
  if ((65 <=? n) && (n <=? 90))%N then ascii_of_N (n + 32) else c.

Fixpoint lower_ascii_letters (s : string) : string :=
  match s with
  | EmptyString => EmptyString
  | String c s' => String (lower_ascii c) (lower_ascii_letters s')
  end.

(** The text holds ASCII characters only. *)
Fixpoint is_ascii (s : string) : bool :=
  match s with
  | EmptyString => true
  | String c s' => (N_of_ascii c <? 128)%N && is_ascii s'
  end.

(** [String.prototype.toLowerCase] lowers every cased letter of
    Unicode.  It is a parameter, with the laws that the proofs rely on:
    on an ASCII text it lowers the letters A to Z and keeps the rest,
    and a space at the head of a text stays there, since no rule of the
    case conversion looks at a space. *)
Class CaseMapping : Type := {
  toLowerCase : string -> string;
  toLowerCase_ascii :
    forall s : string, is_ascii s = true -> toLowerCase s = lower_ascii_letters s;
  toLowerCase_space :
    forall s : string, toLowerCase (String " " s) = String " " (toLowerCase s)
}.

(** [s.split(" ")[0]]: the characters before the first space. *)
Fixpoint first_token (s : string) : string :=
  match s with
  | EmptyString => EmptyString
  | String c s' => if Ascii.eqb c " " then EmptyString else String c (first_token s')
  end.

(** [s.includes(t)] *)
Fixpoint includes (s t : string) : bool :=
  String.prefix t s ||
  match s with
  | EmptyString => false
  | String _ s' => includes s' t
  end.

(** [name.toLowerCase().split(" ")[0]] *)
Definition token_of `{!CaseMapping} (name : string) : string :=
  first_token (toLowerCase name).

(** The members that every object inherits from [Object.prototype]. *)
Definition inherited_member (key : string) : bool :=
  bool_decide (key ∈ ["constructor"; "__proto__"; "__defineGetter__"; "__defineSetter__";
                      "__lookupGetter__"; "__lookupSetter__"; "hasOwnProperty";
                      "isPrototypeOf"; "propertyIsEnumerable"; "toString";
                      "toLocaleString"; "valueOf"]%string).

(** String concatenation of a property that may be [undefined]. *)
Definition to_string (o : option string) : string :=
  default "undefined"%string o.

(** ** [POST /api/recipes/search]: enrichment of one recipe *)

(** A sale item of the request body ([ingredients]): an object with
    these five members and no other.  The name is a string.  A price
    that is present is a string that [/api/deals] printed with two
    fraction digits, kept as the number of hundredths it denotes; a
    [upc] that is present is a string; [None] is a member that is
    absent. *)
Module SaleItem.
Record t : Type := {
  name : string;
  salePrice : option Z;
  regularPrice : option Z;
  savings : option Z;
  upc : option string
}.
End SaleItem.

(** An entry of [recipe.usedIngredients]. *)
Module Ingredient.
Record t : Type := { name : string }.
End Ingredient.

Module Coupon.
Record t : Type := {
  description : option string;
  brand : option string;
  savings : option Q;
  clipped : option bool;
  type : option string
}.
End Coupon.

(** An entry of [couponsToClip]. *)
Module Clip.
Record t : Type := {
  description : option string;
  savings : option Q;
  clipped : option bool;
  type : option string
}.
End Clip.

Module Recipe.
Record t : Type := {
  usedIngredients : option (list Ingredient.t);
  missedIngredientCount : option Z
}.
End Recipe.

(** An entry of [usedSaleItems]: the five members read from what the
    lookup found. *)
Module UsedItem.
Record t : Type := {
  name : option string;
  salePrice : option Z;
  regularPrice : option Z;
  savings : option Z;
  upc : option string
}.
End UsedItem.

(** The fields of an enriched recipe that the handler computes; the
    others are copied from the recipe. *)
Module Enriched.
Record t : Type := {
  usedSaleItems : list UsedItem.t;
  totalSavings : Q;
  estimatedCost : Q;
  couponsToClip : list Clip.t
}.
End Enriched.

(** [parseFloat] of a printed price: the double nearest to it. *)
Definition parseFloat `{!Rounding} (hundredths : Z) : Q := fl (inject_Z hundredths / 100).

(** [parseFloat(x) || 0]: [NaN] and zero give [0]. *)
Definition parseFloat_or_0 `{!Rounding} (x : option Z) : Q :=
  match x with
  | Some hundredths => parseFloat hundredths
  | None => 0%Q
  end.

(** [a + b] on doubles. *)
Definition plus `{!Rounding} (a b : Q) : Q := fl (a + b).

(** [parseFloat(x.toFixed(2))] *)
Definition round2 `{!Rounding} (x : Q) : Q := parseFloat (toFixed2 x).

(** The object [ingredientLookup]: its own properties, and the
    ingredient that an assignment under the key [__proto__] has made
    its prototype, if there was one; otherwise the prototype is
    [Object.prototype]. *)
Record Lookup : Type := {
  own : gmap string SaleItem.t;
  prototype : option SaleItem.t
}.

(** [ingredientLookup[key] = ing].  Under [__proto__] the assignment
    runs the inherited setter, which replaces the prototype; under any
    other key it writes an own property, a later item replacing an
    earlier one. *)
Definition add_ingredient `{!CaseMapping} (lookup : Lookup) (ing : SaleItem.t) : Lookup :=
  let key := token_of (SaleItem.name ing) in
  if String.eqb key "__proto__"
  then {| own := own lookup; prototype := Some ing |}
  else {| own := <[key := ing]> (own lookup); prototype := prototype lookup |}.

Definition ingredientLookup `{!CaseMapping} (ingredients : list SaleItem.t) : Lookup :=
  foldl add_ingredient {| own := ∅; prototype := None |} ingredients.

(** A truthy value read from [ingredientLookup]. *)
Inductive Found : Type :=
| FoundItem (deal : SaleItem.t)    (* an ingredient of the request *)
| FoundText                        (* a string that is not empty *)
| FoundFunction (name : string)    (* a function that every object inherits *)
| FoundPrototype.                  (* [Object.prototype] *)

(** A member of an ingredient, read by its name: [None] when the
    ingredient has no such member, and otherwise whether the member is
    truthy. *)
Definition member_of (ing : SaleItem.t) (key : string) : option bool :=
  if String.eqb key "name" then Some (negb (String.eqb (SaleItem.name ing) ""))
  else if String.eqb key "salePrice" then (fun _ => true) <$> SaleItem.salePrice ing
  else if String.eqb key "regularPrice" then (fun _ => true) <$> SaleItem.regularPrice ing
  else if String.eqb key "savings" then (fun _ => true) <$> SaleItem.savings ing
  else if String.eqb key "upc" then (fun s => negb (String.eqb s "")) <$> SaleItem.upc ing
  else None.

(** What [Object.prototype] gives under [key] to an object whose
    prototype is [prototype]: the prototype itself under [__proto__],
    a function under the other names. *)
Definition inherited (prototype : option SaleItem.t) (key : string) : option Found :=
  if String.eqb key "__proto__"
  then Some match prototype with
            | Some ing => FoundItem ing
            | None => FoundPrototype
            end
  else if String.eqb key "constructor" then Some (FoundFunction "Object")
  else if inherited_member key then Some (FoundFunction key)
  else None.

(** What an object without own property [key] reads under [key] from
    its prototype, when that is truthy: a member of the ingredient that
    is the prototype, or else what [Object.prototype] gives. *)
Definition inherited_get (prototype : option SaleItem.t) (key : string) : option Found :=
  match prototype with
  | Some ing =>
      match member_of ing key with
      | Some truthy => if truthy then Some FoundText else None
      | None => inherited (Some ing) key
      end
  | None => inherited None key
  end.

(** [ingredientLookup[key]] when it is truthy: an own property, or else
    what the chain of prototypes gives. *)
Definition lookup_get (lookup : Lookup) (key : string) : option Found :=
  match own lookup !! key with
  | Some deal => Some (FoundItem deal)
  | None => inherited_get (prototype lookup) key
  end.

(** [ingredientLookup[key] || ingredients.find(i =>
      i.name.toLowerCase().includes(key))] *)
Definition find_deal `{!CaseMapping} (lookup : Lookup) (ingredients : list SaleItem.t)
    (key : string) : option Found :=
  match lookup_get lookup key with
  | Some found => Some found
  | None =>
      FoundItem <$>
        List.find (fun i => includes (toLowerCase (SaleItem.name i)) key) ingredients
  end.

(** [{ name: deal.name, salePrice: deal.salePrice, regularPrice:
       deal.regularPrice, savings: deal.savings, upc: deal.upc }] *)
Definition used_item (found : Found) : UsedItem.t :=
  match found with
  | FoundItem deal =>
      {| UsedItem.name := Some (SaleItem.name deal);
         UsedItem.salePrice := SaleItem.salePrice deal;
         UsedItem.regularPrice := SaleItem.regularPrice deal;
         UsedItem.savings := SaleItem.savings deal;
         UsedItem.upc := SaleItem.upc deal |}
  | FoundFunction name =>
      {| UsedItem.name := Some name; UsedItem.salePrice := None;
         UsedItem.regularPrice := None; UsedItem.savings := None; UsedItem.upc := None |}
  | FoundText | FoundPrototype =>
      {| UsedItem.name := None; UsedItem.salePrice := None;
         UsedItem.regularPrice := None; UsedItem.savings := None; UsedItem.upc := None |}
  end.

Record Tally : Type := {
  usedSaleItems : list UsedItem.t;
  totalSavings : Q;
  estimatedCost : Q
}.

(** The body of the loop over [recipe.usedIngredients]. *)
Definition tally_ingredient `{!Rounding} `{!CaseMapping}
    (lookup : Lookup) (ingredients : list SaleItem.t)
    (acc : Tally) (ing : Ingredient.t) : Tally :=
  match find_deal lookup ingredients (token_of (Ingredient.name ing)) with
  | Some found =>
      let item := used_item found in
      {| usedSaleItems := usedSaleItems acc ++ [item];
         totalSavings := plus (totalSavings acc) (parseFloat_or_0 (UsedItem.savings item));
         estimatedCost := plus (estimatedCost acc) (parseFloat_or_0 (UsedItem.salePrice item)) |}
  | None => acc
  end.

(** The filter of [allCoupons] and the projection that follows it. *)
Definition coupon_matches `{!CaseMapping} (used : list Ingredient.t) (c : Coupon.t) : bool :=
  let desc := toLowerCase (to_string (Coupon.description c) ++ " " ++ to_string (Coupon.brand c)) in
  existsb (fun ing => includes desc (token_of (Ingredient.name ing))) used.

Definition clip (c : Coupon.t) : Clip.t :=
  {| Clip.description := Coupon.description c;
     Clip.savings := Coupon.savings c;
     Clip.clipped := Coupon.clipped c;
     Clip.type := Coupon.type c |}.

(** The callback of [recipes.map]. *)
Definition enrich `{!Rounding} `{!CaseMapping}
    (lookup : Lookup) (ingredients : list SaleItem.t)
    (coupons boostDeals : option (list Coupon.t)) (recipe : Recipe.t) : Enriched.t :=
  let used := default [] (Recipe.usedIngredients recipe) in
  let acc :=
    foldl (tally_ingredient lookup ingredients)
      {| usedSaleItems := []; totalSavings := 0%Q; estimatedCost := 0%Q |} used in
  let estimatedCost :=
    plus (estimatedCost acc)
      (fl (inject_Z (default 0%Z (Recipe.missedIngredientCount recipe)) * (1 # 2))) in
  let allCoupons := default [] coupons ++ default [] boostDeals in
  {| Enriched.usedSaleItems := usedSaleItems acc;
     Enriched.totalSavings := round2 (totalSavings acc);
     Enriched.estimatedCost := round2 estimatedCost;
     Enriched.couponsToClip := map clip (List.filter (coupon_matches used) allCoupons) |}.

(** The enrichment of the recipes found, before they are sorted by
    savings. *)
Definition enrich_all `{!Rounding} `{!CaseMapping} (ingredients : list SaleItem.t)
    (coupons boostDeals : option (list Coupon.t)) (recipes : list Recipe.t)
    : list Enriched.t :=
  map (enrich (ingredientLookup ingredients) ingredients coupons boostDeals) recipes.

(** ** Users *)

(** [getUser]: the bearer token of the [Authorization] header, resolved
    by the identity provider ([identity], [None] when it reports an
    error or no user). *)
Definition getUser (identity : string -> option string) (authorization : option string) : option string :=
  auth ← authorization;
  if String.prefix "Bearer " auth
  then identity (String.substring 7 (String.length auth - 7) auth)
  else None.

(** ** Refresh of the user's token: [GET /api/coupons], [POST /api/cart] *)

(** The entry of [krogerTokens] for a user, without the [profile] that
    only [GET /api/profile] reads. *)
Module KrogerData.
Record t : Type := {
  accessToken : string;
  refreshToken : option string;
  expiresAt : Z            (* epoch milliseconds *)
}.
End KrogerData.

(** An entry of [items] in the body of [POST /api/cart]. *)
Module CartItem.
Record t : Type := { upc : option string; quantity : option Z }.
End CartItem.

(** The requests that the two handlers send. *)
Inductive Call : Type :=
| RefreshCall (refresh_token : option string)   (* [refreshKrogerToken] *)
| CouponsCall (bearer : string)
| BoostCall (bearer : string)
| CartCall (bearer : string) (items : list (option string * Z)).

Record Server : Type := {
  krogerTokens : gmap string KrogerData.t;
  calls : list Call         (* requests sent so far, oldest first *)
}.

Definition send (c : Call) (s : Server) : Server :=
  {| krogerTokens := krogerTokens s; calls := calls s ++ [c] |}.

Record Env : Type := {
  now : Z;                  (* [Date.now()] at the expiry check *)
  now_refreshed : Z;        (* [Date.now()] once the refresh has answered *)
  token_endpoint : option string -> TokenAnswer
}.

(** [refreshKrogerToken]: the body of the answer, or the message of
    the error thrown. *)
Definition refreshKrogerToken (env : Env) (refreshToken : option string) (s : Server)
    : Server * (string + string * Z) :=
  let s' := send (RefreshCall refreshToken) s in
  match token_endpoint env refreshToken with
  | TokenRejected message => (s', inl message)
  | TokenDenied text => (s', inl text)
  | TokenGranted access_token expires_in => (s', inr (access_token, expires_in))
  end.

(** The block [if (Date.now() >= krogerData.expiresAt) { ... }] that
    opens the [try] of both handlers.  It returns the credential that
    the rest of the handler reads, or the message of the error. *)
Definition refresh_if_expired (env : Env) (user_id : string) (krogerData : KrogerData.t)
    (s : Server) : Server * (string + KrogerData.t) :=
  if (KrogerData.expiresAt krogerData <=? now env) then
    match refreshKrogerToken env (KrogerData.refreshToken krogerData) s with
    | (s', inl message) => (s', inl message)
    | (s', inr (access_token, expires_in)) =>
        let krogerData' :=
          {| KrogerData.accessToken := access_token;
             KrogerData.refreshToken := KrogerData.refreshToken krogerData;
             KrogerData.expiresAt := now_refreshed env + expires_in * 1000 |} in
        ({| krogerTokens := <[user_id := krogerData']> (krogerTokens s'); calls := calls s' |},
         inr krogerData')
    end
  else (s, inr krogerData).

(** What the coupon and cart endpoints answer, as far as the status of
    the reply depends on it: an error with this message is thrown while
    the request is made or its answer is read, the answer is not ok and
    has this text, or the answer is ok and read as far as the handler
    reads it. *)
Inductive Answer : Type :=
| Rejected (message : string)
| Denied (text : string)
| Accepted.

(** What becomes of the second request of [GET /api/coupons], for the
    boost deals: it is rejected or its answer is not ok, and
    [boostDeals] stays empty; its answer is ok and an error with this
    message is thrown while it is read; or it is read. *)
Inductive Boost : Type :=
| BoostSkipped
| BoostUnreadable (message : string)
| BoostRead.

Inductive Reply : Type :=
| Reply401 (error : string)
| Reply500 (error : string)
| Reply200.

Definition reply_of (a : Answer) : Reply :=
  match a with
  | Rejected message => Reply500 message
  | Denied text => Reply500 text
  | Accepted => Reply200
  end.

(** The reply of [GET /api/coupons] once both requests have settled:
    the coupons are read first, then the boost deals. *)
Definition coupons_reply (coupons : Answer) (boost : Boost) : Reply :=
  match coupons with
  | Rejected message => Reply500 message
  | Denied text => Reply500 text
  | Accepted =>
      match boost with
      | BoostUnreadable message => Reply500 message
      | BoostSkipped | BoostRead => Reply200
      end
  end.

(** [GET /api/coupons], up to the status of the reply. *)
Definition api_coupons (env : Env) (identity : string -> option string)
    (coupons_endpoint : string -> Answer) (boost_endpoint : string -> Boost)
    (authorization : option string) (s : Server) : Server * Reply :=
  match getUser identity authorization with
  | None => (s, Reply401 "Not authenticated")
  | Some user_id =>
      match krogerTokens s !! user_id with
      | None => (s, Reply401 "Kroger not connected")
      | Some krogerData =>
          match refresh_if_expired env user_id krogerData s with
          | (s', inl message) => (s', Reply500 message)
          | (s', inr krogerData') =>
              let bearer := KrogerData.accessToken krogerData' in
              (send (BoostCall bearer) (send (CouponsCall bearer) s'),
               coupons_reply (coupons_endpoint bearer) (boost_endpoint bearer))
          end
      end
  end.

(** [{ upc: i.upc, quantity: i.quantity || 1, modality: "PICKUP" }] *)
Definition cart_line (i : CartItem.t) : option string * Z :=
  (CartItem.upc i,
   match CartItem.quantity i with
   | Some q => if q =? 0 then 1 else q
   | None => 1
   end).

(** [POST /api/cart], up to the status of the reply.  [items] is
    [req.body.items]; without it [items.map] throws before the request
    is sent. *)
Definition api_cart (env : Env) (identity : string -> option string)
    (cart_endpoint : string -> Answer)
    (authorization : option string) (items : option (list CartItem.t))
    (s : Server) : Server * Reply :=
  match getUser identity authorization with
  | None => (s, Reply401 "Not authenticated")
  | Some user_id =>
      match krogerTokens s !! user_id with
      | None => (s, Reply401 "Kroger not connected")
      | Some krogerData =>
          match refresh_if_expired env user_id krogerData s with
          | (s', inl message) => (s', Reply500 message)
          | (s', inr krogerData') =>
              let bearer := KrogerData.accessToken krogerData' in
              match items with
              | None => (s', Reply500 "Cannot read properties of undefined (reading 'map')")
              | Some items =>
                  (send (CartCall bearer (map cart_line items)) s',
                   reply_of (cart_endpoint bearer))
              end
          end
      end
  end.

Definition is_refresh (c : Call) : bool :=
  match c with
  | RefreshCall _ => true
  | _ => false
  end.

(** ** [PATCH /api/profile] *)

Local Unset Elimination Schemes.
Inductive Json : Type :=
| JNull
| JBool (b : bool)
| JNumber (q : Q)
| JString (s : string)
| JArray (l : list Json)
| JObject (l : list (string * Json)).
Local Set Elimination Schemes.

Definition allowed : list string :=
  ["full_name"; "household_size"; "dietary_preferences"; "favorite_recipe_types"; "preferred_store"]%string.

(** The object [updates]: the allowed keys that the body defines, then
    [updated_at]. *)
Definition profile_updates (body : gmap string Json) (timestamp : string) : gmap string Json :=
  <["updated_at"%string := JString timestamp]>
    (foldl
       (fun updates key =>
          match body !! key with
          | Some value => <[key := value]> updates
          | None => updates
          end)
       ∅ allowed).

Inductive ProfileReply : Type :=
| Profile401 (error : string)
| Profile500 (error : string)
| Profile200 (data : gmap string Json).

(** The handler over the table [profiles], a map from the row's [id] to
    its columns.  [update(updates).eq("id", id).select().single()]
    overwrites the columns of [updates] in the row of that [id] and
    returns the row; it reports an error, and writes nothing, when the
    store refuses the values ([refuses]) or when no row has that [id]
    (with the message [no_row]). *)
Definition patch_profile (identity : string -> option string)
    (refuses : gmap string Json -> option string) (no_row : string) (timestamp : string)
    (authorization : option string) (body : gmap string Json)
    (profiles : gmap string (gmap string Json))
    : gmap string (gmap string Json) * ProfileReply :=
  match getUser identity authorization with
  | None => (profiles, Profile401 "Not authenticated")
  | Some user_id =>
      let updates := profile_updates body timestamp in
      match refuses updates with
      | Some message => (profiles, Profile500 message)
      | None =>
          match profiles !! user_id with
          | None => (profiles, Profile500 no_row)
          | Some row =>
              let row' := updates ∪ row in
              (<[user_id := row']> profiles, Profile200 row')
          end
      end
  end.

(** ** The site gate and [POST /api/site-login]

    The [Cookie] header reaches the handler as a string of code units
    below 256, one per character of [string]; the site password is
    taken in the same alphabet. *)

(** [s.split(sep)] for a separator of one character. *)
Fixpoint split (sep : ascii) (s : string) : list string :=
  match s with
  | EmptyString => [EmptyString]
  | String c s' =>
      if Ascii.eqb c sep then EmptyString :: split sep s'
      else
        match split sep s' with
        | piece :: pieces => String c piece :: pieces
        | [] => [String c EmptyString]
        end
  end.

(** [l.join(sep)] *)
Fixpoint join (sep : string) (l : list string) : string :=
  match l with
  | [] => EmptyString
  | [x] => x
  | x :: l' => x ++ sep ++ join sep l'
  end.

(** The white space and line terminators of ECMAScript below 256:
    tab, line feed, vertical tab, form feed, carriage return, space and
    no-break space. *)
Definition white_space (c : ascii) : bool :=
  let n := N_of_ascii c in
  (((9 <=? n) && (n <=? 13)) || (n =? 32) || (n =? 160))%N.

Fixpoint trimStart (s : string) : string :=
  match s with
  | EmptyString => EmptyString
  | String c s' => if white_space c then trimStart s' else s
  end.

Fixpoint trimEnd (s : string) : string :=
  match s with
  | EmptyString => EmptyString
  | String c s' =>
      match trimEnd s' with
      | EmptyString => if white_space c then EmptyString else String c EmptyString
      | t => String c t
      end
  end.

(** [s.trim()] *)
Definition trim (s : string) : string := trimEnd (trimStart s).

(** [`site_auth=${process.env.SITE_PASSWORD}`], in both handlers. *)
Definition site_cookie (SITE_PASSWORD : option string) : string :=
  "site_auth=" ++ to_string SITE_PASSWORD.

(** The paths that the gate lets through without a cookie. *)
Definition open_path (path : string) : bool :=
  String.prefix "/api" path || String.prefix "/auth" path || String.eqb path "/login.html".

Inductive Gate : Type :=
| Next
| RedirectTo (location : string).

(** The middleware in front of the static files. *)
Definition site_gate (SITE_PASSWORD : option string) (path : string) (cookie : option string)
    : Gate :=
  if open_path path then Next
  else
    let cookies := or_string cookie "" in
    let authed :=
      existsb (fun c => String.eqb (trim c) (site_cookie SITE_PASSWORD)) (split ";" cookies) in
    if authed then Next else RedirectTo "/login.html".

Inductive LoginReply : Type :=
| LoginOk (set_cookie : string)
| Login401 (error : string).

(** [password === process.env.SITE_PASSWORD]: the field of the body,
    [undefined] when the body has none, against a variable that holds a
    string or is not set. *)
Definition is_site_password (password : option Json) (SITE_PASSWORD : option string) : bool :=
  match password, SITE_PASSWORD with
  | None, None => true
  | Some (JString p), Some e => String.eqb p e
  | _, _ => false
  end.

Definition site_login (SITE_PASSWORD : option string) (body : gmap string Json) : LoginReply :=
  if is_site_password (body !! "password"%string) SITE_PASSWORD
  then LoginOk (site_cookie SITE_PASSWORD ++ "; Path=/; HttpOnly; Max-Age=86400")
  else Login401 "Incorrect password".

(** ** The grocer's account: [/auth/kroger/callback],
    [/auth/kroger/disconnect], [GET /api/profile] *)

(** The entries of [krogerTokens] as the coupon and cart handlers see
    them, and beside them the [profile] of each entry, which those
    handlers carry along unchanged, and the entry under the key
    [undefined], which a callback without [state] writes and no handler
    reads. *)
Record Accounts : Type := {
  server : Server;
  krogerProfiles : gmap string Json;
  unnamed : option (KrogerData.t * Json)
}.

(** What the token endpoint answers to an authorization code. *)
Inductive CodeAnswer : Type :=
| CodeRejected (message : string)
| CodeDenied (text : string)
| CodeGranted (access_token : string) (refresh_token : option string) (expires_in : Z).

(** What [identity/profile] answers: the request or the reading of its
    body throws, the answer is not ok, or the body is read and has the
    member [data] or none. *)
Inductive IdentityAnswer : Type :=
| IdentityThrows (message : string)
| IdentityNotOk
| IdentityBody (data : option Json).

(** The values that count as true in a condition. *)
Definition truthy (v : Json) : bool :=
  match v with
  | JNull => false
  | JBool b => b
  | JNumber q => negb (Qeq_bool q 0)
  | JString s => negb (String.eqb s "")
  | JArray _ | JObject _ => true
  end.

(** [krogerProfile] after lines 152 to 156, or the error thrown. *)
Definition krogerProfile (answer : IdentityAnswer) : string + Json :=
  match answer with
  | IdentityThrows message => inl message
  | IdentityNotOk => inr (JObject [])
  | IdentityBody None => inr (JObject [])
  | IdentityBody (Some data) => inr (if truthy data then data else JObject [])
  end.

(** [update({ kroger_connected }).eq("id", user_id)] on the table
    [profiles]; its outcome is not looked at.  [stored] tells whether
    the store carries it out. *)
Definition set_connected (stored connected : bool) (user_id : string)
    (profiles : gmap string (gmap string Json)) : gmap string (gmap string Json) :=
  if stored
  then alter (insert "kroger_connected"%string (JBool connected)) user_id profiles
  else profiles.

Definition APP_URL : string := "https://dealstomeals.co".
Definition kroger_error : string := APP_URL ++ "/profile.html?kroger=error".
Definition kroger_success : string := APP_URL ++ "/profile.html?kroger=success".

(** [GET /auth/kroger/callback]: the accounts, the table [profiles] and
    the address of the redirection.  The parameters of the query are
    strings or absent.  Without [state] the entry is stored under the
    key [undefined], and the update of [profiles] asks for the row
    whose [id] is the text [undefined]. *)
Definition kroger_callback
    (code_endpoint : string -> CodeAnswer) (identity_endpoint : string -> IdentityAnswer)
    (now : Z) (stored : bool) (code state error : option string)
    (a : Accounts) (profiles : gmap string (gmap string Json))
    : Accounts * gmap string (gmap string Json) * string :=
  match or_null error, or_null code with
  | None, Some code =>
      match code_endpoint code with
      | CodeRejected _ | CodeDenied _ => (a, profiles, kroger_error)
      | CodeGranted access_token refresh_token expires_in =>
          match krogerProfile (identity_endpoint access_token) with
          | inl _ => (a, profiles, kroger_error)
          | inr profile =>
              let krogerData :=
                {| KrogerData.accessToken := access_token;
                   KrogerData.refreshToken := refresh_token;
                   KrogerData.expiresAt := now + expires_in * 1000 |} in
              let a' :=
                match state with
                | Some userId =>
                    {| server :=
                         {| krogerTokens :=
                              <[userId := krogerData]> (krogerTokens (server a));
                            calls := calls (server a) |};
                       krogerProfiles := <[userId := profile]> (krogerProfiles a);
                       unnamed := unnamed a |}
                | None =>
                    {| server := server a;
                       krogerProfiles := krogerProfiles a;
                       unnamed := Some (krogerData, profile) |}
                end in
              let profiles' :=
                if bool_decide (state = Some "anonymous"%string) then profiles
                else set_connected stored true (to_string state) profiles in
              (a', profiles', kroger_success)
          end
      end
  | _, _ => (a, profiles, kroger_error)
  end.

(** [GET /auth/kroger/disconnect]; the reply is [{ success: true }] in
    every case. *)
Definition kroger_disconnect (identity : string -> option string) (stored : bool)
    (authorization : option string)
    (a : Accounts) (profiles : gmap string (gmap string Json))
    : Accounts * gmap string (gmap string Json) :=
  match getUser identity authorization with
  | Some user_id =>
      ({| server :=
            {| krogerTokens := delete user_id (krogerTokens (server a));
               calls := calls (server a) |};
          krogerProfiles := delete user_id (krogerProfiles a);
          unnamed := unnamed a |},
       set_connected stored false user_id profiles)
  | None => (a, profiles)
  end.

(** [GET /api/profile].  [select("*").eq("id", id).single()] reports an
    error when the store cannot be read ([unavailable]) or when no row
    has that [id] (with the message [no_row]). *)
Definition get_profile (identity : string -> option string)
    (unavailable : option string) (no_row : string)
    (authorization : option string)
    (a : Accounts) (profiles : gmap string (gmap string Json)) : ProfileReply :=
  match getUser identity authorization with
  | None => Profile401 "Not authenticated"
  | Some user_id =>
      match unavailable with
      | Some message => Profile500 message
      | None =>
          match profiles !! user_id with
          | None => Profile500 no_row
          | Some data =>
              let krogerData := krogerTokens (server a) !! user_id in
              let kroger_profile :=
                match krogerData, krogerProfiles a !! user_id with
                | Some _, Some profile => if truthy profile then profile else JNull
                | _, _ => JNull
                end in
              Profile200
                (<["kroger_profile"%string := kroger_profile]>
                   (<["kroger_connected"%string := JBool (bool_decide (is_Some krogerData))]> data))
          end
      end
  end.

(** ** [POST /api/recipes/search]: the query sent to the recipe search *)

Definition DIET_MAP : list (string * string) := [
  ("Vegan", "vegan"); ("Vegetarian", "vegetarian"); ("Pescetarian", "pescetarian");
  ("Ketogenic", "ketogenic"); ("Keto", "ketogenic"); ("Paleo", "paleo");
  ("Gluten-Free", "gluten free"); ("Dairy-Free", "dairy free");
  ("Mediterranean", "mediterranean"); ("Low Calorie", "whole30")
]%string.

Definition MEAL_TYPE_MAP : list (string * string) := [
  ("Breakfast", "breakfast"); ("Lunch", "main course,salad,soup");
  ("Dinner", "main course,side dish,soup"); ("Snack", "snack,fingerfood,appetizer");
  ("Dessert", "dessert"); ("Appetizer", "appetizer,fingerfood")
]%string.

(** What a table gives under a key: a string of its own, or a member
    that every object inherits, a function or [Object.prototype], kept
    as the text that [String] makes of it. *)
Inductive Value : Type :=
| Str (s : string)
| Obj (text : string).

(** [String(v)] *)
Definition text (v : Value) : string :=
  match v with
  | Str s | Obj s => s
  end.

(** [Boolean(v)]: every object is truthy. *)
Definition truthy_value (v : Value) : bool :=
  match v with
  | Str s => negb (String.eqb s "")
  | Obj _ => true
  end.

Section Search.

Context `{!CaseMapping}.

(** The text that the engine prints for the function of this name that
    every object inherits ([function toString() { [native code] }] in
    Node). *)
Variable native : string -> string.

(** The text of the member that every object inherits under [key]:
    [Object.prototype] under [__proto__], the function [Object] under
    [constructor], and the function of that name otherwise. *)
Definition inherited_text (key : string) : string :=
  if String.eqb key "__proto__" then "[object Object]"
  else if String.eqb key "constructor" then native "Object"
  else native key.

(** [table[key]] *)
Definition member (table : list (string * string)) (key : string) : option Value :=
  match List.find (fun entry => String.eqb (fst entry) key) table with
  | Some entry => Some (Str (snd entry))
  | None => if inherited_member key then Some (Obj (inherited_text key)) else None
  end.

(** [v || b] *)
Definition or_else (v : option Value) (b : string) : Value :=
  match v with
  | Some v => if truthy_value v then v else Str b
  | None => Str b
  end.

(** [MEAL_TYPE_MAP[mealType] || "main course"], for a [mealType] that
    is a string or absent, as the text that the query carries. *)
Definition typeStr (mealType : option string) : string :=
  text (or_else (member MEAL_TYPE_MAP (to_string mealType)) "main course").

(** [DIET_MAP[d] || d.toLowerCase()] *)
Definition diet_of (d : string) : Value :=
  or_else (member DIET_MAP d) (toLowerCase d).

Definition nonempty (s : string) : bool := negb (String.eqb s "").

(** [diets?.length ? diets.map(...).filter(Boolean).join(",") : ""],
    for [diets] that is a list of strings or absent. *)
Definition dietStr (diets : option (list string)) : string :=
  match diets with
  | Some (d :: more) =>
      join "," (map text (List.filter truthy_value (map diet_of (d :: more))))
  | Some [] | None => EmptyString
  end.

(** [searchParams.set(name, value)] on the list of pairs of a
    [URLSearchParams]: the first pair of that name takes the value and
    the others go, or a pair is added at the end. *)
Fixpoint params_set (name value : string) (params : list (string * string))
    : list (string * string) :=
  match params with
  | [] => [(name, value)]
  | (name', value') :: params' =>
      if String.eqb name' name
      then (name, value) :: List.filter (fun entry => negb (String.eqb (fst entry) name)) params'
      else (name', value') :: params_set name value params'
  end.

(** [searchParams.get(name)] *)
Definition params_get (name : string) (params : list (string * string)) : option string :=
  snd <$> List.find (fun entry => String.eqb (fst entry) name) params.

(** [diets?.includes(d)] *)
Definition diets_include (diets : option (list string)) (d : string) : bool :=
  match diets with
  | Some diets => existsb (String.eqb d) diets
  | None => false
  end.

(** Lines 308 to 334.  [offset] is the text of [req.body.offset] when
    that is truthy. *)
Definition search_params (apiKey : option string) (ingredients : list SaleItem.t)
    (mealType : option string) (diets : option (list string)) (offset : option string)
    : list (string * string) :=
  let ingredientStr := join "," (map SaleItem.name (slice 0 20 ingredients)) in
  let type := typeStr mealType in
  let diet := dietStr diets in
  let searchParams := [
    ("apiKey", to_string apiKey);
    ("includeIngredients", ingredientStr);
    ("type", type);
    ("number", "50");
    ("offset", default "0" offset);
    ("sort", "max-used-ingredients");
    ("sortDirection", "desc");
    ("addRecipeInformation", "true");
    ("fillIngredients", "true");
    ("instructionsRequired", "true")
  ]%string in
  let searchParams :=
    if nonempty diet then params_set "diet" diet searchParams else searchParams in
  let searchParams :=
    if diets_include diets "Halal"
    then params_set "excludeIngredients" "pork,bacon,lard,gelatin,alcohol,wine,beer" searchParams
    else searchParams in
  let searchParams :=
    if diets_include diets "Kosher"
    then params_set "excludeIngredients" "pork,shellfish,bacon,lard" searchParams
    else searchParams in
  let searchParams :=
    if diets_include diets "Low Calorie"
    then params_set "maxCalories" "500" searchParams
    else searchParams in
  let searchParams :=
    if diets_include diets "High Fiber"
    then params_set "minFiber" "5" searchParams
    else searchParams in
  searchParams.

End Search.

(** ** [GET /api/stores] *)

(** An entry of [data.data] in the answer of the locations search, as
    far as the handler reads it; a member is a string (a boolean for
    [open24]) or absent. *)
Module Address.
Record t : Type := {
  addressLine1 : option string;
  city : option string;
  state : option string
}.
End Address.

Module Hours.
Record t : Type := { open24 : option bool }.
End Hours.

Module Location.
Record t : Type := {
  locationId : option string;
  chain : option string;
  name : option string;
  address : option Address.t;
  hours : option Hours.t
}.
End Location.

Module Store.
Record t : Type := {
  id : option string;
  name : string;
  address : string;
  hours : string
}.
End Store.

(** The callback of [(data.data || []).map]. *)
Definition to_store (loc : Location.t) : Store.t :=
  {| Store.id := Location.locationId loc;
     Store.name := or_string (Location.chain loc) (or_string (Location.name loc) "Kroger");
     Store.address :=
       to_string (Location.address loc ≫= Address.addressLine1) ++ ", " ++
       to_string (Location.address loc ≫= Address.city) ++ ", " ++
       to_string (Location.address loc ≫= Address.state);
     Store.hours :=
       if default false (Location.hours loc ≫= Hours.open24) then "Open 24 hrs" else "" |}.

(** What the locations search answers: [fetch] rejects, the answer is
    not ok, its body is not JSON, or it is read, with [data] or
    without. *)
Inductive Located : Type :=
| LocationsRejected (message : string)
| LocationsDenied (text : string)
| LocationsInvalid (message : string)
| Locations (data : option (list Location.t)).

Inductive StoresReply : Type :=
| Stores400 (error : string)
| Stores500 (error : string)
| Stores200 (stores : list Store.t).

(** The handler.  [locations] is the search, by bearer token and zip
    code. *)
Definition api_stores (token_endpoint : TokenAnswer) (locations : string -> string -> Located)
    (zip : option string) : StoresReply :=
  match or_null zip with
  | None => Stores400 "zip is required"
  | Some zip =>
      match getAppToken token_endpoint with
      | inr message => Stores500 message
      | inl token =>
          match locations token zip with
          | LocationsRejected message => Stores500 message
          | LocationsDenied text => Stores500 text
          | LocationsInvalid message => Stores500 message
          | Locations data => Stores200 (map to_store (default [] data))
          end
      end
  end.

(** ** The saved recipes: [GET], [POST] and [DELETE /api/recipes/saved] *)

Definition recipe_columns : list string :=
  ["title"; "emoji"; "time"; "servings"; "difficulty"; "ingredients"; "steps";
   "store_name"; "image"]%string.

(** The members of the object given to [insert] beside [user_id]: the
    nine members that the body defines. *)
Definition recipe_of (body : gmap string Json) : gmap string Json :=
  foldl
    (fun row key =>
       match body !! key with
       | Some value => <[key := value]> row
       | None => row
       end)
    ∅ recipe_columns.

(** A row of the table [saved_recipes]: the identifier and the time
    that the store assigns, the owner, and the columns of the recipe. *)
Module SavedRecipe.
Record t : Type := {
  id : string;
  created_at : string;
  user_id : string;
  columns : gmap string Json
}.
End SavedRecipe.

Inductive SavedReply : Type :=
| Saved401 (error : string)
| Saved500 (error : string)
| SavedRecipes (recipes : list SavedRecipe.t)
| SavedRow (data : SavedRecipe.t)
| SavedSuccess.

(** [GET]: the rows of the user, in the order that the store gives to
    [order("created_at", { ascending: false })]; [unavailable] is the
    error of a store that cannot be read. *)
Definition get_saved (identity : string -> option string)
    (unavailable : option string) (ordered : list SavedRecipe.t -> list SavedRecipe.t)
    (authorization : option string) (saved_recipes : list SavedRecipe.t) : SavedReply :=
  match getUser identity authorization with
  | None => Saved401 "Not authenticated"
  | Some user_id =>
      match unavailable with
      | Some message => Saved500 message
      | None =>
          SavedRecipes
            (ordered
               (List.filter (fun row => String.eqb (SavedRecipe.user_id row) user_id)
                  saved_recipes))
      end
  end.

(** [POST]: [insert(...).select().single()] adds a row under the
    identifier and the time that the store assigns and returns it, or
    reports that the store refuses the row.  A column that the insert
    leaves out is absent from [columns]. *)
Definition post_saved (identity : string -> option string)
    (refuses : string -> gmap string Json -> option string) (id created_at : string)
    (authorization : option string) (body : gmap string Json)
    (saved_recipes : list SavedRecipe.t) : list SavedRecipe.t * SavedReply :=
  match getUser identity authorization with
  | None => (saved_recipes, Saved401 "Not authenticated")
  | Some user_id =>
      match refuses user_id (recipe_of body) with
      | Some message => (saved_recipes, Saved500 message)
      | None =>
          let row :=
            {| SavedRecipe.id := id; SavedRecipe.created_at := created_at;
               SavedRecipe.user_id := user_id; SavedRecipe.columns := recipe_of body |} in
          (saved_recipes ++ [row], SavedRow row)
      end
  end.

(** [DELETE]: [delete().eq("id", id).eq("user_id", user_id)] removes
    the rows that pass both filters. *)
Definition delete_saved (identity : string -> option string)
    (unavailable : option string)
    (authorization : option string) (id : string)
    (saved_recipes : list SavedRecipe.t) : list SavedRecipe.t * SavedReply :=
  match getUser identity authorization with
  | None => (saved_recipes, Saved401 "Not authenticated")
  | Some user_id =>
      match unavailable with
      | Some message => (saved_recipes, Saved500 message)
      | None =>
          (List.filter
             (fun row =>
                negb (String.eqb (SavedRecipe.id row) id
                      && String.eqb (SavedRecipe.user_id row) user_id))
             saved_recipes,
           SavedSuccess)
      end
  end.

(** ** Vocabulary of the specification *)

(** [p.items[0].price.regular] *)
Definition regular_of `{!Rounding} (p : Product.t) : option double :=
  items ← Product.items p;
  item ← head items;
  price ← Item.price item;
  JS.parse <$> Price.regular price.

(** [n] is [x] rounded to the nearest integer, halves rounded up. *)
Definition round_half_up (x : Q) (n : Z) : Prop :=
  (inject_Z n - (1 # 2) <= x)%Q ∧ (x < inject_Z n + (1 # 2))%Q.

(** The percentage [(regular - promo) / regular * 100] as the three
    operations on doubles compute it from two finite prices, when none
    of them overflows. *)
Definition percentage `{!Rounding} (regular promo : Q) : Q :=
  fl (fl (fl (regular - promo) / regular) * 100).

(** The result that rounds from [x] is finite: it does not overflow. *)
Definition in_range `{!Rounding} (x : Q) : Prop :=
  (- MAX_VALUE <= fl x)%Q ∧ (fl x <= MAX_VALUE)%Q.

(** A price above zero, as the filter reads it; and its contrary. *)
Definition above_zero (x : double) : Prop :=
  match x with
  | Finite q => (0 < q)%Q
  | PosInf => True
  | NegZero | NegInf | NotANumber => False
  end.

Definition not_above_zero (x : double) : Prop :=
  match x with
  | Finite q => (q <= 0)%Q
  | PosInf => False
  | NegZero | NegInf | NotANumber => True
  end.

(** A double that is neither an infinity nor [NaN]. *)
Definition finite (x : double) : Prop :=
  match x with
  | Finite _ | NegZero => True
  | PosInf | NegInf | NotANumber => False
  end.

(** The regular price of a product, when it has one, is finite. *)
Definition finite_regular `{!Rounding} (p : Product.t) : Prop :=
  ∀ regular, regular_of p = Some regular → finite regular.

(** The finite double [a] has the value [x]. *)
Definition has_value (a : double) (x : Q) : Prop :=
  match a with
  | Finite y => (y == x)%Q
  | NegZero => (x == 0)%Q
  | PosInf | NegInf | NotANumber => False
  end.

(** The order of the doubles: [-Infinity] below and [Infinity] above
    every finite value, the two zeros equal, [NaN] unrelated to
    everything. *)
Definition double_le (a b : double) : Prop :=
  match a, b with
  | NotANumber, _ | _, NotANumber => False
  | NegInf, _ | _, PosInf => True
  | PosInf, _ | _, NegInf => False
  | _, _ => (value a <= value b)%Q
  end.

(** The order of the percentages: [-Infinity] below and [Infinity]
    above every integer, [NaN] unrelated to everything. *)
Definition pct_le (a b : number Z) : Prop :=
  match a, b with
  | NaN, _ | _, NaN => False
  | NegInfinity, _ => True
  | _, PosInfinity => True
  | Fin x, Fin y => x ≤ y
  | PosInfinity, _ => False
  | Fin _, NegInfinity => False
  end.

(** [a] may stand before [b] in a list ranked by falling percentage. *)
Definition ranked_before (a b : Deal.t) : Prop :=
  pct_le (Deal.pctOff b) (Deal.pctOff a).

#[global] Instance number_eq_dec : EqDecision (number Z).
Proof. solve_decision. Defined.

(** The deals of a list that carry the percentage [v]. *)
Definition with_pct (v : number Z) (l : list Deal.t) : list Deal.t :=
  List.filter (fun d => bool_decide (Deal.pctOff d = v)) l.

(** The deals of a list that carry the identifier [x]. *)
Definition with_id (x : string) (l : list Deal.t) : list Deal.t :=
  List.filter (fun d => String.eqb (Deal.id d) x) l.

(** Consecutive chunks of [b] elements, the last one possibly shorter. *)
Fixpoint chunks_upto {A : Type} (fuel b : nat) (l : list A) : list (list A) :=
  match fuel, l with
  | O, _ | _, [] => []
  | S fuel', _ :: _ => take b l :: chunks_upto fuel' b (drop b l)
  end.

Definition chunks {A : Type} (b : nat) (l : list A) : list (list A) :=
  chunks_upto (length l) b l.

(** [ceil (n / b)] *)
Definition ceil_div (n b : nat) : nat := ((n + b - 1) / b)%nat.

Definition issued (t : list Event) : list string :=
  omap (fun e => match e with Issue c => Some c | Settle _ => None end) t.

Definition settles (t : list Event) : list string :=
  omap (fun e => match e with Settle c => Some c | Issue _ => None end) t.

(** Every request issued in [t] has settled in [t]. *)
Definition quiescent (t : list Event) : Prop :=
  Permutation (issued t) (settles t).

(** The trace of the round that starts at index [i]. *)
Definition round_trace (settled : nat -> list string -> list string)
    (i : nat) (batch : list string) : list Event :=
  map Issue batch ++ map Settle (settled i batch).

(** The categories in the order in which their callbacks settle. *)
Definition settle_order (settled : nat -> list string -> list string)
    (b : nat) (categories : list string) : list string :=
  concat (imap (fun k batch => settled (k * b)%nat batch) (chunks b categories)).


(** The sale items that some used ingredient matches by the substring
    rule, each one once, and their savings. *)
Definition substring_matches `{!CaseMapping}
    (ingredients : list SaleItem.t) (used : list Ingredient.t) : list SaleItem.t :=
  List.filter
    (fun i => existsb (fun ing => includes (toLowerCase (SaleItem.name i)) (token_of (Ingredient.name ing))) used)
    ingredients.

(** The savings of a list of sale items, added up from the left. *)
Definition sum_savings `{!Rounding} (l : list SaleItem.t) : Q :=
  foldl (fun acc i => plus acc (parseFloat_or_0 (SaleItem.savings i))) 0%Q l.

(** The savings of the entries of [usedSaleItems], added up from the
    left. *)
Definition sum_used `{!Rounding} (l : list UsedItem.t) : Q :=
  foldl (fun acc i => plus acc (parseFloat_or_0 (UsedItem.savings i))) 0%Q l.

(** The last sale item of the request whose lower-case first token is
    [key]. *)
Definition last_with_token `{!CaseMapping} (ingredients : list SaleItem.t) (key : string)
    : option SaleItem.t :=
  last (List.filter (fun i => String.eqb (token_of (SaleItem.name i)) key) ingredients).

(** The first sale item of the request whose lower-case name contains
    [key]. *)
Definition first_containing `{!CaseMapping} (ingredients : list SaleItem.t) (key : string)
    : option SaleItem.t :=
  List.find (fun i => includes (toLowerCase (SaleItem.name i)) key) ingredients.

(** What the loop finds for a used ingredient, if anything. *)
Definition found_for `{!CaseMapping} (lookup : Lookup) (ingredients : list SaleItem.t)
    (ing : Ingredient.t) : option Found :=
  find_deal lookup ingredients (token_of (Ingredient.name ing)).

(** [t] occurs in [s]. *)
Definition substring_of (t s : string) : Prop :=
  ∃ before after : string, s = (before ++ t ++ after)%string.

(** ** Worked examples *)

(** Arithmetic without rounding error: the rounding of the examples,
    whose intermediate results are all doubles. *)
Definition exact : Rounding.
Proof.
  refine {| fl := fun x => x |}; intros; lra || reflexivity.
Defined.

(** The case conversion of the examples, whose texts are ASCII. *)
Definition ascii_letters : CaseMapping.
Proof.
  refine {| toLowerCase := lower_ascii_letters |}; reflexivity.
Defined.

(** A product with one item that carries the given prices. *)
Definition product (productId description : string) (regular promo : option Q) : Product.t :=
  {| Product.productId := productId;
     Product.description := Some description;
     Product.brand := None;
     Product.items :=
       Some [{| Item.upc := None; Item.size := None;
                Item.price :=
                  Some {| Price.regular := Decimal <$> regular;
                          Price.promo := Decimal <$> promo |} |}];
     Product.images := None |}.

(** The deal that [to_deal] builds from such a product. *)
Definition deal (id name category : string) (regularPrice salePrice savings : Z)
    (pctOff : number Z) : Deal.t :=
  {| Deal.id := id; Deal.upc := ""; Deal.name := Some name; Deal.brand := "";
     Deal.category := category; Deal.regularPrice := Hundredths regularPrice;
     Deal.salePrice := Hundredths salePrice; Deal.savings := Hundredths savings;
     Deal.pctOff := pctOff;
     Deal.size := ""; Deal.image := None |}.

Definition milk : Product.t := product "0001" "Milk" (Some 4%Q) (Some 3%Q).
Definition eggs : Product.t := product "0002" "Eggs" (Some 4%Q) (Some (7 # 2)%Q).
Definition bread : Product.t := product "0003" "Bread" (Some 2%Q) (Some 4%Q).
Definition salt : Product.t := product "0004" "Salt" (Some 1%Q) None.

Definition milk_deal : Deal.t := deal "0001" "Milk" "dairy" 400 300 100 (Fin 25).
Definition eggs_deal : Deal.t := deal "0002" "Eggs" "eggs" 400 350 50 (Fin 13).
Definition bread_deal : Deal.t := deal "0003" "Bread" "bread" 200 400 (-200) (Fin (-100)).

(** The state after the rounds that start at index [i], over the chunks
    [cs] that remain. *)
Definition after_rounds `{!Rounding} (catalog : string -> Fetched)
    (settled : nat -> list string -> list string) (b i : nat) (cs : list (list string)) (st : Progress) : Progress :=
  {| allProducts :=
       allProducts st ++
       List.flat_map (fun c => category_products c (catalog c))
         (concat (imap (fun k batch => settled (i + k * b)%nat batch) cs));
     trace :=
       trace st ++ concat (imap (fun k batch => round_trace settled (i + k * b)%nat batch) cs);
     rounds := (rounds st + length cs)%nat |}.

(** Two schedules: the callbacks of a batch settle in the order of the
    batch, or in the reverse order. *)
Definition in_order : nat -> list string -> list string := fun _ batch => batch.
Definition reversed : nat -> list string -> list string := fun _ batch => rev batch.

(** A catalog that is down. *)
Definition unavailable : string -> Fetched := fun _ => NotOk.

(** A catalog that answers three terms, fails on two and knows nothing
    else. *)
Definition small_catalog (term : string) : Fetched :=
  if String.eqb term "dairy" then Data (Some [milk; salt])
  else if String.eqb term "eggs" then Data (Some [eggs; milk])
  else if String.eqb term "bread" then Data (Some [bread])
  else if String.eqb term "beef" then TransportError
  else if String.eqb term "pork" then NotOk
  else Data None.

Definition eight_terms : list string :=
  ["beef"; "dairy"; "fruit"; "pork"; "eggs"; "rice"; "bread"; "tea"]%string.

(** A percentage that the comparator orders: not [NaN]. *)
Definition rankable (d : Deal.t) : Prop := Deal.pctOff d ≠ NaN.

(** A crowded store: 200 products at half price, and one product at
    10% off that two categories return. *)
Fixpoint tag (n : nat) : string :=
  match n with
  | O => "p"
  | S n' => String "x" (tag n')
  end.

Definition filler (n : nat) : Deal.t :=
  deal (tag n) "Filler" "snacks" 200 100 100 (Fin 50).

Definition twin : Deal.t := deal "twin" "Twin" "snacks" 1000 900 100 (Fin 10).

Definition crowd : list Deal.t := map filler (seq 0 200) ++ [twin; twin].

(** The answer of [/api/deals] over [small_catalog]. *)
Definition milk_with_eggs : Deal.t := deal "0001" "Milk" "eggs" 400 300 100 (Fin 25).
Definition small_deals : list Deal.t := [milk_with_eggs; eggs_deal; bread_deal].
Definition granted : TokenAnswer := TokenGranted "app-token" 1800.

(** A catalog with a product whose regular price, [1e999] in the JSON
    text, is beyond the largest double, between a product at 10% off
    and one at half price. *)
Definition tea : Product.t := product "0005" "Tea" (Some 10%Q) (Some 9%Q).
Definition caviar : Product.t :=
  product "0006" "Caviar" (Some (inject_Z (10 ^ 999))) (Some 1%Q).
Definition ham : Product.t := product "0007" "Ham" (Some 8%Q) (Some 4%Q).

Definition priceless_catalog (term : string) : Fetched :=
  if String.eqb term "tea" then Data (Some [tea; caviar; ham]) else Data None.

Definition tea_deal : Deal.t := deal "0005" "Tea" "tea" 1000 900 100 (Fin 10).
Definition caviar_deal : Deal.t :=
  {| Deal.id := "0006"; Deal.upc := ""; Deal.name := Some "Caviar"%string; Deal.brand := "";
     Deal.category := "tea"; Deal.regularPrice := Shortest PosInf;
     Deal.salePrice := Hundredths 100; Deal.savings := Shortest PosInf;
     Deal.pctOff := NaN; Deal.size := ""; Deal.image := None |}.
Definition ham_deal : Deal.t := deal "0007" "Ham" "tea" 800 400 400 (Fin 50).

(** The sale item that the loop attributes to a used ingredient, when
    what it finds is a sale item. *)
Definition deal_of `{!CaseMapping} (lookup : Lookup) (ingredients : list SaleItem.t)
    (ing : Ingredient.t) : option SaleItem.t :=
  match found_for lookup ingredients ing with
  | Some (FoundItem deal) => Some deal
  | Some (FoundText | FoundFunction _ | FoundPrototype) | None => None
  end.

(** One sale item, and a recipe that uses two cuts of it. *)
Definition chicken : SaleItem.t :=
  {| SaleItem.name := "Chicken Breast"; SaleItem.salePrice := Some 400;
     SaleItem.regularPrice := Some 500; SaleItem.savings := Some 100;
     SaleItem.upc := Some "0001111097139"%string |}.

Definition two_cuts : Recipe.t :=
  {| Recipe.usedIngredients :=
       Some [{| Ingredient.name := "chicken breast" |}; {| Ingredient.name := "chicken thighs" |}];
     Recipe.missedIngredientCount := Some 2 |}.

Definition chicken_coupon : Coupon.t :=
  {| Coupon.description := Some "Save $1 on fresh CHICKEN"%string;
     Coupon.brand := Some "Kroger"%string; Coupon.savings := Some 1%Q;
     Coupon.clipped := Some false; Coupon.type := Some "digital_coupon"%string |}.

(** The number of refresh requests sent so far. *)
Definition refresh_count (s : Server) : nat :=
  length (List.filter is_refresh (calls s)).

(** A user whose token expired at time 1000, and one whose token lasts
    until 9000; the clock reads 5000. *)
Definition stale : KrogerData.t :=
  {| KrogerData.accessToken := "old"; KrogerData.refreshToken := Some "r1"%string;
     KrogerData.expiresAt := 1000 |}.

Definition fresh : KrogerData.t :=
  {| KrogerData.accessToken := "cur"; KrogerData.refreshToken := Some "r2"%string;
     KrogerData.expiresAt := 9000 |}.

Definition two_users : Server :=
  {| krogerTokens := <["ann"%string := stale]> (<["bob"%string := fresh]> ∅); calls := [] |}.

Definition at_5000 : Env :=
  {| now := 5000; now_refreshed := 5200;
     token_endpoint := fun _ => TokenGranted "new" 1800 |}.

Definition basket : list CartItem.t :=
  [{| CartItem.upc := Some "0001111097139"%string; CartItem.quantity := None |}].

(** The identity provider knows the tokens of ann and bob. *)
Definition known_user (token : string) : option string :=
  if String.eqb token "ann-jwt" then Some "ann"%string
  else if String.eqb token "bob-jwt" then Some "bob"%string
  else None.

Definition one_profile : gmap string (gmap string Json) :=
  <["ann"%string :=
      <["full_name"%string := JString "Ann"]>
        (<["kroger_connected"%string := JBool false]>
           (<["id"%string := JString "ann"]> ∅))]> ∅.

Definition patch_body : gmap string Json :=
  <["full_name"%string := JString "Ann B."]>
    (<["kroger_connected"%string := JBool true]>
       (<["id"%string := JString "bob"]> ∅)).

Definition never (updates : gmap string Json) : option string := None.

(** ** Further examples *)

(** The deals over [small_catalog] when the requests settle in the
    order of the batch. *)
Definition small_deals_in_order : list Deal.t := [milk_deal; eggs_deal; bread_deal].

(** A used ingredient whose name begins with a space. *)
Definition padded : Ingredient.t := {| Ingredient.name := " chicken" |}.

(** A later moment, at which the token endpoint would refuse. *)
Definition at_6000 : Env :=
  {| now := 6000; now_refreshed := 6200;
     token_endpoint := fun _ => TokenDenied "invalid_grant" |}.

Definition login_body : gmap string Json :=
  <["password"%string := JString "open sesame"]> ∅.

(** A token endpoint that knows one authorization code, and the profile
    that the grocer keeps. *)
Definition code_endpoint (code : string) : CodeAnswer :=
  if String.eqb code "code-1" then CodeGranted "at-1" (Some "rt-1"%string) 1800
  else CodeDenied "invalid_grant".

Definition loyalty : Json := JObject [("id"%string, JString "k-1")].

Definition identity_endpoint (bearer : string) : IdentityAnswer :=
  IdentityBody (Some loyalty).

Definition accounts : Accounts :=
  {| server := two_users; krogerProfiles := ∅; unnamed := None |}.

(** The accounts once ann has connected at time 5000. *)
Definition connected : Accounts :=
  {| server :=
       {| krogerTokens :=
            <["ann"%string :=
                {| KrogerData.accessToken := "at-1";
                   KrogerData.refreshToken := Some "rt-1"%string;
                   KrogerData.expiresAt := 1805000 |}]> (krogerTokens two_users);
          calls := [] |};
     krogerProfiles := <["ann"%string := loyalty]> ∅;
     unnamed := None |}.

Definition both_diets : option (list string) :=
  Some ["Halal"; "Kosher"; "Low Calorie"]%string.

(** The text that Node prints for a function that every object
    inherits. *)
Definition node_text (name : string) : string :=
  ("function " ++ name ++ "() { [native code] }")%string.

Definition household : gmap string Json :=
  <["household_size"%string := JNumber 3]> ∅.

Definition ann_row : gmap string Json :=
  <["full_name"%string := JString "Ann"]>
    (<["kroger_connected"%string := JBool false]>
       (<["id"%string := JString "ann"]> ∅)).

(** Two locations: one of a chain, one with neither chain nor name. *)
Definition corner_store : Location.t :=
  {| Location.locationId := Some "01400943"%string;
     Location.chain := Some "KROGER"%string;
     Location.name := Some "Kroger Main St"%string;
     Location.address :=
       Some {| Address.addressLine1 := Some "1 Main St"%string;
               Address.city := Some "Cincinnati"%string;
               Address.state := Some "OH"%string |};
     Location.hours := Some {| Hours.open24 := Some true |} |}.

Definition nameless : Location.t :=
  {| Location.locationId := Some "01400999"%string;
     Location.chain := None; Location.name := Some ""%string;
     Location.address := None; Location.hours := None |}.

Definition nearby (token zip : string) : Located :=
  Locations (Some [corner_store; nameless]).

(** The recipe [two_cuts] with five ingredients missing instead of
    two. *)
Definition five_missing : Recipe.t :=
  {| Recipe.usedIngredients := Recipe.usedIngredients two_cuts;
     Recipe.missedIngredientCount := Some 5 |}.

(** A recipe to save, with members that the handler does not read, and
    a recipe that bob saved before. *)
Definition tacos : gmap string Json :=
  <["title"%string := JString "Tacos"]>
    (<["user_id"%string := JString "bob"]> (<["id"%string := JString "r-1"]> ∅)).

Definition bobs_recipe : SavedRecipe.t :=
  {| SavedRecipe.id := "r-1"; SavedRecipe.created_at := "2026-11-01T08:00:00Z";
     SavedRecipe.user_id := "bob";
     SavedRecipe.columns := <["title"%string := JString "Soup"]> ∅ |}.

Definition accepts (user_id : string) (row : gmap string Json) : option string := None.

(** The row that the store keeps when ann saves [tacos]. *)
Definition anns_tacos : SavedRecipe.t :=
  {| SavedRecipe.id := "r-2"; SavedRecipe.created_at := "2026-11-03T08:00:00Z";
     SavedRecipe.user_id := "ann";
     SavedRecipe.columns := <["title"%string := JString "Tacos"]> ∅ |}.

(** ** Vocabulary of the further properties *)

(** The character [c] occurs in [s]. *)
Fixpoint has_char (c : ascii) (s : string) : bool :=
  match s with
  | EmptyString => false
  | String c' s' => Ascii.eqb c' c || has_char c s'
  end.

(** The last character of [s] is white space. *)
Fixpoint ends_with_white_space (s : string) : bool :=
  match s with
  | EmptyString => false
  | String c EmptyString => white_space c
  | String _ s' => ends_with_white_space s'
  end.

(** * Properties *)

Section Properties.

Context {rounding : Rounding} {casing : CaseMapping}.

(** ** Numbers *)

Lemma Qltb_lt (a b : Q) : Qltb a b = true ↔ (a < b)%Q.
Proof.
  unfold Qltb. rewrite negb_true_iff. split.
  - intros H. apply Qnot_le_lt. intros Hle.
    apply Qle_bool_iff in Hle. congruence.
  - intros H. destruct (Qle_bool b a) eqn:E; [|reflexivity].
    apply Qle_bool_iff in E. exfalso. exact (Qlt_not_le _ _ H E).
Qed.

Lemma Qltb_ge (a b : Q) : Qltb a b = false ↔ (b <= a)%Q.
Proof.
  unfold Qltb. rewrite negb_false_iff. apply Qle_bool_iff.
Qed.

Lemma Qeq_bool_false (a b : Q) : Qeq_bool a b = false ↔ ¬ (a == b)%Q.
Proof.
  split.
  - intros H Heq. apply Qeq_bool_iff in Heq. congruence.
  - intros H. destruct (Qeq_bool a b) eqn:E; [|reflexivity].
    apply Qeq_bool_iff in E. contradiction.
Qed.

(** The integer part is the only integer within one unit below. *)
Lemma Qfloor_unique (y : Q) (n : Z) :
  (inject_Z n <= y)%Q → (y < inject_Z (n + 1))%Q → Qfloor y = n.
Proof.
  intros Hlo Hhi.
  pose proof (Qfloor_le y) as Hfl.
  pose proof (Qlt_floor y) as Hfu.
  assert (H1 : (inject_Z n < inject_Z (Qfloor y + 1))%Q) by (eapply Qle_lt_trans; eassumption).
  assert (H2 : (inject_Z (Qfloor y) < inject_Z (n + 1))%Q) by (eapply Qle_lt_trans; eassumption).
  rewrite <- Zlt_Qlt in H1, H2. lia.
Qed.

Lemma half_shift (x : Q) (n : Z) :
  round_half_up x n ↔ (inject_Z n <= x + (1 # 2))%Q ∧ (x + (1 # 2) < inject_Z (n + 1))%Q.
Proof.
  unfold round_half_up. rewrite inject_Z_plus.
  change (inject_Z 1) with 1%Q.
  split; intros [H1 H2]; split; lra.
Qed.

(** [Math.round] rounds halves up, and nothing else does. *)
Lemma Math_round_half_up (x : Q) (n : Z) :
  Math_round (Finite x) = Fin n ↔ round_half_up x n.
Proof.
  cbn [Math_round]. rewrite half_shift. split.
  - intros H. assert (n = Qfloor (x + (1 # 2))) as -> by congruence.
    split; [apply Qfloor_le | apply Qlt_floor].
  - intros [H1 H2]. f_equal. by apply Qfloor_unique.
Qed.

(** ** Doubles *)

Lemma fl_0 : (fl 0 == 0)%Q.
Proof.
  pose proof (fl_odd 0) as H. change (- 0)%Q with 0%Q in H. lra.
Qed.

Lemma MAX_VALUE_large : (100 <= MAX_VALUE)%Q.
Proof. unfold Qle. vm_compute. discriminate. Qed.

Lemma in_range_proper (x y : Q) : (x == y)%Q → in_range x → in_range y.
Proof.
  intros Hxy [Hlo Hhi]. pose proof (fl_proper x y Hxy). unfold in_range. split; lra.
Qed.

Lemma in_range_between (x lo hi : Q) :
  (- MAX_VALUE <= fl lo)%Q → (fl hi <= MAX_VALUE)%Q → (lo <= x)%Q → (x <= hi)%Q → in_range x.
Proof.
  intros Hlo Hhi H1 H2.
  pose proof (fl_mono lo x H1). pose proof (fl_mono x hi H2).
  unfold in_range. split; lra.
Qed.

Lemma has_value_proper (a : double) (x y : Q) : (x == y)%Q → has_value a x → has_value a y.
Proof. destruct a; cbn; try done; intros; lra. Qed.

Lemma has_value_zero (s : bool) (x : Q) : (x == 0)%Q → has_value (zero s) x.
Proof. destruct s; cbn; intros; lra. Qed.

Lemma has_value_is_zero (a : double) (x : Q) :
  has_value a x → is_zero a = true ↔ (x == 0)%Q.
Proof.
  destruct a as [y| | | |]; cbn; try done.
  intros Hy. rewrite Qeq_bool_iff. split; intros; lra.
Qed.

Lemma has_value_value (a : double) (x : Q) : has_value a x → (value a == x)%Q.
Proof. destruct a; cbn; try done; intros; lra. Qed.

(** What [round] returns, by the place of the rounded value. *)
Lemma round_cases (x : Q) :
  (round x = PosInf ∧ (MAX_VALUE < fl x)%Q) ∨
  (round x = NegInf ∧ (fl x < - MAX_VALUE)%Q) ∨
  (in_range x ∧
   ((round x = NegZero ∧ (fl x == 0)%Q ∧ (x < 0)%Q) ∨ round x = Finite (fl x))).
Proof.
  unfold round, in_range. cbv zeta.
  destruct (Qltb MAX_VALUE (fl x)) eqn:Hhi.
  { left. split; [done|]. by apply Qltb_lt. }
  apply Qltb_ge in Hhi.
  destruct (Qltb (fl x) (- MAX_VALUE)) eqn:Hlo.
  { right. left. split; [done|]. by apply Qltb_lt. }
  apply Qltb_ge in Hlo.
  right. right. split; [done|].
  destruct (Qeq_bool (fl x) 0) eqn:Hz; cbn [andb]; [|by right].
  destruct (Qltb x 0) eqn:Hneg; [|by right].
  left. split; [done|]. split; [by apply Qeq_bool_iff | by apply Qltb_lt].
Qed.

Lemma round_has_value (x : Q) : in_range x → has_value (round x) (fl x).
Proof.
  intros [Hlo Hhi].
  destruct (round_cases x) as [[_ H]|[[_ H]|[_ [(-> & Hz & _)| ->]]]]; cbn; lra.
Qed.

Lemma round_not_nan (x : Q) : round x ≠ NotANumber.
Proof.
  destruct (round_cases x) as [[-> _]|[[-> _]|[_ [(-> & _)| ->]]]]; done.
Qed.

(** A finite double that [round] returns is a double within the
    bounds. *)
Lemma round_Finite (x v : Q) :
  round x = Finite v → (fl v == v)%Q ∧ (- MAX_VALUE <= v)%Q ∧ (v <= MAX_VALUE)%Q.
Proof.
  destruct (round_cases x) as [[-> _]|[[-> _]|[[Hlo Hhi] [(-> & _)| ->]]]]; try done.
  intros [= <-]. split; [apply fl_idem | done].
Qed.

Lemma parse_Finite (l : literal) (v : Q) :
  parse l = Finite v → (fl v == v)%Q ∧ (- MAX_VALUE <= v)%Q ∧ (v <= MAX_VALUE)%Q.
Proof. destruct l as [q|]; cbn; [apply round_Finite | done]. Qed.

Lemma minus_has_value (a b : double) (x y : Q) :
  has_value a x → has_value b y → in_range (x - y) →
  has_value (JS.minus a b) (fl (x - y)).
Proof.
  destruct a as [x'| | | |], b as [y'| | | |]; cbn [has_value]; try done;
    intros Hx Hy Hr; cbn [JS.minus value].
  - eapply has_value_proper; [|apply round_has_value].
    + apply fl_proper. lra.
    + eapply in_range_proper; [|exact Hr]. lra.
  - eapply has_value_proper; [|apply round_has_value].
    + apply fl_proper. lra.
    + eapply in_range_proper; [|exact Hr]. lra.
  - destruct (Qeq_bool y' 0) eqn:Hz.
    + apply Qeq_bool_iff in Hz. cbn.
      assert (H : (fl (x - y) == fl 0)%Q) by (apply fl_proper; lra).
      pose proof fl_0. lra.
    + eapply has_value_proper; [|apply round_has_value].
      * apply fl_proper. lra.
      * eapply in_range_proper; [|exact Hr]. lra.
  - eapply has_value_proper; [|apply round_has_value].
    + apply fl_proper. lra.
    + eapply in_range_proper; [|exact Hr]. lra.
Qed.

Lemma div_has_value (a b : double) (x y : Q) :
  has_value a x → has_value b y → ¬ (y == 0)%Q → in_range (x / y) →
  has_value (JS.div a b) (fl (x / y)).
Proof.
  intros Hx Hy Hnz Hr.
  assert (Hb : is_zero b = false).
  { destruct (is_zero b) eqn:E; [|done]. by apply (has_value_is_zero b y Hy) in E. }
  pose proof (has_value_value a x Hx) as Hva.
  pose proof (has_value_value b y Hy) as Hvb.
  assert (Hgen : has_value
            (if is_zero b then (if is_zero a then NotANumber
                                else infinity (xorb (negative a) (negative b)))
             else if is_zero a then zero (xorb (negative a) (negative b))
             else round (value a / value b)) (fl (x / y))).
  { rewrite Hb. destruct (is_zero a) eqn:Ha.
    - apply has_value_zero. apply (has_value_is_zero a x Hx) in Ha.
      assert (H : (fl (x / y) == fl 0)%Q).
      { apply fl_proper. rewrite Ha. unfold Qdiv. lra. }
      pose proof fl_0. lra.
    - eapply has_value_proper; [|apply round_has_value].
      + apply fl_proper. by rewrite Hva, Hvb.
      + eapply in_range_proper; [|exact Hr]. by rewrite Hva, Hvb. }
  destruct a, b; cbn [has_value] in Hx, Hy; try done; exact Hgen.
Qed.

Lemma mul_has_value (a b : double) (x y : Q) :
  has_value a x → has_value b y → in_range (x * y) →
  has_value (JS.mul a b) (fl (x * y)).
Proof.
  intros Hx Hy Hr.
  pose proof (has_value_value a x Hx) as Hva.
  pose proof (has_value_value b y Hy) as Hvb.
  assert (Hgen : has_value
            (if is_zero a || is_zero b then zero (xorb (negative a) (negative b))
             else round (value a * value b)) (fl (x * y))).
  { destruct (is_zero a || is_zero b) eqn:Hz.
    - apply has_value_zero.
      assert (H0 : (x * y == 0)%Q).
      { apply orb_true_iff in Hz as [Ha|Hb'].
        - apply (has_value_is_zero a x Hx) in Ha. rewrite Ha. lra.
        - apply (has_value_is_zero b y Hy) in Hb'. rewrite Hb'. lra. }
      assert (H : (fl (x * y) == fl 0)%Q) by (by apply fl_proper).
      pose proof fl_0. lra.
    - eapply has_value_proper; [|apply round_has_value].
      + apply fl_proper. by rewrite Hva, Hvb.
      + eapply in_range_proper; [|exact Hr]. by rewrite Hva, Hvb. }
  destruct a, b; cbn [has_value] in Hx, Hy; try done; exact Hgen.
Qed.

Lemma Math_round_has_value (a : double) (x : Q) :
  has_value a x → Math_round a = Fin (Qfloor (x + (1 # 2))%Q).
Proof.
  destruct a as [y| | | |]; cbn [has_value Math_round]; try done.
  - intros Hy. f_equal. apply Qfloor_comp. by rewrite Hy.
  - intros Hx. f_equal. transitivity (Qfloor (0 + (1 # 2))); [done|].
    apply Qfloor_comp. by rewrite Hx.
Qed.

(** ** From a product to a deal *)

Lemma promo_of_parsed (p : Product.t) (promo : Q) :
  promo_of p = Some (Finite promo) →
  (fl promo == promo)%Q ∧ (- MAX_VALUE <= promo)%Q ∧ (promo <= MAX_VALUE)%Q.
Proof.
  unfold promo_of.
  destruct (Product.items p) as [[|item rest]|]; cbn; try discriminate.
  destruct (Item.price item) as [price|]; cbn; try discriminate.
  destruct (Price.promo price) as [literal|]; cbn; try discriminate.
  intros [= H]. by apply parse_Finite in H.
Qed.

Lemma regular_of_parsed (p : Product.t) (regular : Q) :
  regular_of p = Some (Finite regular) →
  (fl regular == regular)%Q ∧ (- MAX_VALUE <= regular)%Q ∧ (regular <= MAX_VALUE)%Q.
Proof.
  unfold regular_of.
  destruct (Product.items p) as [[|item rest]|]; cbn; try discriminate.
  destruct (Item.price item) as [price|]; cbn; try discriminate.
  destruct (Price.regular price) as [literal|]; cbn; try discriminate.
  intros [= H]. by apply parse_Finite in H.
Qed.

Lemma gt_zero_iff (x : double) : JS.gt x (Finite 0) = true ↔ above_zero x.
Proof.
  destruct x as [q| | | |]; cbn; try done.
  apply Qltb_lt.
Qed.

Lemma not_above_zero_iff (x : double) : not_above_zero x ↔ ¬ above_zero x.
Proof. destruct x as [q| | | |]; cbn; try tauto. split; intros; lra. Qed.

Lemma on_promotion_iff (p : Product.t) :
  on_promotion p = true ↔ ∃ promo, promo_of p = Some promo ∧ above_zero promo.
Proof.
  unfold on_promotion. destruct (promo_of p) as [promo|]; cbn [ToNumber].
  - rewrite gt_zero_iff. split; [eauto | by intros (? & [= <-] & ?)].
  - split; [discriminate | by intros (? & ? & ?)].
Qed.

Lemma to_deal_inv (category : string) (p : Product.t) (d : Deal.t) :
  to_deal category p = Some d →
  ∃ regular promo,
    regular_of p = Some regular ∧ promo_of p = Some promo ∧
    Deal.pctOff d = percent_off regular promo ∧
    Deal.regularPrice d = toFixed regular ∧
    Deal.salePrice d = toFixed promo ∧
    Deal.savings d = toFixed (JS.minus regular promo) ∧
    Deal.id d = Product.productId p ∧
    Deal.category d = category.
Proof.
  unfold to_deal, regular_of, promo_of.
  destruct (Product.items p) as [[|item rest]|]; cbn; try discriminate.
  destruct (Item.price item) as [price|]; cbn; try discriminate.
  destruct (Price.regular price) as [regular|]; cbn; try discriminate.
  destruct (Price.promo price) as [promo|]; cbn; try discriminate.
  intros [= <-]. exists (JS.parse regular), (JS.parse promo). cbn. done.
Qed.

Lemma to_deal_defined (category : string) (p : Product.t) (regular promo : double) :
  regular_of p = Some regular → promo_of p = Some promo →
  is_Some (to_deal category p).
Proof.
  unfold to_deal, regular_of, promo_of.
  destruct (Product.items p) as [[|item rest]|]; cbn; try discriminate.
  destruct (Item.price item) as [price|]; cbn; try discriminate.
  destruct (Price.regular price), (Price.promo price); cbn; try discriminate.
  eauto.
Qed.

(** The percentage of two finite prices, when nothing overflows. *)
Lemma percent_off_finite (regular promo : Q) :
  ¬ (regular == 0)%Q →
  in_range (regular - promo) →
  in_range (fl (regular - promo) / regular) →
  in_range (fl (fl (regular - promo) / regular) * 100) →
  percent_off (Finite regular) (Finite promo)
  = Fin (Qfloor (percentage regular promo + (1 # 2))%Q).
Proof.
  intros Hr H1 H2 H3. unfold percent_off, percentage.
  apply Math_round_has_value, mul_has_value; [|by cbn|done].
  apply div_has_value; [|by cbn|done|done].
  apply minus_has_value; by cbn.
Qed.

(** A regular price of zero: the quotient is an infinity, of the sign
    opposite to the sign of the zero. *)
Lemma percent_off_zero_regular (regular promo : double) :
  is_zero regular = true → above_zero promo →
  (∀ q, promo = Finite q → (fl q == q)%Q) →
  percent_off regular promo = if negative regular then PosInfinity else NegInfinity.
Proof.
  intros Hz Hp Hfl. unfold percent_off.
  assert (Hdiff : JS.minus regular promo = NegInf ∨
                  ∃ v, JS.minus regular promo = Finite v ∧ (v < 0)%Q).
  { destruct promo as [q| | | |]; cbn in Hp; try done.
    - specialize (Hfl q eq_refl).
      assert (Hround : round (- q) = NegInf ∨ ∃ v, round (- q) = Finite v ∧ (v < 0)%Q).
      { pose proof (fl_odd q) as Hodd.
        destruct (round_cases (- q)) as [[_ H]|[[-> _]|[_ [(_ & H & _)| ->]]]].
        - pose proof MAX_VALUE_large. lra.
        - by left.
        - lra.
        - right. eexists. split; [done|]. lra. }
      destruct regular as [r| | | |]; cbn in Hz; try done.
      + apply Qeq_bool_iff in Hz. cbn [JS.minus value].
        destruct Hround as [Hround|(v & Hround & Hv)].
        * left. rewrite <- Hround. unfold round. cbv zeta.
          pose proof (fl_proper (r - q) (- q) ltac:(lra)) as Heq.
          assert (Qltb MAX_VALUE (fl (r - q)) = Qltb MAX_VALUE (fl (- q))) as ->.
          { unfold Qltb. f_equal. apply eq_true_iff_eq. rewrite !Qle_bool_iff. split; lra. }
          assert (Qltb (fl (r - q)) (- MAX_VALUE) = Qltb (fl (- q)) (- MAX_VALUE)) as ->.
          { unfold Qltb. f_equal. apply eq_true_iff_eq. rewrite !Qle_bool_iff. split; lra. }
          unfold round in Hround. cbv zeta in Hround.
          destruct (Qltb MAX_VALUE (fl (- q))); [done|].
          destruct (Qltb (fl (- q)) (- MAX_VALUE)); [done|].
          by destruct (Qeq_bool (fl (- q)) 0 && Qltb (- q) 0).
        * pose proof (fl_proper (r - q) (- q) ltac:(lra)) as Heq.
          pose proof (fl_odd q) as Hodd.
          destruct (round_cases (r - q)) as [[_ H]|[[-> _]|[_ [(_ & H & _)| ->]]]].
          -- pose proof MAX_VALUE_large. lra.
          -- by left.
          -- lra.
          -- right. eexists. split; [done|]. lra.
      + cbn [JS.minus]. assert (Qeq_bool q 0 = false) as ->.
        { apply Qeq_bool_false. lra. }
        exact Hround.
    - left. by destruct regular. }
  assert (Hquot : JS.div (JS.minus regular promo) regular
                  = infinity (negb (negative regular))).
  { destruct Hdiff as [->|(v & -> & Hv)].
    - destruct regular as [r| | | |]; cbn in Hz |- *; try done.
    - assert (Hnz : Qeq_bool v 0 = false) by (apply Qeq_bool_false; lra).
      assert (Hneg : Qltb v 0 = true) by (by apply Qltb_lt).
      destruct regular as [r| | | |]; cbn in Hz |- *; try done.
      + by rewrite Hz, Hnz, Hneg.
      + by rewrite Hnz, Hneg. }
  rewrite Hquot.
  assert (H100 : Qeq_bool 100 0 = false) by done.
  destruct (negative regular); cbn; by rewrite ?H100.
Qed.

(** A regular price that is an infinity: the percentage is [NaN]. *)
Lemma percent_off_infinite_regular (regular promo : double) :
  regular = PosInf ∨ regular = NegInf → above_zero promo →
  percent_off regular promo = NaN.
Proof.
  intros [-> | ->] Hp; destruct promo; cbn in Hp; try done.
Qed.

Lemma div_not_nan (a : double) (y : Q) :
  a ≠ NotANumber → ¬ (y == 0)%Q → JS.div a (Finite y) ≠ NotANumber.
Proof.
  intros Ha Hy. apply Qeq_bool_false in Hy.
  destruct a as [x| | | |]; cbn; rewrite ?Hy; unfold zero, infinity; try done;
    repeat match goal with |- context [if ?b then _ else _] => destruct b end;
    try done; apply round_not_nan.
Qed.

Lemma mul_100_not_nan (a : double) :
  a ≠ NotANumber → JS.mul a (Finite 100) ≠ NotANumber.
Proof.
  intros Ha.
  destruct a as [x| | | |]; cbn; unfold zero, infinity; try done;
    repeat match goal with |- context [if ?b then _ else _] => destruct b end;
    try done; apply round_not_nan.
Qed.

Lemma Math_round_not_nan (a : double) : a ≠ NotANumber → Math_round a ≠ NaN.
Proof. by destruct a. Qed.

(** A promoted product with a finite regular price never yields
    [NaN]. *)
Lemma percent_off_ranked (regular promo : double) :
  finite regular → above_zero promo →
  (∀ q, promo = Finite q → (fl q == q)%Q) →
  percent_off regular promo ≠ NaN.
Proof.
  intros Hfin Hp Hfl.
  destruct (is_zero regular) eqn:Hz.
  { rewrite percent_off_zero_regular by done. by destruct (negative regular). }
  destruct regular as [r| | | |]; cbn in Hfin, Hz; try done.
  apply Qeq_bool_false in Hz.
  unfold percent_off. apply Math_round_not_nan, mul_100_not_nan, div_not_nan; [|done].
  destruct promo as [q| | | |]; cbn in Hp |- *; try done.
  apply round_not_nan.
Qed.

(** A price between zero and the regular price gives a percentage
    between 0 and 100, rounding included, and nothing overflows on the
    way. *)
Lemma percentage_bounds (regular promo : Q) :
  (0 < promo)%Q → (promo < regular)%Q →
  (fl regular == regular)%Q → (regular <= MAX_VALUE)%Q →
  ((0 <= percentage regular promo)%Q ∧ (percentage regular promo <= 100)%Q) ∧
  in_range (regular - promo) ∧
  in_range (fl (regular - promo) / regular) ∧
  in_range (fl (fl (regular - promo) / regular) * 100).
Proof.
  intros Hp Hr Hfl Hmax. unfold percentage.
  assert (H0 : (0 < regular)%Q) by lra.
  pose proof fl_0 as Hz. pose proof fl_1 as Hone. pose proof fl_100 as Hcent.
  pose proof MAX_VALUE_large as Hlarge.
  set (d := fl (regular - promo)).
  assert (Hd : (0 <= d)%Q ∧ (d <= regular)%Q).
  { split.
    - pose proof (fl_mono 0 (regular - promo) ltac:(lra)). unfold d. lra.
    - pose proof (fl_mono (regular - promo) regular ltac:(lra)). unfold d. lra. }
  set (q := fl (d / regular)).
  assert (Hlo : (0 <= d / regular)%Q) by (apply Qle_shift_div_l; lra).
  assert (Hhi : (d / regular <= 1)%Q) by (apply Qle_shift_div_r; lra).
  assert (Hq : (0 <= q)%Q ∧ (q <= 1)%Q).
  { split.
    - pose proof (fl_mono 0 (d / regular) Hlo). unfold q. lra.
    - pose proof (fl_mono (d / regular) 1 Hhi). unfold q. lra. }
  split; [split|split; [|split]].
  - pose proof (fl_mono 0 (q * 100) ltac:(lra)). lra.
  - pose proof (fl_mono (q * 100) 100 ltac:(lra)). lra.
  - apply (in_range_between _ 0 regular); lra.
  - apply (in_range_between _ 0 1); lra.
  - apply (in_range_between _ 0 100); lra.
Qed.

Lemma round_half_up_bounds (x : Q) (n : Z) :
  (0 <= x)%Q → (x <= 100)%Q → round_half_up x n → 0 ≤ n ≤ 100.
Proof.
  intros H0 H100 [Hlo Hhi].
  assert (H1 : (inject_Z (-1) < inject_Z n)%Q).
  { change (inject_Z (-1)) with (-1)%Q. lra. }
  assert (H2 : (inject_Z n < inject_Z 101)%Q).
  { change (inject_Z 101) with 101%Q. lra. }
  rewrite <- Zlt_Qlt in H1, H2. lia.
Qed.

(** [toFixed(2)] keeps the order of two prices, and tells apart two
    prices that differ by a hundredth or more. *)
Lemma toFixed2_nonneg (x : Q) :
  (0 <= x)%Q → toFixed2 x = Qfloor (x * 100 + (1 # 2))%Q.
Proof.
  intros H. unfold toFixed2.
  by apply Qltb_ge in H as ->.
Qed.

Lemma toFixed2_mono (x y : Q) :
  (0 <= x)%Q → (x <= y)%Q → toFixed2 x ≤ toFixed2 y.
Proof.
  intros Hx Hxy. rewrite !toFixed2_nonneg by lra.
  apply Qfloor_resp_le. lra.
Qed.

Lemma toFixed2_strict (x y : Q) :
  (0 <= x)%Q → (x + (1 # 100) <= y)%Q → toFixed2 x < toFixed2 y.
Proof.
  intros Hx Hxy. rewrite !toFixed2_nonneg by lra.
  pose proof (Qfloor_le (x * 100 + (1 # 2))) as Hlo.
  pose proof (Qlt_floor (y * 100 + (1 # 2))) as Hhi.
  rewrite inject_Z_plus in Hhi. change (inject_Z 1) with 1%Q in Hhi.
  assert (H : (inject_Z (Qfloor (x * 100 + (1 # 2))) < inject_Z (Qfloor (y * 100 + (1 # 2))))%Q)
    by lra.
  by rewrite <- Zlt_Qlt in H.
Qed.

(** ** The per-category callback *)

Lemma mapM_In {A B : Type} (f : A → option B) (l : list A) (k : list B) (y : B) :
  mapM f l = Some k → In y k → ∃ x, In x l ∧ f x = Some y.
Proof.
  rewrite mapM_Some. induction 1 as [|x y' l k Hxy _ IH]; cbn; [done|].
  intros [<-|Hin]; [eauto|].
  destruct (IH Hin) as (x' & ? & ?). eauto.
Qed.

Lemma category_products_origin (category : string) (r : Fetched) (d : Deal.t) :
  In d (category_products category r) →
  ∃ data p,
    r = Data (Some data) ∧ In p data ∧
    on_promotion p = true ∧ to_deal category p = Some d.
Proof.
  unfold category_products.
  destruct r as [| | |[data|]]; cbn; try done.
  destruct (mapM _ _) as [k|] eqn:Hk; cbn; [|done].
  intros Hin. destruct (mapM_In _ _ _ _ Hk Hin) as (p & Hp & Hd).
  apply filter_In in Hp as [Hp Hpromo]. eauto 10.
Qed.

Lemma filter_drop_one {A : Type} (f : A → bool) (before after : list A) (x : A) :
  f x = false → List.filter f (before ++ x :: after) = List.filter f (before ++ after).
Proof.
  intros Hx. rewrite !List.filter_app. cbn. by rewrite Hx.
Qed.

(** C5.  For a product that passes the promotion filter, the deal built
    from it carries [Math.round] of the percentage
    [(regular - promo) / regular * 100] as the three operations on
    doubles compute it from the prices parsed.  Whenever that
    percentage is finite, [pctOff] is the one integer [n] with
    [n - 1/2 <= percentage < n + 1/2] (halves rounded up); for two
    finite prices, a regular price other than zero and no overflow on
    the way, the percentage is the value of the three rounded
    operations.  A regular price of zero makes the quotient, and
    [pctOff], an infinity of the sign opposite to the sign of the zero;
    a regular price that is an infinity makes them [NaN]. *)
Theorem pctOff_rounds_percentage_half_up (category : string) (p : Product.t) (d : Deal.t) :
  on_promotion p = true →
  to_deal category p = Some d →
  ∃ regular promo,
    regular_of p = Some regular ∧ promo_of p = Some promo ∧ above_zero promo ∧
    Deal.pctOff d
    = Math_round (JS.mul (JS.div (JS.minus regular promo) regular) (Finite 100)) ∧
    (∀ x, JS.mul (JS.div (JS.minus regular promo) regular) (Finite 100) = Finite x →
       ∃ n, Deal.pctOff d = Fin n ∧ round_half_up x n ∧
            ∀ m, round_half_up x m → m = n) ∧
    (∀ r q, regular = Finite r → promo = Finite q → ¬ (r == 0)%Q →
       in_range (r - q) → in_range (fl (r - q) / r) →
       in_range (fl (fl (r - q) / r) * 100) →
       ∃ n, Deal.pctOff d = Fin n ∧ round_half_up (percentage r q) n ∧
            ∀ m, round_half_up (percentage r q) m → m = n) ∧
    (is_zero regular = true →
       Deal.pctOff d = if negative regular then PosInfinity else NegInfinity) ∧
    (regular = PosInf ∨ regular = NegInf → Deal.pctOff d = NaN).
Proof.
  intros Hpromo Hd.
  apply on_promotion_iff in Hpromo as (promo & Hp & Hpos).
  apply to_deal_inv in Hd as (regular & promo' & Hr & Hp' & Hpct & _).
  assert (promo' = promo) as -> by congruence.
  exists regular, promo. do 3 (split; [done|]).
  split; [exact Hpct|]. split; [|split; [|split]].
  - intros x Hx. rewrite Hpct. unfold percent_off. rewrite Hx.
    eexists. split; [reflexivity|]. split.
    + by apply Math_round_half_up.
    + intros m Hm. apply Math_round_half_up in Hm.
      cbn [Math_round] in Hm. congruence.
  - intros r q -> -> Hnz H1 H2 H3. rewrite Hpct, percent_off_finite by done.
    eexists. split; [reflexivity|]. split.
    + by apply Math_round_half_up.
    + intros m Hm. apply Math_round_half_up in Hm.
      cbn [Math_round] in Hm. congruence.
  - intros Hz. rewrite Hpct. apply percent_off_zero_regular; [done|done|].
    intros q ->. by apply promo_of_parsed in Hp as [? _].
  - intros Hinf. rewrite Hpct. by apply percent_off_infinite_regular.
Qed.

(** C6.  A product whose promotional price is absent (with or without
    price data) or not above zero contributes nothing to its category:
    the callback pushes, or throws, exactly as if the record were not in
    the answer, and every deal pushed comes from a record with a price
    above zero. *)
Theorem no_deal_without_positive_promo
    (category : string) (p : Product.t) (before after : list Product.t) :
  (∀ promo, promo_of p = Some promo → not_above_zero promo) →
  on_promotion p = false ∧
  category_try category (Data (Some (before ++ p :: after)))
  = category_try category (Data (Some (before ++ after))) ∧
  category_products category (Data (Some (before ++ p :: after)))
  = category_products category (Data (Some (before ++ after))) ∧
  ∀ d, In d (category_products category (Data (Some (before ++ p :: after)))) →
       ∃ p' promo, In p' (before ++ after) ∧ promo_of p' = Some promo ∧
                   above_zero promo ∧ to_deal category p' = Some d.
Proof.
  intros Hp.
  assert (Hoff : on_promotion p = false).
  { destruct (on_promotion p) eqn:E; [|done].
    apply on_promotion_iff in E as (promo & E & Hpos).
    specialize (Hp promo E). by apply not_above_zero_iff in Hp. }
  assert (Htry : category_try category (Data (Some (before ++ p :: after)))
                 = category_try category (Data (Some (before ++ after)))).
  { cbn. by rewrite filter_drop_one. }
  repeat split; try done.
  - unfold category_products. by rewrite Htry.
  - intros d Hd. unfold category_products in Hd. rewrite Htry in Hd.
    apply category_products_origin in Hd as (data & p' & [= <-] & Hin & Hon & Hd).
    apply on_promotion_iff in Hon as (promo & ? & ?). eauto 10.
Qed.

(** ** Chunks *)

Section Chunks.

Context {A : Type}.
Implicit Types (l : list A) (b fuel k : nat).

Lemma ceil_div_0 b : (0 < b)%nat → ceil_div 0 b = 0%nat.
Proof.
  intros Hb. unfold ceil_div. apply Nat.div_small. lia.
Qed.

Lemma ceil_div_step n b :
  (0 < b)%nat → (0 < n)%nat → ceil_div n b = S (ceil_div (n - b) b).
Proof.
  intros Hb Hn. unfold ceil_div.
  destruct (le_lt_dec b n) as [Hle|Hlt].
  - replace (n + b - 1)%nat with (1 * b + (n - b + b - 1))%nat by lia.
    rewrite Nat.div_add_l by lia. lia.
  - replace (n - b)%nat with 0%nat by lia.
    rewrite (Nat.div_small (0 + b - 1) b) by lia.
    symmetry. apply (Nat.div_unique _ _ 1 (n - 1))%nat; lia.
Qed.

Lemma chunks_upto_concat fuel b l :
  (0 < b)%nat → (length l ≤ fuel)%nat → concat (chunks_upto fuel b l) = l.
Proof.
  intros Hb. revert l.
  induction fuel as [|fuel IH]; intros [|x l] Hlen; cbn in *; try done; try lia.
  destruct b as [|b]; [lia|]. cbn.
  rewrite IH.
  - by rewrite take_drop.
  - rewrite length_drop. lia.
Qed.

Lemma chunks_upto_length fuel b l :
  (0 < b)%nat → (length l ≤ fuel)%nat →
  length (chunks_upto fuel b l) = ceil_div (length l) b.
Proof.
  intros Hb. revert l.
  induction fuel as [|fuel IH]; intros [|x l] Hlen; cbn [chunks_upto length] in *;
    try (by rewrite ceil_div_0); try lia.
  rewrite ceil_div_step by lia. f_equal.
  rewrite IH.
  - f_equal. rewrite length_drop. cbn. lia.
  - rewrite length_drop. cbn. lia.
Qed.

Lemma chunks_upto_lookup fuel b l k batch :
  (0 < b)%nat →
  chunks_upto fuel b l !! k = Some batch →
  batch = take b (drop (k * b) l) ∧ (0 < length batch ≤ b)%nat.
Proof.
  intros Hb. revert l k.
  induction fuel as [|fuel IH]; intros [|x l] k; cbn [chunks_upto]; try done.
  destruct k as [|k]; cbn [lookup list_lookup].
  - intros [= <-]. split; [done|].
    rewrite length_take. cbn [length]. lia.
  - intros Hk. apply IH in Hk as [-> Hlen]. split; [|done].
    rewrite drop_drop. reflexivity.
Qed.

Lemma chunks_concat b l : (0 < b)%nat → concat (chunks b l) = l.
Proof. intros. by apply chunks_upto_concat. Qed.

Lemma chunks_length b l : (0 < b)%nat → length (chunks b l) = ceil_div (length l) b.
Proof. intros. by apply chunks_upto_length. Qed.

Lemma chunks_lookup b l k batch :
  (0 < b)%nat → chunks b l !! k = Some batch →
  batch = take b (drop (k * b) l) ∧ (0 < length batch ≤ b)%nat.
Proof. intros. by eapply chunks_upto_lookup. Qed.

End Chunks.

(** ** The loop over the batches *)

Section FanOutFacts.

Variable catalog : string → Fetched.
Variable settled : nat → list string → list string.

Lemma after_rounds_nil b i st : after_rounds catalog settled b i [] st = st.
Proof.
  destruct st. unfold after_rounds. cbn. by rewrite !app_nil_r, Nat.add_0_r.
Qed.

Lemma after_rounds_cons b i batch cs st :
  after_rounds catalog settled b i (batch :: cs) st
  = after_rounds catalog settled b (i + b) cs (run_batch catalog settled i batch st).
Proof.
  unfold after_rounds, run_batch, round_trace. cbn.
  rewrite Nat.add_0_r, flat_map_app, <- !app_assoc.
  rewrite (imap_ext (_ ∘ S) (fun k batch0 => settled (i + b + k * b)%nat batch0) cs)
    by (intros; cbn; f_equal; lia).
  rewrite (imap_ext (_ ∘ S)
             (fun k batch0 => map Issue batch0 ++ map Settle (settled (i + b + k * b)%nat batch0)) cs)
    by (intros; cbn; do 3 f_equal; lia).
  f_equal. lia.
Qed.

Lemma for_batches_spec (fuel b : nat) (categories : list string) (i : nat) (st : Progress) :
  (0 < b)%nat → (length categories - i ≤ fuel)%nat →
  for_batches catalog settled fuel b categories i st
  = Some (after_rounds catalog settled b i (chunks_upto fuel b (drop i categories)) st).
Proof.
  intros Hb. revert i st.
  induction fuel as [|fuel IH]; intros i st Hfuel; cbn [for_batches].
  - replace (i <? length categories)%nat with false
      by (symmetry; apply Nat.ltb_ge; lia).
    cbn. by rewrite after_rounds_nil.
  - destruct (i <? length categories)%nat eqn:Hi.
    + apply Nat.ltb_lt in Hi.
      destruct (drop i categories) as [|x rest] eqn:Hdrop.
      { apply (f_equal length) in Hdrop. rewrite length_drop in Hdrop. cbn in Hdrop. lia. }
      cbn [chunks_upto]. rewrite after_rounds_cons.
      rewrite IH by lia.
      unfold slice. replace (i + b - i)%nat with b by lia.
      rewrite Hdrop. do 3 f_equal.
      by rewrite <- drop_drop, Hdrop.
    + apply Nat.ltb_ge in Hi. rewrite drop_ge by done.
      cbn. by rewrite after_rounds_nil.
Qed.

Lemma fan_out_spec (b : nat) (categories : list string) :
  (0 < b)%nat →
  fan_out catalog settled b categories
  = Some (after_rounds catalog settled b 0 (chunks b categories) start).
Proof.
  intros Hb. unfold fan_out. rewrite for_batches_spec by lia.
  by rewrite drop_0.
Qed.

(** The loop ends whatever fuel it gets beyond the length of the list,
    always in the same state. *)
Lemma for_batches_fuel (fuel b : nat) (categories : list string) :
  (0 < b)%nat → (length categories ≤ fuel)%nat →
  for_batches catalog settled fuel b categories 0 start
  = fan_out catalog settled b categories.
Proof.
  intros Hb Hfuel. unfold fan_out.
  rewrite !for_batches_spec by lia. rewrite drop_0.
  do 2 f_equal.
  transitivity (chunks_upto (length categories + (fuel - length categories)) b categories);
    [f_equal; lia|].
  generalize (fuel - length categories)%nat as extra. intros extra.
  clear Hfuel.
  assert (Hgen : ∀ n (l : list string), (length l ≤ n)%nat →
            chunks_upto (n + extra) b l = chunks_upto n b l).
  { induction n as [|n IHn]; intros [|x l] Hlen; cbn [chunks_upto length Nat.add] in *;
      try done; try lia.
    - by destruct extra.
    - f_equal. apply IHn. rewrite length_drop. cbn. lia. }
  by apply Hgen.
Qed.

End FanOutFacts.

(** ** Traces *)

Section Traces.

Variable settled : nat → list string → list string.
Hypothesis settled_perm : ∀ i batch, Permutation (settled i batch) batch.

Lemma issued_app (t u : list Event) : issued (t ++ u) = issued t ++ issued u.
Proof. apply omap_app. Qed.

Lemma settles_app (t u : list Event) : settles (t ++ u) = settles t ++ settles u.
Proof. apply omap_app. Qed.

Lemma issued_round (i : nat) (batch : list string) :
  issued (round_trace settled i batch) = batch.
Proof.
  unfold round_trace. rewrite issued_app.
  assert (H1 : ∀ l, issued (map Issue l) = l).
  { induction l as [|x l IH]; cbn; [done|]. f_equal. exact IH. }
  assert (H2 : ∀ l, issued (map Settle l) = []).
  { induction l as [|x l IH]; cbn; done. }
  by rewrite H1, H2, app_nil_r.
Qed.

Lemma settles_round (i : nat) (batch : list string) :
  settles (round_trace settled i batch) = settled i batch.
Proof.
  unfold round_trace. rewrite settles_app.
  assert (H1 : ∀ l, settles (map Issue l) = []).
  { induction l as [|x l IH]; cbn; done. }
  assert (H2 : ∀ l, settles (map Settle l) = l).
  { induction l as [|x l IH]; cbn; [done|]. f_equal. exact IH. }
  by rewrite H1, H2.
Qed.

Lemma issued_rounds (cs : list (list string)) (g : nat → nat) :
  issued (concat (imap (fun k batch => round_trace settled (g k) batch) cs)) = concat cs.
Proof.
  revert g. induction cs as [|batch cs IH]; intros g; cbn; [done|].
  rewrite issued_app, issued_round. f_equal. apply (IH (g ∘ S)).
Qed.

Lemma settles_rounds (cs : list (list string)) (g : nat → nat) :
  Permutation
    (settles (concat (imap (fun k batch => round_trace settled (g k) batch) cs)))
    (concat cs).
Proof.
  revert g. induction cs as [|batch cs IH]; intros g; cbn; [done|].
  rewrite settles_app, settles_round.
  apply Permutation_app; [apply settled_perm | apply (IH (g ∘ S))].
Qed.

Lemma rounds_quiescent (cs : list (list string)) (g : nat → nat) :
  quiescent (concat (imap (fun k batch => round_trace settled (g k) batch) cs)).
Proof.
  unfold quiescent. rewrite issued_rounds. symmetry. apply settles_rounds.
Qed.

End Traces.

Lemma chunks_upto_take {A : Type} (fuel b k : nat) (l : list A) :
  (0 < b)%nat → (length l ≤ fuel)%nat →
  concat (take k (chunks_upto fuel b l)) = take (k * b) l.
Proof.
  intros Hb. revert k l.
  induction fuel as [|fuel IH]; intros k [|x l] Hlen; cbn [chunks_upto length] in *;
    try lia; try (by rewrite !take_nil).
  destruct k as [|k]; [done|].
  cbn [take concat]. rewrite IH.
  - by rewrite take_take_drop.
  - rewrite length_drop. cbn. lia.
Qed.

(** C7.  With a batch size of at least one, the loop ends; it cuts the
    list into consecutive chunks of [b] categories (the last one
    possibly shorter, none empty), runs one round per chunk, that is
    [ceil (n / b)] rounds, and a round issues the requests of its chunk
    only once every request issued before has settled. *)
Theorem fan_out_runs_chunks_in_sequence
    (catalog : string → Fetched) (settled : nat → list string → list string)
    (b : nat) (categories : list string) :
  (0 < b)%nat →
  (∀ i batch, Permutation (settled i batch) batch) →
  ∃ st,
    fan_out catalog settled b categories = Some st ∧
    concat (chunks b categories) = categories ∧
    length (chunks b categories) = ceil_div (length categories) b ∧
    rounds st = ceil_div (length categories) b ∧
    trace st
    = concat (imap (fun k batch => round_trace settled (k * b) batch) (chunks b categories)) ∧
    ∀ k batch,
      chunks b categories !! k = Some batch →
      batch = take b (drop (k * b) categories) ∧
      (0 < length batch ≤ b)%nat ∧
      ∃ before after,
        trace st = before ++ round_trace settled (k * b) batch ++ after ∧
        issued before = take (k * b) categories ∧
        quiescent before.
Proof.
  intros Hb Hperm. eexists. split; [by apply fan_out_spec|].
  split; [by apply chunks_concat|].
  split; [by apply chunks_length|].
  split; [cbn; by apply chunks_length|].
  split; [done|].
  intros k batch Hk.
  destruct (chunks_lookup _ _ _ _ Hb Hk) as [Hbatch Hlen].
  do 2 (split; [done|]).
  cbn [trace after_rounds start app].
  pose proof (take_drop_middle _ _ _ Hk) as Hsplit.
  set (f := fun (k0 : nat) (batch0 : list string) => round_trace settled (0 + k0 * b) batch0).
  exists (concat (imap f (take k (chunks b categories)))),
         (concat (imap (fun n => f (S (length (take k (chunks b categories)) + n)))
                    (drop (S k) (chunks b categories)))).
  assert (Hk' : length (take k (chunks b categories)) = k).
  { apply length_take_le. apply lookup_lt_Some in Hk. lia. }
  split; [|split].
  - rewrite <- Hsplit at 1. rewrite imap_app, concat_app. cbn [imap concat].
    unfold f at 2. rewrite Nat.add_0_r, Hk'. cbn [Nat.add].
    do 3 f_equal. apply imap_ext. intros n x _. cbn. unfold f. f_equal. lia.
  - unfold f. rewrite issued_rounds.
    by apply chunks_upto_take.
  - unfold f. by apply rounds_quiescent.
Qed.

(** ** Failing categories *)



Lemma fan_out_products
    (catalog : string → Fetched) (settled : nat → list string → list string)
    (b : nat) (categories : list string) (st : Progress) :
  (0 < b)%nat →
  fan_out catalog settled b categories = Some st →
  allProducts st
  = List.flat_map (fun c => category_products c (catalog c)) (settle_order settled b categories).
Proof.
  intros Hb. rewrite fan_out_spec by done. by intros [= <-].
Qed.


(** ** The sort *)

Section Sort.

Context {A : Type} (comparefn : A → A → number Z).

Lemma sort_insert_perm (x : A) (l : list A) :
  Permutation (sort_insert comparefn x l) (x :: l).
Proof.
  induction l as [|y l IH]; cbn; [done|].
  destruct (gt_zero (comparefn x y)); [|done].
  rewrite IH. apply perm_swap.
Qed.

Lemma sort_perm (l : list A) : Permutation (JS.sort comparefn l) l.
Proof.
  induction l as [|x l IH]; cbn; [done|].
  rewrite sort_insert_perm. by apply perm_skip.
Qed.

(** Stability: elements that the comparator never orders strictly among
    themselves keep their order. *)
Lemma sort_insert_filter (keep : A → bool) (x : A) (l : list A) :
  (∀ y, keep x = true → keep y = true → gt_zero (comparefn x y) = false) →
  List.filter keep (sort_insert comparefn x l) = List.filter keep (x :: l).
Proof.
  intros Htie. induction l as [|y l IH]; [done|].
  cbn [sort_insert]. destruct (gt_zero (comparefn x y)) eqn:Hgt; [|done].
  cbn [List.filter] in *. rewrite IH.
  destruct (keep x) eqn:Hx; [|done].
  destruct (keep y) eqn:Hy; [|done].
  rewrite (Htie y eq_refl Hy) in Hgt. discriminate.
Qed.

Lemma sort_filter (keep : A → bool) (l : list A) :
  (∀ x y, keep x = true → keep y = true → gt_zero (comparefn x y) = false) →
  List.filter keep (JS.sort comparefn l) = List.filter keep l.
Proof.
  intros Htie. induction l as [|x l IH]; [done|].
  cbn [JS.sort foldr]. rewrite sort_insert_filter by (intros; by apply Htie).
  cbn [List.filter]. fold (JS.sort comparefn l). by rewrite IH.
Qed.

(** Order: on elements that the comparator compares consistently with a
    transitive relation, the result is sorted. *)
Variable before : A → A → Prop.
Variable comparable : A → Prop.
Hypothesis before_trans : ∀ x y z, before x y → before y z → before x z.
Hypothesis not_after : ∀ x y,
  comparable x → comparable y → gt_zero (comparefn x y) = false → before x y.
Hypothesis after : ∀ x y,
  comparable x → comparable y → gt_zero (comparefn x y) = true → before y x.

Lemma sort_insert_sorted (x : A) (l : list A) :
  comparable x → Forall comparable l →
  StronglySorted before l → StronglySorted before (sort_insert comparefn x l).
Proof.
  intros Hx Hl Hs. induction Hs as [|y l Hs IH Hy]; cbn.
  - constructor; [constructor | constructor].
  - apply Forall_cons in Hl as [Hcy Hl].
    destruct (gt_zero (comparefn x y)) eqn:Hgt.
    + constructor; [by apply IH|].
      rewrite sort_insert_perm. constructor; [by apply after | done].
    + assert (Hxy : before x y) by (by apply not_after).
      constructor; [by constructor|].
      constructor; [done|].
      eapply Forall_impl; [exact Hy|]. intros z Hz. by eapply before_trans.
Qed.

Lemma sort_sorted (l : list A) :
  Forall comparable l → StronglySorted before (JS.sort comparefn l).
Proof.
  induction l as [|x l IH]; intros Hl; cbn; [constructor|].
  apply Forall_cons in Hl as [Hx Hl].
  apply sort_insert_sorted; [done | | by apply IH].
  fold (JS.sort comparefn l). by rewrite sort_perm.
Qed.

End Sort.

(** ** The comparator of the deals *)

Lemma ranked_before_trans (x y z : Deal.t) :
  ranked_before x y → ranked_before y z → ranked_before x z.
Proof.
  unfold ranked_before, pct_le.
  destruct (Deal.pctOff x), (Deal.pctOff y), (Deal.pctOff z); try done. lia.
Qed.

Lemma by_pctOff_not_after (x y : Deal.t) :
  rankable x → rankable y → gt_zero (by_pctOff x y) = false → ranked_before x y.
Proof.
  unfold rankable, ranked_before, by_pctOff, pct_le.
  destruct (Deal.pctOff x), (Deal.pctOff y); cbn; try done.
  intros _ _ H. apply Z.ltb_ge in H. lia.
Qed.

Lemma by_pctOff_after (x y : Deal.t) :
  rankable x → rankable y → gt_zero (by_pctOff x y) = true → ranked_before y x.
Proof.
  unfold rankable, ranked_before, by_pctOff, pct_le.
  destruct (Deal.pctOff x), (Deal.pctOff y); cbn; try done.
  intros _ _ H. apply Z.ltb_lt in H. lia.
Qed.

Lemma by_pctOff_tie (v : number Z) (x y : Deal.t) :
  Deal.pctOff x = v → Deal.pctOff y = v → gt_zero (by_pctOff x y) = false.
Proof.
  unfold by_pctOff. intros -> ->. destruct v; cbn; try done.
  apply Z.ltb_ge. lia.
Qed.

(** ** De-duplication *)

Lemma unique_by_id_elem (seen : gset string) (l : list Deal.t) (d : Deal.t) :
  d ∈ unique_by_id seen l → d ∈ l ∧ Deal.id d ∉ seen.
Proof.
  revert seen. induction l as [|p l IH]; intros seen; cbn; [by intros ?%elem_of_nil|].
  destruct (decide (Deal.id p ∈ seen)) as [Hp|Hp].
  - intros [? ?]%IH. split; [by right | done].
  - intros [->|[? ?]%IH]%elem_of_cons.
    + split; [by left | done].
    + split; [by right | set_solver].
Qed.

Lemma unique_by_id_sublist (seen : gset string) (l : list Deal.t) :
  unique_by_id seen l `sublist_of` l.
Proof.
  revert seen. induction l as [|p l IH]; intros seen; cbn; [done|].
  destruct (decide (Deal.id p ∈ seen)).
  - by apply sublist_cons.
  - by apply sublist_skip.
Qed.

Lemma unique_by_id_NoDup (seen : gset string) (l : list Deal.t) :
  NoDup (Deal.id <$> unique_by_id seen l).
Proof.
  revert seen. induction l as [|p l IH]; intros seen; cbn; [constructor|].
  destruct (decide (Deal.id p ∈ seen)) as [Hp|Hp]; [done|].
  cbn. constructor; [|done].
  intros (d & Hid & Hd%unique_by_id_elem)%list_elem_of_fmap.
  set_solver.
Qed.

(** An entry kept is the first record of its identifier. *)
Lemma unique_by_id_first (seen : gset string) (l : list Deal.t) (d : Deal.t) :
  d ∈ unique_by_id seen l →
  ∃ l1 l2, l = l1 ++ d :: l2 ∧ Deal.id d ∉ (Deal.id <$> l1).
Proof.
  revert seen. induction l as [|p l IH]; intros seen; cbn; [by intros ?%elem_of_nil|].
  destruct (decide (Deal.id p ∈ seen)) as [Hp|Hp].
  - intros Hd. pose proof (unique_by_id_elem _ _ _ Hd) as [_ Hseen].
    destruct (IH _ Hd) as (l1 & l2 & -> & Hfresh).
    exists (p :: l1), l2. split; [done|].
    cbn. rewrite not_elem_of_cons. split; [congruence | done].
  - intros [->|Hd]%elem_of_cons.
    + exists [], l. split; [done|]. cbn. by intros ?%elem_of_nil.
    + pose proof (unique_by_id_elem _ _ _ Hd) as [_ Hseen].
      destruct (IH _ Hd) as (l1 & l2 & -> & Hfresh).
      exists (p :: l1), l2. split; [done|].
      cbn. rewrite not_elem_of_cons. split; [set_solver | done].
Qed.

(** Every identifier that is not yet seen keeps an entry. *)
Lemma unique_by_id_complete (seen : gset string) (l : list Deal.t) (d : Deal.t) :
  d ∈ l → Deal.id d ∉ seen →
  ∃ d', d' ∈ unique_by_id seen l ∧ Deal.id d' = Deal.id d.
Proof.
  revert seen. induction l as [|p l IH]; intros seen; cbn; [by intros ?%elem_of_nil|].
  intros Hd Hseen. destruct (decide (Deal.id p ∈ seen)) as [Hp|Hp].
  - apply elem_of_cons in Hd as [->|Hd]; [done|]. by apply IH.
  - destruct (decide (Deal.id d = Deal.id p)) as [Heq|Hne].
    + exists p. split; [by left | done].
    + apply elem_of_cons in Hd as [->|Hd]; [done|].
      destruct (IH ({[Deal.id p]} ∪ seen) Hd) as (d' & ? & ?); [set_solver|].
      exists d'. split; [by right | done].
Qed.

(** The number of entries kept is the number of identifiers not yet
    seen. *)
Lemma unique_by_id_length (seen : gset string) (l : list Deal.t) :
  length (unique_by_id seen l) = size (list_to_set (Deal.id <$> l) ∖ seen : gset string).
Proof.
  revert seen. induction l as [|p l IH]; intros seen; cbn [unique_by_id].
  - cbn. replace (∅ ∖ seen) with (∅ : gset string) by set_solver. done.
  - rewrite fmap_cons. cbn [list_to_set foldr].
    destruct (decide (Deal.id p ∈ seen)) as [Hp|Hp].
    + rewrite IH. f_equal. set_solver.
    + cbn [length]. rewrite IH.
      replace (({[Deal.id p]} ∪ list_to_set (Deal.id <$> l)) ∖ seen)
        with ({[Deal.id p]} ∪ list_to_set (Deal.id <$> l) ∖ ({[Deal.id p]} ∪ seen) : gset string).
      * rewrite (size_union (C:=gset string) {[Deal.id p]}) by set_solver.
        by rewrite size_singleton.
      * apply set_eq. intros x. destruct (decide (x = Deal.id p)); set_solver.
Qed.

Lemma with_id_unique (l : list Deal.t) (d : Deal.t) :
  NoDup (Deal.id <$> l) → d ∈ l → with_id (Deal.id d) l = [d].
Proof.
  unfold with_id. induction l as [|p l IH]; cbn; [by intros _ ?%elem_of_nil|].
  intros [Hp Hl]%NoDup_cons [->|Hd]%elem_of_cons.
  - rewrite String.eqb_refl. f_equal.
    clear IH Hl. induction l as [|q l IH]; [done|]. cbn.
    apply not_elem_of_cons in Hp as [Hq Hp].
    destruct (String.eqb_spec (Deal.id q) (Deal.id p)); [congruence | by apply IH].
  - destruct (String.eqb_spec (Deal.id p) (Deal.id d)) as [Heq|_]; [|by apply IH].
    exfalso. apply Hp. rewrite Heq. by apply list_elem_of_fmap_2.
Qed.

Lemma with_id_absent (l : list Deal.t) (x : string) :
  x ∉ (Deal.id <$> l) → with_id x l = [].
Proof.
  unfold with_id. induction l as [|p l IH]; cbn; [done|].
  intros [Hp Hl]%not_elem_of_cons.
  destruct (String.eqb_spec (Deal.id p) x); [congruence | by apply IH].
Qed.

Lemma slice_0 {A : Type} (n : nat) (l : list A) : slice 0 n l = take n l.
Proof. unfold slice. by rewrite Nat.sub_0_r, drop_0. Qed.

Lemma aggregate_unfold (l : list Deal.t) :
  aggregate l = take cap (JS.sort by_pctOff (unique_by_id ∅ l)).
Proof. apply slice_0. Qed.

Lemma map_fmap {A B : Type} (f : A → B) (l : list A) : map f l = f <$> l.
Proof. induction l as [|x l IH]; cbn; [done|]. by rewrite IH. Qed.

Lemma aggregate_elem (l : list Deal.t) (d : Deal.t) :
  d ∈ aggregate l → d ∈ unique_by_id ∅ l.
Proof.
  rewrite aggregate_unfold. intros Hd.
  apply (subseteq_take cap) in Hd.
  by rewrite sort_perm in Hd.
Qed.

(** C3, as the code has it.  No two entries of the ranked list share an
    identifier, and every entry is the first record of its identifier
    in the sequence of mapped deals.  When the sequence holds at most
    200 identifiers, each of them has exactly one entry; beyond that the
    cap may leave an identifier without any. *)
Theorem aggregate_one_entry_per_id (l : list Deal.t) :
  List.NoDup (map Deal.id (aggregate l)) ∧
  (∀ d, In d (aggregate l) →
        ∃ l1 l2, l = l1 ++ d :: l2 ∧ ¬ In (Deal.id d) (map Deal.id l1)) ∧
  ((size (list_to_set (map Deal.id l) : gset string) ≤ cap)%nat →
   ∀ d, In d l → ∃ d', with_id (Deal.id d) (aggregate l) = [d']).
Proof.
  assert (Hnodup : NoDup (Deal.id <$> JS.sort by_pctOff (unique_by_id ∅ l))).
  { rewrite sort_perm. apply unique_by_id_NoDup. }
  split; [|split].
  - apply NoDup_ListNoDup. rewrite map_fmap, aggregate_unfold, fmap_take.
    eapply sublist_NoDup; [exact Hnodup|]. apply sublist_take.
  - intros d Hd%list_elem_of_In%aggregate_elem.
    destruct (unique_by_id_first _ _ _ Hd) as (l1 & l2 & -> & Hfresh).
    exists l1, l2. split; [done|].
    by rewrite map_fmap, <- list_elem_of_In.
  - intros Hsize d Hd%list_elem_of_In.
    rewrite map_fmap in Hsize.
    assert (Hlen : (length (JS.sort by_pctOff (unique_by_id ∅ l)) ≤ cap)%nat).
    { rewrite sort_perm, unique_by_id_length.
      by replace (list_to_set (Deal.id <$> l) ∖ ∅)
        with (list_to_set (Deal.id <$> l) : gset string) by set_solver. }
    rewrite aggregate_unfold, take_ge by done.
    destruct (unique_by_id_complete ∅ l d Hd) as (d' & Hd' & <-); [set_solver|].
    exists d'. apply with_id_unique; [done|]. by rewrite sort_perm.
Qed.

(** ** The handler of [/api/deals] *)

Lemma get_deals_200
    (answer : TokenAnswer) (products : string → string → string → Fetched)
    (settled : nat → list string → list string) (b : nat) (categories : list string)
    (locationId : option string) (deals : list Deal.t) :
  get_deals answer products settled b categories locationId = Some (Status200 deals) →
  ∃ location token st,
    locationId = Some location ∧ getAppToken answer = inl token ∧
    fan_out (products location token) settled b categories = Some st ∧
    deals = aggregate (allProducts st).
Proof.
  unfold get_deals. destruct locationId as [location|]; [|done].
  destruct (String.eqb location ""); [done|].
  destruct (getAppToken answer) as [token|message]; [|done].
  destruct (fan_out _ _ _ _) as [st|] eqn:Hst; cbn; [|done].
  intros [= <-]. eauto 10.
Qed.

Lemma settle_order_perm (settled : nat → list string → list string)
    (b : nat) (categories : list string) :
  (0 < b)%nat →
  (∀ i batch, Permutation (settled i batch) batch) →
  Permutation (settle_order settled b categories) categories.
Proof.
  intros Hb Hperm. unfold settle_order.
  rewrite <- (chunks_concat b categories Hb) at 2.
  assert (Hgen : ∀ (cs : list (list string)) (g : nat → nat),
            Permutation (concat (imap (fun k batch => settled (g k) batch) cs)) (concat cs)).
  { induction cs as [|batch cs IH]; intros g; cbn; [done|].
    apply Permutation_app; [apply Hperm | apply (IH (g ∘ S))]. }
  apply (Hgen _ (fun k => (k * b)%nat)).
Qed.

(** Where a product of the fan-out comes from. *)
Lemma fan_out_origin
    (catalog : string → Fetched) (settled : nat → list string → list string)
    (b : nat) (categories : list string) (st : Progress) (d : Deal.t) :
  (0 < b)%nat →
  fan_out catalog settled b categories = Some st →
  In d (allProducts st) →
  ∃ category data p,
    In category (settle_order settled b categories) ∧
    catalog category = Data (Some data) ∧ In p data ∧
    on_promotion p = true ∧ to_deal category p = Some d.
Proof.
  intros Hb Hst Hd. rewrite (fan_out_products _ _ _ _ _ Hb Hst) in Hd.
  apply in_flat_map in Hd as (category & Hc & Hd).
  apply category_products_origin in Hd as (data & p & ? & ? & ? & ?).
  eauto 10.
Qed.

Lemma fan_out_rankable
    (catalog : string → Fetched) (settled : nat → list string → list string)
    (b : nat) (categories : list string) (st : Progress) :
  (0 < b)%nat →
  (∀ category data p, catalog category = Data (Some data) → In p data → finite_regular p) →
  fan_out catalog settled b categories = Some st →
  Forall rankable (allProducts st).
Proof.
  intros Hb Hfinite Hst. apply Forall_forall. intros d Hd%list_elem_of_In.
  destruct (fan_out_origin _ _ _ _ _ _ Hb Hst Hd)
    as (category & data & p & _ & Hdata & Hin & Hon & Hdeal).
  apply on_promotion_iff in Hon as (promo & Hp & Hpos).
  apply to_deal_inv in Hdeal as (regular & promo' & Hr & Hp' & Hpct & _).
  assert (promo' = promo) as -> by congruence.
  unfold rankable. rewrite Hpct.
  apply percent_off_ranked; [by apply (Hfinite category data p) | done |].
  intros q ->. by apply promo_of_parsed in Hp as [? _].
Qed.

Lemma filter_take_prefix {A : Type} (keep : A → bool) (n : nat) (l : list A) :
  List.filter keep (take n l) `prefix_of` List.filter keep l.
Proof.
  rewrite <- (take_drop n l) at 2. rewrite List.filter_app.
  by apply prefix_app_r.
Qed.

(** C2, as the code has it.  A 200 answer holds at most 200 deals.
    When every regular price that the catalog returned is finite, no
    percentage is [NaN]: the deals are ranked by falling percentage,
    and the deals that carry the same percentage stand in the order
    they have in the de-duplicated sequence of products, which is the
    order in which the fan-out pushed them (the cap may cut their
    tail).  A regular price that overflows makes a percentage [NaN],
    for which the comparator returns [NaN]: the comparator is then not
    consistent and the order is left to the engine. *)
Theorem deals_ranked_stably_and_capped
    (answer : TokenAnswer) (products : string → string → string → Fetched)
    (settled : nat → list string → list string)
    (locationId : option string) (deals : list Deal.t) :
  api_deals answer products settled locationId = Some (Status200 deals) →
  ∃ location token st,
    locationId = Some location ∧ getAppToken answer = inl token ∧
    fan_out (products location token) settled 8 DEAL_CATEGORIES = Some st ∧
    unique_by_id ∅ (allProducts st) `sublist_of` allProducts st ∧
    (length deals ≤ 200)%nat ∧
    ((∀ category data p,
        products location token category = Data (Some data) → In p data →
        finite_regular p) →
     Forall rankable deals ∧
     StronglySorted ranked_before deals ∧
     ∀ v, with_pct v deals `prefix_of` with_pct v (unique_by_id ∅ (allProducts st))).
Proof.
  intros (location & token & st & -> & Htoken & Hst & ->)%get_deals_200.
  exists location, token, st. do 3 (split; [done|]).
  rewrite aggregate_unfold.
  split; [apply unique_by_id_sublist|].
  split; [rewrite length_take; unfold cap; lia|].
  intros Hfinite.
  assert (Hrank : Forall rankable (unique_by_id ∅ (allProducts st))).
  { assert (H8 : (0 < 8)%nat) by lia.
    pose proof (fan_out_rankable _ _ _ _ _ H8 Hfinite Hst) as Hall.
    rewrite Forall_forall in Hall. apply Forall_forall.
    intros d [Hd _]%unique_by_id_elem. by apply Hall. }
  split; [|split].
  - apply Forall_take.
    pose proof (sort_perm by_pctOff (unique_by_id ∅ (allProducts st))) as Hperm.
    eapply Permutation_Forall; [symmetry; exact Hperm | exact Hrank].
  - eapply StronglySorted_app_1_l. rewrite take_drop.
    apply (sort_sorted by_pctOff ranked_before rankable);
      [apply ranked_before_trans | apply by_pctOff_not_after | apply by_pctOff_after | done].
  - intros v. unfold with_pct.
    rewrite <- (sort_filter by_pctOff _ (unique_by_id ∅ (allProducts st))).
    + apply filter_take_prefix.
    + intros x y Hx%bool_decide_eq_true Hy%bool_decide_eq_true.
      by apply (by_pctOff_tie v).
Qed.

(** Two members of a sorted list are related one way or the other. *)
Lemma StronglySorted_related {A : Type} (R : A → A → Prop) (l : list A) (x y : A) :
  StronglySorted R l → In x l → In y l → x = y ∨ R x y ∨ R y x.
Proof.
  induction 1 as [|a l Hsorted IH Hall]; [done|].
  rewrite Forall_forall in Hall.
  intros [->|Hx] [->|Hy]; [by left | | | by apply IH].
  - right. left. by apply Hall, list_elem_of_In.
  - right. right. by apply Hall, list_elem_of_In.
Qed.

Lemma toFixed_small (x : Q) :
  (0 <= x)%Q → (x < inject_Z (10 ^ 21))%Q → toFixed (Finite x) = Hundredths (toFixed2 x).
Proof.
  intros H0 Hx. unfold toFixed.
  assert (Qle_bool (inject_Z (10 ^ 21)) (Qabs x) = false) as ->; [|done].
  destruct (Qle_bool _ _) eqn:E; [|done].
  apply Qle_bool_iff in E. rewrite Qabs_pos in E by done. lra.
Qed.

(** C1, as the code has it.  Every deal of a 200 answer is built from a
    product that the catalog returned for one of the categories, with a
    promotional price above zero: that is all the filter asks.  When
    the two prices parsed are finite and the promotional price is below
    the regular price, the percentage lies between 0 and 100; when the
    regular price is moreover below [1e21], both prices are printed
    with two digits and the sale price printed is not above the regular
    price printed; it is strictly below when the two doubles differ by
    a hundredth or more. *)
Theorem deal_bounds_when_promo_below_regular
    (answer : TokenAnswer) (products : string → string → string → Fetched)
    (settled : nat → list string → list string)
    (locationId : option string) (deals : list Deal.t) (d : Deal.t) :
  (∀ i batch, Permutation (settled i batch) batch) →
  api_deals answer products settled locationId = Some (Status200 deals) →
  In d deals →
  ∃ location token category data p regular promo,
    locationId = Some location ∧ getAppToken answer = inl token ∧
    In category DEAL_CATEGORIES ∧
    products location token category = Data (Some data) ∧ In p data ∧
    to_deal category p = Some d ∧
    regular_of p = Some regular ∧ promo_of p = Some promo ∧ above_zero promo ∧
    (∀ r q, regular = Finite r → promo = Finite q → (q < r)%Q →
       ∃ n, Deal.pctOff d = Fin n ∧ 0 ≤ n ≤ 100 ∧
         ((r < inject_Z (10 ^ 21))%Q →
          ∃ sale list_price,
            Deal.salePrice d = Hundredths sale ∧
            Deal.regularPrice d = Hundredths list_price ∧
            sale ≤ list_price ∧
            ((q + (1 # 100) <= r)%Q → sale < list_price))).
Proof.
  intros Hperm (location & token & st & -> & Htoken & Hst & ->)%get_deals_200 Hd.
  assert (H8 : (0 < 8)%nat) by lia.
  apply list_elem_of_In, aggregate_elem, unique_by_id_elem in Hd as [Hd%list_elem_of_In _].
  destruct (fan_out_origin _ _ _ _ _ _ H8 Hst Hd)
    as (category & data & p & Hc & Hdata & Hp & Hon & Hdeal).
  apply on_promotion_iff in Hon as (promo & Hpromo & Hpos).
  destruct (to_deal_inv _ _ _ Hdeal)
    as (regular & promo' & Hregular & Hpromo' & Hpct & Hrp & Hsp & _).
  assert (promo' = promo) as -> by congruence.
  exists location, token, category, data, p, regular, promo.
  do 2 (split; [done|]).
  split.
  { eapply Permutation_in; [|exact Hc]. by apply settle_order_perm. }
  do 6 (split; [done|]).
  intros r q -> -> Hlt. cbn in Hpos.
  assert (Hnz : ¬ (r == 0)%Q) by lra.
  destruct (regular_of_parsed _ _ Hregular) as (Hfl & _ & Hmax).
  destruct (percentage_bounds r q Hpos Hlt Hfl Hmax) as ([Hlo Hhi] & H1 & H2 & H3).
  exists (Qfloor (percentage r q + (1 # 2))%Q).
  split; [by rewrite Hpct, percent_off_finite|].
  split.
  { eapply round_half_up_bounds; [done | done |]. by apply Math_round_half_up. }
  intros Hsmall.
  exists (toFixed2 q), (toFixed2 r).
  rewrite Hrp, Hsp. rewrite !toFixed_small by lra.
  do 2 (split; [done|]). split.
  - apply toFixed2_mono; lra.
  - intros Hcent. apply toFixed2_strict; lra.
Qed.

(** ** Strings *)

Lemma prefix_app_iff (t s : string) :
  String.prefix t s = true ↔ ∃ after : string, s = (t ++ after)%string.
Proof.
  revert s. induction t as [|a t IH]; intros s; cbn.
  - split; [eauto | by destruct s].
  - destruct s as [|b s]; cbn.
    + split; [done | by intros [? ?]].
    + destruct (ascii_dec a b) as [->|Hab].
      * rewrite IH. split; intros [after H]; exists after.
        -- by rewrite H.
        -- cbn in H. by injection H.
      * split; [done|]. intros [after H]. cbn in H. injection H as ? _. done.
Qed.

Lemma includes_unfold (s t : string) :
  includes s t =
  String.prefix t s || match s with EmptyString => false | String _ s' => includes s' t end.
Proof. by destruct s. Qed.

Lemma includes_spec (s t : string) : includes s t = true ↔ substring_of t s.
Proof.
  unfold substring_of. split.
  - induction s as [|c s IH]; rewrite includes_unfold, orb_true_iff;
      (intros [[after ->]%prefix_app_iff|H]; [by exists EmptyString, after|]); [done|].
    destruct (IH H) as (before & after & ->).
    by exists (String c before), after.
  - intros (before & after & ->).
    induction before as [|c before IH]; rewrite includes_unfold, orb_true_iff.
    + left. apply prefix_app_iff. eauto.
    + right. exact IH.
Qed.

Lemma first_token_prefix (s : string) : String.prefix (first_token s) s = true.
Proof.
  induction s as [|c s IH]; cbn; [done|].
  destruct (Ascii.eqb c " "); cbn; [done|].
  by destruct (ascii_dec c c).
Qed.

Lemma includes_first_token (s : string) : includes s (first_token s) = true.
Proof. by rewrite includes_unfold, first_token_prefix. Qed.

(** ** Recipes *)

Lemma last_with_token_cons (ing : SaleItem.t) (l : list SaleItem.t) (key : string) :
  last_with_token (ing :: l) key =
  match last_with_token l key with
  | Some deal => Some deal
  | None => if String.eqb (token_of (SaleItem.name ing)) key then Some ing else None
  end.
Proof.
  unfold last_with_token. cbn [List.filter].
  destruct (String.eqb (token_of (SaleItem.name ing)) key); [|by destruct (last _)].
  by rewrite last_cons.
Qed.

Lemma last_with_token_in (l : list SaleItem.t) (key : string) (deal : SaleItem.t) :
  last_with_token l key = Some deal →
  In deal l ∧ token_of (SaleItem.name deal) = key.
Proof.
  induction l as [|ing l IH]; [done|].
  rewrite last_with_token_cons.
  destruct (last_with_token l key) as [d|].
  - intros [= ->]. destruct IH as [? ?]; [done|]. split; [by right | done].
  - destruct (String.eqb_spec (token_of (SaleItem.name ing)) key) as [Heq|]; [|done].
    intros [= ->]. split; [by left | done].
Qed.

(** The lookup that the loop over the sale items builds from [acc]. *)
Lemma ingredientLookup_from (l : list SaleItem.t) (acc : Lookup) :
  prototype (foldl add_ingredient acc l)
  = match last_with_token l "__proto__" with
    | Some ing => Some ing
    | None => prototype acc
    end ∧
  ∀ key : string,
    own (foldl add_ingredient acc l) !! key
    = if String.eqb key "__proto__" then own acc !! key
      else match last_with_token l key with
           | Some deal => Some deal
           | None => own acc !! key
           end.
Proof.
  revert acc. induction l as [|ing l IH]; intros acc.
  - split; [done|]. intros key. by destruct (String.eqb key "__proto__").
  - cbn [foldl]. destruct (IH (add_ingredient acc ing)) as [Hproto Hown].
    rewrite Hproto. split.
    + rewrite last_with_token_cons.
      destruct (last_with_token l "__proto__"); [done|].
      unfold add_ingredient. by destruct (String.eqb (token_of (SaleItem.name ing)) "__proto__").
    + intros key. rewrite Hown, last_with_token_cons.
      destruct (String.eqb_spec key "__proto__") as [->|Hkey].
      * unfold add_ingredient.
        destruct (String.eqb_spec (token_of (SaleItem.name ing)) "__proto__") as [|Hne]; [done|].
        cbn. by rewrite lookup_insert_ne.
      * destruct (last_with_token l key); [done|].
        unfold add_ingredient.
        destruct (String.eqb_spec (token_of (SaleItem.name ing)) key) as [Heq|Hne].
        -- destruct (String.eqb_spec (token_of (SaleItem.name ing)) "__proto__"); [congruence|].
           cbn. by rewrite Heq, lookup_insert_eq.
        -- destruct (String.eqb_spec (token_of (SaleItem.name ing)) "__proto__"); [done|].
           cbn. by rewrite lookup_insert_ne.
Qed.

Lemma ingredientLookup_spec (ingredients : list SaleItem.t) :
  prototype (ingredientLookup ingredients) = last_with_token ingredients "__proto__" ∧
  ∀ key : string,
    own (ingredientLookup ingredients) !! key
    = if String.eqb key "__proto__" then None else last_with_token ingredients key.
Proof.
  unfold ingredientLookup.
  destruct (ingredientLookup_from ingredients {| own := ∅; prototype := None |}) as [Hproto Hown].
  split.
  - rewrite Hproto. by destruct (last_with_token ingredients "__proto__").
  - intros key. rewrite Hown. cbn. rewrite lookup_empty.
    by destruct (String.eqb key "__proto__"), (last_with_token ingredients key).
Qed.

Lemma inherited_plain (prototype : option SaleItem.t) (key : string) :
  inherited_member key = false → inherited prototype key = None.
Proof.
  intros Hkey. unfold inherited.
  destruct (String.eqb_spec key "__proto__") as [->|_]; [done|].
  destruct (String.eqb_spec key "constructor") as [->|_]; [done|].
  by rewrite Hkey.
Qed.

Lemma inherited_some (prototype : option SaleItem.t) (key : string) (found : Found) :
  inherited prototype key = Some found → inherited_member key = true.
Proof.
  destruct (inherited_member key) eqn:Hkey; [done|]. by rewrite inherited_plain.
Qed.

Section Attribution.

Variable ingredients : list SaleItem.t.

(** The sale item stored under the token of the ingredient, or else
    what the chain of prototypes gives, or else the first sale item
    that contains the token. *)
Lemma find_deal_spec (key : string) :
  find_deal (ingredientLookup ingredients) ingredients key
  = match last_with_token ingredients key with
    | Some deal => Some (FoundItem deal)
    | None =>
        match inherited_get (last_with_token ingredients "__proto__") key with
        | Some found => Some found
        | None => FoundItem <$> first_containing ingredients key
        end
    end.
Proof.
  unfold find_deal, lookup_get.
  destruct (ingredientLookup_spec ingredients) as [-> ->].
  destruct (String.eqb_spec key "__proto__") as [->|Hkey].
  - by destruct (last_with_token ingredients "__proto__").
  - by destruct (last_with_token ingredients key).
Qed.

(** What is found is a sale item that contains the token, unless the
    token names an inherited member or some sale item has made itself
    the prototype; nothing is found only when no sale item contains the
    token. *)
Lemma found_for_spec (ing : Ingredient.t) :
  match found_for (ingredientLookup ingredients) ingredients ing with
  | Some (FoundItem deal) =>
      In deal ingredients ∧
      substring_of (token_of (Ingredient.name ing)) (toLowerCase (SaleItem.name deal))
  | Some (FoundText | FoundFunction _ | FoundPrototype) =>
      inherited_member (token_of (Ingredient.name ing)) = true ∨
      is_Some (last_with_token ingredients "__proto__")
  | None =>
      ∀ item, In item ingredients →
        ¬ substring_of (token_of (Ingredient.name ing)) (toLowerCase (SaleItem.name item))
  end.
Proof.
  unfold found_for. rewrite find_deal_spec.
  set (key := token_of (Ingredient.name ing)).
  assert (Hstored : ∀ deal, last_with_token ingredients key = Some deal →
            In deal ingredients ∧ substring_of key (toLowerCase (SaleItem.name deal))).
  { intros deal [Hin Htoken]%last_with_token_in. split; [done|].
    apply includes_spec. rewrite <- Htoken. apply includes_first_token. }
  destruct (last_with_token ingredients key) as [deal|] eqn:Hlast; [by apply Hstored|].
  destruct (inherited_get (last_with_token ingredients "__proto__") key) as [found|] eqn:Hget.
  - unfold inherited_get in Hget.
    destruct (last_with_token ingredients "__proto__") as [proto|] eqn:Hproto.
    + destruct found as [deal| | |]; [|by right..].
      destruct (member_of proto key) as [[|]|]; [done..|].
      unfold inherited in Hget.
      destruct (String.eqb_spec key "__proto__") as [Hkey|_]; [congruence|].
      destruct (String.eqb key "constructor"); [done|].
      by destruct (inherited_member key).
    + pose proof (inherited_some _ _ _ Hget) as Hmember.
      destruct found as [deal| | |]; [|by left..].
      unfold inherited in Hget.
      destruct (String.eqb key "__proto__"); [done|].
      destruct (String.eqb key "constructor"); [done|].
      by destruct (inherited_member key).
  - unfold first_containing.
    destruct (List.find _ ingredients) as [deal|] eqn:Hfind; cbn.
    + apply find_some in Hfind as [Hin Hinc]. split; [done|]. by apply includes_spec.
    + intros item Hitem Hsub. apply includes_spec in Hsub.
      pose proof (find_none _ _ Hfind item Hitem) as Hnot. cbn in Hnot. congruence.
Qed.

Variable lookup : Lookup.

Lemma tally_spec (used : list Ingredient.t) (acc : Tally) :
  let items := used_item <$> omap (found_for lookup ingredients) used in
  let acc' := foldl (tally_ingredient lookup ingredients) acc used in
  usedSaleItems acc' = usedSaleItems acc ++ items ∧
  totalSavings acc'
  = foldl (fun total i => plus total (parseFloat_or_0 (UsedItem.savings i)))
      (totalSavings acc) items ∧
  estimatedCost acc'
  = foldl (fun total i => plus total (parseFloat_or_0 (UsedItem.salePrice i)))
      (estimatedCost acc) items.
Proof.
  revert acc. induction used as [|ing used IH]; intros acc.
  - cbn. by rewrite app_nil_r.
  - cbn [foldl]. destruct (IH (tally_ingredient lookup ingredients acc ing))
      as (Hitems & Hsum & Hcost).
    rewrite Hitems, Hsum, Hcost. clear.
    unfold tally_ingredient. cbn [omap list_omap].
    fold (found_for lookup ingredients ing).
    destruct (found_for lookup ingredients ing) as [found|]; cbn; [|done].
    by rewrite <- app_assoc.
Qed.

End Attribution.

Lemma coupon_matches_spec (used : list Ingredient.t) (c : Coupon.t) :
  coupon_matches used c = true ↔
  ∃ ing, In ing used ∧
    substring_of (token_of (Ingredient.name ing))
      (toLowerCase (to_string (Coupon.description c) ++ " " ++ to_string (Coupon.brand c))).
Proof.
  unfold coupon_matches. rewrite existsb_exists.
  split; intros (ing & Hin & H); exists ing; (split; [done|]); by apply includes_spec.
Qed.

(** C4, as the code has it.  For every list of sale items and every
    recipe:
    - what a used ingredient finds is the last sale item whose
      lower-case first token is the ingredient's token; or else what
      the lookup object inherits under that token (a member of the sale
      item whose token is [__proto__], a function such as
      [constructor], or [Object.prototype]); or else the first sale
      item whose lower-case name contains the token;
    - a sale item that is found contains the token; something that is
      no sale item is found only under the name of an inherited member
      or when some sale item has the token [__proto__]; and nothing is
      found only when no sale item contains the token;
    - so, when the token names no inherited member and no sale item has
      the token [__proto__], the ingredient gets the last sale item
      with its token, or else the first that contains its token;
    - [usedSaleItems] has one entry per used ingredient that found
      something, in the order of the ingredients, so a sale item stands
      there once for every ingredient that found it;
    - [totalSavings] is the sum of the savings over [usedSaleItems],
      added up in that order and printed with two digits;
    - a coupon is kept exactly when the token of some used ingredient
      occurs in the lower-case [description + " " + brand]. *)
Theorem enrich_counts_one_deal_per_ingredient
    (ingredients : list SaleItem.t) (coupons boostDeals : option (list Coupon.t))
    (recipe : Recipe.t) :
  let lookup := ingredientLookup ingredients in
  let used := default [] (Recipe.usedIngredients recipe) in
  let e := enrich lookup ingredients coupons boostDeals recipe in
  (∀ ing : Ingredient.t,
     let key := token_of (Ingredient.name ing) in
     found_for lookup ingredients ing
     = match last_with_token ingredients key with
       | Some deal => Some (FoundItem deal)
       | None =>
           match inherited_get (last_with_token ingredients "__proto__") key with
           | Some found => Some found
           | None => FoundItem <$> first_containing ingredients key
           end
       end ∧
     match found_for lookup ingredients ing with
     | Some (FoundItem deal) =>
         In deal ingredients ∧ substring_of key (toLowerCase (SaleItem.name deal))
     | Some (FoundText | FoundFunction _ | FoundPrototype) =>
         inherited_member key = true ∨ is_Some (last_with_token ingredients "__proto__")
     | None =>
         ∀ item, In item ingredients → ¬ substring_of key (toLowerCase (SaleItem.name item))
     end ∧
     (inherited_member key = false → last_with_token ingredients "__proto__" = None →
      found_for lookup ingredients ing
      = FoundItem <$> match last_with_token ingredients key with
                      | Some deal => Some deal
                      | None => first_containing ingredients key
                      end)) ∧
  Enriched.usedSaleItems e = used_item <$> omap (found_for lookup ingredients) used ∧
  Enriched.totalSavings e = round2 (sum_used (Enriched.usedSaleItems e)) ∧
  Enriched.couponsToClip e
  = map clip (List.filter (coupon_matches used) (default [] coupons ++ default [] boostDeals)) ∧
  (∀ c, coupon_matches used c = true ↔
        ∃ ing, In ing used ∧
          substring_of (token_of (Ingredient.name ing))
            (toLowerCase (to_string (Coupon.description c) ++ " " ++ to_string (Coupon.brand c)))).
Proof.
  intros lookup used e.
  destruct (tally_spec ingredients lookup used
              {| usedSaleItems := []; totalSavings := 0%Q; estimatedCost := 0%Q |})
    as (Hlist & Hsum & _).
  cbn in Hlist, Hsum.
  split; [|split; [|split; [|split]]].
  - intros ing key.
    assert (Hfound : found_for lookup ingredients ing
              = match last_with_token ingredients key with
                | Some deal => Some (FoundItem deal)
                | None =>
                    match inherited_get (last_with_token ingredients "__proto__") key with
                    | Some found => Some found
                    | None => FoundItem <$> first_containing ingredients key
                    end
                end) by apply find_deal_spec.
    split; [done|]. split; [apply found_for_spec|].
    intros Hkey Hproto. rewrite Hfound, Hproto. cbn.
    rewrite (inherited_plain None key Hkey).
    by destruct (last_with_token ingredients key).
  - exact Hlist.
  - subst e. unfold enrich. cbn [Enriched.usedSaleItems Enriched.totalSavings].
    fold used. by rewrite Hsum, Hlist.
  - done.
  - apply coupon_matches_spec.
Qed.

(** ** Token refresh *)

Lemma refresh_count_send (c : Call) (s : Server) :
  refresh_count (send c s) = (refresh_count s + (if is_refresh c then 1 else 0))%nat.
Proof.
  unfold refresh_count, send. cbn [calls].
  rewrite List.filter_app, length_app. cbn. by destruct (is_refresh c).
Qed.

Lemma refresh_if_expired_fresh (env : Env) (user_id : string) (krogerData : KrogerData.t)
    (s : Server) :
  now env < KrogerData.expiresAt krogerData →
  refresh_if_expired env user_id krogerData s = (s, inr krogerData).
Proof.
  intros H. unfold refresh_if_expired.
  by replace (KrogerData.expiresAt krogerData <=? now env) with false
    by (symmetry; apply Z.leb_gt; lia).
Qed.

Lemma refresh_if_expired_stale (env : Env) (user_id : string) (krogerData : KrogerData.t)
    (s : Server) :
  KrogerData.expiresAt krogerData ≤ now env →
  refresh_if_expired env user_id krogerData s =
  match token_endpoint env (KrogerData.refreshToken krogerData) with
  | TokenGranted access_token expires_in =>
      let krogerData' :=
        {| KrogerData.accessToken := access_token;
           KrogerData.refreshToken := KrogerData.refreshToken krogerData;
           KrogerData.expiresAt := now_refreshed env + expires_in * 1000 |} in
      ({| krogerTokens := <[user_id := krogerData']> (krogerTokens s);
          calls := calls s ++ [RefreshCall (KrogerData.refreshToken krogerData)] |},
       inr krogerData')
  | TokenRejected message | TokenDenied message =>
      (send (RefreshCall (KrogerData.refreshToken krogerData)) s, inl message)
  end.
Proof.
  intros H. unfold refresh_if_expired, refreshKrogerToken.
  replace (KrogerData.expiresAt krogerData <=? now env) with true
    by (symmetry; apply Z.leb_le; lia).
  by destruct (token_endpoint env _).
Qed.

(** C9.  For a user with a stored credential, both handlers that
    depend on it behave alike.  When the credential has expired
    ([now >= expiresAt]) they send exactly one refresh request, first;
    if it is granted, the stored credential gets the new access token
    and the new expiry, and the dependent requests carry the new token;
    if it is refused, nothing else is sent, the credential is kept and
    the reply is 500.  When the expiry lies ahead they send no refresh
    request, keep the credential and use its access token. *)
Theorem expired_token_refreshed_exactly_once
    (env : Env) (identity : string → option string)
    (coupons_endpoint cart_endpoint : string → Answer) (boost_endpoint : string → Boost)
    (authorization : option string) (items : list CartItem.t) (s : Server)
    (user_id : string) (krogerData : KrogerData.t) :
  getUser identity authorization = Some user_id →
  krogerTokens s !! user_id = Some krogerData →
  let after_coupons := api_coupons env identity coupons_endpoint boost_endpoint authorization s in
  let after_cart := api_cart env identity cart_endpoint authorization (Some items) s in
  let lines := map cart_line items in
  let old := KrogerData.accessToken krogerData in
  let refresh_token := KrogerData.refreshToken krogerData in
  (now env < KrogerData.expiresAt krogerData →
     refresh_count after_coupons.1 = refresh_count s ∧
     refresh_count after_cart.1 = refresh_count s ∧
     calls after_coupons.1 = calls s ++ [CouponsCall old; BoostCall old] ∧
     calls after_cart.1 = calls s ++ [CartCall old lines] ∧
     krogerTokens after_coupons.1 = krogerTokens s ∧
     krogerTokens after_cart.1 = krogerTokens s) ∧
  (KrogerData.expiresAt krogerData ≤ now env →
     refresh_count after_coupons.1 = S (refresh_count s) ∧
     refresh_count after_cart.1 = S (refresh_count s) ∧
     match token_endpoint env refresh_token with
     | TokenGranted access_token expires_in =>
         let refreshed :=
           {| KrogerData.accessToken := access_token;
              KrogerData.refreshToken := refresh_token;
              KrogerData.expiresAt := now_refreshed env + expires_in * 1000 |} in
         calls after_coupons.1
         = calls s ++ [RefreshCall refresh_token; CouponsCall access_token; BoostCall access_token] ∧
         calls after_cart.1
         = calls s ++ [RefreshCall refresh_token; CartCall access_token lines] ∧
         krogerTokens after_coupons.1 = <[user_id := refreshed]> (krogerTokens s) ∧
         krogerTokens after_cart.1 = <[user_id := refreshed]> (krogerTokens s)
     | TokenRejected message | TokenDenied message =>
         calls after_coupons.1 = calls s ++ [RefreshCall refresh_token] ∧
         calls after_cart.1 = calls s ++ [RefreshCall refresh_token] ∧
         krogerTokens after_coupons.1 = krogerTokens s ∧
         krogerTokens after_cart.1 = krogerTokens s ∧
         after_coupons.2 = Reply500 message ∧
         after_cart.2 = Reply500 message
     end).
Proof.
  intros Huser Hdata. cbn zeta. unfold api_coupons, api_cart.
  rewrite Huser, Hdata. split.
  - intros Hfresh. rewrite refresh_if_expired_fresh by done.
    unfold refresh_count, send. cbn.
    rewrite <- ?app_assoc, ?List.filter_app, ?length_app. cbn.
    repeat split; lia || done.
  - intros Hstale. rewrite refresh_if_expired_stale by done.
    destruct (token_endpoint env (KrogerData.refreshToken krogerData))
      as [message|message|access_token expires_in];
      unfold refresh_count, send; cbn;
      rewrite <- ?app_assoc, ?List.filter_app, ?length_app; cbn;
      repeat split; lia || done.
Qed.

(** ** Profile update *)

Lemma updates_from (body : gmap string Json) (keys : list string)
    (acc : gmap string Json) (k : string) :
  foldl
    (fun updates key =>
       match body !! key with
       | Some value => <[key := value]> updates
       | None => updates
       end)
    acc keys !! k
  = if decide (k ∈ keys)
    then (match body !! k with Some value => Some value | None => acc !! k end)
    else acc !! k.
Proof.
  revert acc. induction keys as [|key keys IH]; intros acc; cbn [foldl].
  - by rewrite decide_False by apply not_elem_of_nil.
  - rewrite IH. destruct (decide (k = key)) as [->|Hne].
    + rewrite (decide_True (P := key ∈ key :: keys)) by (by left).
      destruct (decide (key ∈ keys)); destruct (body !! key) eqn:Hb;
        rewrite ?lookup_insert_eq; done.
    + destruct (decide (k ∈ keys)) as [Hin|Hnin].
      * rewrite (decide_True (P := k ∈ key :: keys)) by (by right).
        destruct (body !! k); [done|].
        destruct (body !! key); [by rewrite lookup_insert_ne|done].
      * rewrite (decide_False (P := k ∈ key :: keys))
          by (intros [?|?]%elem_of_cons; done).
        destruct (body !! key); [by rewrite lookup_insert_ne|done].
Qed.

Lemma profile_updates_lookup (body : gmap string Json) (timestamp k : string) :
  profile_updates body timestamp !! k
  = if decide (k = "updated_at"%string) then Some (JString timestamp)
    else if decide (k ∈ allowed) then body !! k
    else None.
Proof.
  unfold profile_updates.
  destruct (decide (k = "updated_at"%string)) as [->|Hne].
  - by rewrite lookup_insert_eq.
  - rewrite lookup_insert_ne by done. rewrite updates_from, lookup_empty.
    destruct (decide (k ∈ allowed)); [|done]. by destruct (body !! k).
Qed.

Lemma profile_updates_ext (body body' : gmap string Json) (timestamp : string) :
  (∀ key, key ∈ allowed → body' !! key = body !! key) →
  profile_updates body' timestamp = profile_updates body timestamp.
Proof.
  intros Hagree. apply map_eq. intros k. rewrite !profile_updates_lookup.
  destruct (decide (k = "updated_at"%string)); [done|].
  destruct (decide (k ∈ allowed)); [by apply Hagree | done].
Qed.

(** C10.  For an authenticated request, whatever the body holds:
    the rows of other users are untouched; in the user's row only the
    five allowed columns and [updated_at] can change; two bodies that
    agree on the allowed keys have the same effect and get the same
    reply; and when the update goes through, the row has the body's
    value in each allowed column that the body defines, its old value
    in the others, and the server's timestamp in [updated_at]. *)
Theorem patch_profile_writes_only_allowed_columns
    (identity : string → option string) (refuses : gmap string Json → option string)
    (no_row timestamp : string) (authorization : option string)
    (body : gmap string Json) (profiles : gmap string (gmap string Json))
    (user_id : string) :
  getUser identity authorization = Some user_id →
  let after := patch_profile identity refuses no_row timestamp authorization body profiles in
  (∀ other, other ≠ user_id → after.1 !! other = profiles !! other) ∧
  (∀ column, column ∉ allowed → column ≠ "updated_at"%string →
     after.1 !! user_id ≫= (fun row => row !! column)
     = profiles !! user_id ≫= (fun row => row !! column)) ∧
  (∀ body', (∀ key, key ∈ allowed → body' !! key = body !! key) →
     patch_profile identity refuses no_row timestamp authorization body' profiles = after) ∧
  (∀ row, refuses (profile_updates body timestamp) = None →
     profiles !! user_id = Some row →
     ∃ row',
       after = (<[user_id := row']> profiles, Profile200 row') ∧
       row' !! "updated_at"%string = Some (JString timestamp) ∧
       ∀ key, key ∈ allowed →
         row' !! key = match body !! key with Some value => Some value | None => row !! key end).
Proof.
  intros Huser. cbn zeta. unfold patch_profile. rewrite Huser.
  split; [|split; [|split]].
  - intros other Hother.
    destruct (refuses _); [done|]. destruct (profiles !! user_id); [|done].
    cbn. by rewrite lookup_insert_ne.
  - intros column Hcolumn Hstamp.
    destruct (refuses _); [done|]. destruct (profiles !! user_id) as [row|] eqn:Hrow; cbn.
    + rewrite lookup_insert_eq. cbn.
      rewrite lookup_union, profile_updates_lookup.
      rewrite decide_False by done. rewrite decide_False by done.
      destruct (row !! column); reflexivity.
    + by rewrite Hrow.
  - intros body' Hagree. by rewrite (profile_updates_ext body body').
  - intros row Hok Hrow. rewrite Hok, Hrow.
    eexists. split; [reflexivity|]. split.
    + rewrite lookup_union, profile_updates_lookup. rewrite decide_True by done.
      destruct (row !! "updated_at"%string); reflexivity.
    + intros key Hkey. rewrite lookup_union, profile_updates_lookup.
      rewrite decide_False by (intros ->; vm_compute in Hkey; set_solver).
      rewrite decide_True by done.
      destruct (body !! key), (row !! key); reflexivity.
Qed.

End Properties.

(** * The examples, checked *)

Section Examples.

#[local] Existing Instance exact.
#[local] Existing Instance ascii_letters.

(** Eggs at 3.50 instead of 4.00 are 12.5% off, shown as 13. *)
Lemma pctOff_rounds_percentage_half_up_witness :
  ∃ n, Deal.pctOff eggs_deal = Fin n ∧
       round_half_up (percentage 4 (7 # 2)) n ∧
       ∀ m, round_half_up (percentage 4 (7 # 2)) m → m = n.
Proof.
  destruct (pctOff_rounds_percentage_half_up "eggs" eggs eggs_deal)
    as (regular & promo & Hregular & Hpromo & _ & _ & _ & Hfinite & _);
    [reflexivity | reflexivity |].
  vm_compute in Hregular, Hpromo.
  injection Hregular as <-. injection Hpromo as <-.
  apply (Hfinite 4%Q (7 # 2)%Q); try reflexivity.
  - discriminate.
  - split; discriminate.
  - split; discriminate.
  - split; discriminate.
Defined.

Lemma no_deal_without_positive_promo_witness :
  on_promotion salt = false ∧
  category_try "dairy" (Data (Some ([milk] ++ salt :: [eggs])))
  = category_try "dairy" (Data (Some ([milk] ++ [eggs]))) ∧
  category_products "dairy" (Data (Some ([milk] ++ salt :: [eggs])))
  = category_products "dairy" (Data (Some ([milk] ++ [eggs]))) ∧
  ∀ d, In d (category_products "dairy" (Data (Some ([milk] ++ salt :: [eggs])))) →
       ∃ p' promo, In p' ([milk] ++ [eggs]) ∧ promo_of p' = Some promo ∧
                   above_zero promo ∧ to_deal "dairy" p' = Some d.
Proof.
  apply (no_deal_without_positive_promo "dairy" salt [milk] [eggs]).
  intros promo H. discriminate H.
Defined.

Lemma fan_out_runs_chunks_in_sequence_witness :
  ∃ st,
    fan_out unavailable reversed 8 DEAL_CATEGORIES = Some st ∧
    rounds st = 8%nat ∧
    length (chunks 8 DEAL_CATEGORIES) = ceil_div 63 8 ∧
    ∀ k batch,
      chunks 8 DEAL_CATEGORIES !! k = Some batch →
      (0 < length batch ≤ 8)%nat ∧
      ∃ before after,
        trace st = before ++ round_trace reversed (k * 8) batch ++ after ∧
        issued before = take (k * 8) DEAL_CATEGORIES ∧
        quiescent before.
Proof.
  destruct (fan_out_runs_chunks_in_sequence unavailable reversed 8 DEAL_CATEGORIES)
    as (st & Hst & _ & Hlen & Hrounds & _ & Hchunk).
  - lia.
  - intros i batch. symmetry. apply Permutation_rev.
  - exists st. split; [exact Hst|]. split; [exact Hrounds|]. split; [exact Hlen|].
    intros k batch Hk. destruct (Hchunk k batch Hk) as (_ & Hb & Hk').
    split; [exact Hb | exact Hk'].
Defined.


Lemma aggregate_one_entry_per_id_witness :
  List.NoDup (map Deal.id (aggregate [milk_deal; eggs_deal; milk_deal])) ∧
  ∃ d', with_id "0001" (aggregate [milk_deal; eggs_deal; milk_deal]) = [d'].
Proof.
  destruct (aggregate_one_entry_per_id [milk_deal; eggs_deal; milk_deal])
    as (Hnodup & _ & Hone).
  split; [exact Hnodup|].
  apply (Hone ltac:(vm_compute; lia) milk_deal). by left.
Defined.

(** C3, as stated, fails: past the cap an identifier with two records
    has no entry at all. *)
Lemma twin_beyond_the_cap :
  length (with_id "twin" crowd) = 2%nat ∧
  length (crowd) = 202%nat ∧
  with_id "twin" (aggregate crowd) = [].
Proof. vm_compute. done. Qed.

Lemma deals_ranked_stably_and_capped_witness :
  ∃ location token st,
    Some "01400943"%string = Some location ∧ getAppToken granted = inl token ∧
    fan_out (small_catalog) reversed 8 DEAL_CATEGORIES = Some st ∧
    unique_by_id ∅ (allProducts st) `sublist_of` allProducts st ∧
    (length small_deals ≤ 200)%nat ∧
    ((∀ category data p,
        small_catalog category = Data (Some data) → In p data → finite_regular p) →
     Forall rankable small_deals ∧
     StronglySorted ranked_before small_deals ∧
     ∀ v, with_pct v small_deals `prefix_of` with_pct v (unique_by_id ∅ (allProducts st))).
Proof.
  apply (deals_ranked_stably_and_capped granted (fun _ _ => small_catalog) reversed
           (Some "01400943"%string) small_deals).
  vm_compute. reflexivity.
Defined.

(** C2, as stated, fails: a regular price that overflows to [Infinity]
    gives its deal the percentage [NaN], and the comparator returns
    [NaN] for every pair with that deal.  The deal at 10% stays before
    the deal at 50%; and in whatever order an engine leaves the three
    deals, they are not ranked by falling percentage. *)
Lemma caviar_unranked :
  api_deals granted (fun _ _ => priceless_catalog) in_order (Some "01400943"%string)
  = Some (Status200 [tea_deal; caviar_deal; ham_deal]) ∧
  Deal.pctOff tea_deal = Fin 10 ∧
  Deal.pctOff caviar_deal = NaN ∧
  Deal.pctOff ham_deal = Fin 50 ∧
  by_pctOff tea_deal caviar_deal = NaN ∧
  by_pctOff caviar_deal ham_deal = NaN ∧
  ∀ deals, Permutation deals [tea_deal; caviar_deal; ham_deal] →
    ¬ StronglySorted ranked_before deals.
Proof.
  split; [vm_compute; reflexivity|].
  do 5 (split; [reflexivity|]).
  intros deals Hperm Hsorted.
  destruct (StronglySorted_related ranked_before deals caviar_deal tea_deal Hsorted)
    as [H|[H|H]]; [| |discriminate H|exact H|exact H].
  - eapply Permutation_in; [symmetry; exact Hperm|]. right. by left.
  - eapply Permutation_in; [symmetry; exact Hperm|]. by left.
Qed.

Lemma deal_bounds_when_promo_below_regular_witness :
  ∃ location token category data p regular promo,
    Some "01400943"%string = Some location ∧ getAppToken granted = inl token ∧
    In category DEAL_CATEGORIES ∧
    small_catalog category = Data (Some data) ∧ In p data ∧
    to_deal category p = Some eggs_deal ∧
    regular_of p = Some regular ∧ promo_of p = Some promo ∧ above_zero promo ∧
    (∀ r q, regular = Finite r → promo = Finite q → (q < r)%Q →
       ∃ n, Deal.pctOff eggs_deal = Fin n ∧ 0 ≤ n ≤ 100 ∧
         ((r < inject_Z (10 ^ 21))%Q →
          ∃ sale list_price,
            Deal.salePrice eggs_deal = Hundredths sale ∧
            Deal.regularPrice eggs_deal = Hundredths list_price ∧
            sale ≤ list_price ∧
            ((q + (1 # 100) <= r)%Q → sale < list_price))).
Proof.
  apply (deal_bounds_when_promo_below_regular granted (fun _ _ => small_catalog) reversed
           (Some "01400943"%string) small_deals eggs_deal).
  - intros i batch. symmetry. apply Permutation_rev.
  - vm_compute. reflexivity.
  - right. left. reflexivity.
Defined.

(** C1, as stated, fails: a product whose promotional price is above
    its regular price passes the filter, and its deal carries a sale
    price above the regular price and a negative percentage. *)
Lemma bread_dearer_on_promotion :
  api_deals granted (fun _ _ => small_catalog) in_order (Some "01400943"%string)
  = Some (Status200 [milk_deal; eggs_deal; bread_deal]) ∧
  In bread_deal [milk_deal; eggs_deal; bread_deal] ∧
  Deal.regularPrice bread_deal = Hundredths 200 ∧
  Deal.salePrice bread_deal = Hundredths 400 ∧
  Deal.pctOff bread_deal = Fin (-100).
Proof.
  split; [vm_compute; reflexivity|].
  split; [right; right; left; reflexivity|].
  done.
Qed.

(** One sale item and a recipe that uses two cuts of it: both
    ingredients find the item, and its savings are added twice. *)
Lemma enrich_counts_one_deal_per_ingredient_witness :
  Enriched.usedSaleItems
    (enrich (ingredientLookup [chicken]) [chicken] (Some [chicken_coupon]) None two_cuts)
  = [used_item (FoundItem chicken); used_item (FoundItem chicken)] ∧
  (Enriched.totalSavings
     (enrich (ingredientLookup [chicken]) [chicken] (Some [chicken_coupon]) None two_cuts)
   == 2)%Q ∧
  Enriched.couponsToClip
    (enrich (ingredientLookup [chicken]) [chicken] (Some [chicken_coupon]) None two_cuts)
  = [clip chicken_coupon].
Proof.
  destruct (enrich_counts_one_deal_per_ingredient [chicken] (Some [chicken_coupon]) None two_cuts)
    as (_ & Hused & Htotal & Hclip & _).
  cbv zeta in Hused, Htotal, Hclip.
  assert (Hu : Enriched.usedSaleItems
                 (enrich (ingredientLookup [chicken]) [chicken] (Some [chicken_coupon]) None two_cuts)
               = [used_item (FoundItem chicken); used_item (FoundItem chicken)]).
  { rewrite Hused. vm_compute. reflexivity. }
  split; [exact Hu|]. split.
  - rewrite Htotal, Hu. vm_compute. reflexivity.
  - rewrite Hclip. vm_compute. reflexivity.
Defined.

(** C4, as stated, fails: a sale item that two ingredients of the
    recipe match is counted twice in [totalSavings], while the sum over
    the distinct sale items that match counts it once. *)
Lemma chicken_counted_twice :
  ∃ e,
    enrich_all [chicken] None None [two_cuts] = [e] ∧
    substring_matches [chicken] (default [] (Recipe.usedIngredients two_cuts)) = [chicken] ∧
    (sum_savings [chicken] == 1)%Q ∧
    (Enriched.totalSavings e == 2)%Q ∧
    ¬ (Enriched.totalSavings e == sum_savings [chicken])%Q.
Proof.
  eexists. split; [vm_compute; reflexivity|].
  split; [reflexivity|].
  split; [reflexivity|].
  split; [reflexivity|].
  cbn. intros H. discriminate H.
Qed.

Lemma expired_token_refreshed_exactly_once_witness :
  refresh_count (api_coupons at_5000 known_user (fun _ => Accepted) (fun _ => BoostRead)
                   (Some "Bearer ann-jwt"%string) two_users).1 = 1%nat ∧
  calls (api_coupons at_5000 known_user (fun _ => Accepted) (fun _ => BoostRead)
           (Some "Bearer ann-jwt"%string) two_users).1
  = [RefreshCall (Some "r1"%string); CouponsCall "new"; BoostCall "new"] ∧
  refresh_count (api_cart at_5000 known_user (fun _ => Accepted)
                   (Some "Bearer bob-jwt"%string) (Some basket) two_users).1 = 0%nat ∧
  calls (api_cart at_5000 known_user (fun _ => Accepted)
           (Some "Bearer bob-jwt"%string) (Some basket) two_users).1
  = [CartCall "cur" [(Some "0001111097139"%string, 1)]].
Proof.
  destruct (expired_token_refreshed_exactly_once at_5000 known_user
              (fun _ => Accepted) (fun _ => Accepted) (fun _ => BoostRead)
              (Some "Bearer ann-jwt"%string) basket two_users "ann" stale)
    as [_ Hann]; [reflexivity | vm_compute; reflexivity |].
  destruct (expired_token_refreshed_exactly_once at_5000 known_user
              (fun _ => Accepted) (fun _ => Accepted) (fun _ => BoostRead)
              (Some "Bearer bob-jwt"%string) basket two_users "bob" fresh)
    as [Hbob _]; [reflexivity | vm_compute; reflexivity |].
  destruct Hann as (Hcount & _ & Hcalls & _); [cbn; lia|].
  destruct Hbob as (_ & Hcount' & _ & Hcalls' & _); [cbn; lia|].
  split; [exact Hcount|]. split; [exact Hcalls|]. split; [exact Hcount'|exact Hcalls'].
Defined.

Lemma patch_profile_writes_only_allowed_columns_witness :
  (patch_profile known_user never "no row" "2026-11-03T08:00:00.000Z"
     (Some "Bearer ann-jwt"%string) patch_body one_profile).1 !! "ann"%string
    ≫= (fun row => row !! "kroger_connected"%string)
  = Some (JBool false) ∧
  ∃ row',
    patch_profile known_user never "no row" "2026-11-03T08:00:00.000Z"
      (Some "Bearer ann-jwt"%string) patch_body one_profile
    = (<["ann"%string := row']> one_profile, Profile200 row') ∧
    row' !! "full_name"%string = Some (JString "Ann B.") ∧
    row' !! "updated_at"%string = Some (JString "2026-11-03T08:00:00.000Z").
Proof.
  destruct (patch_profile_writes_only_allowed_columns known_user never "no row"
              "2026-11-03T08:00:00.000Z" (Some "Bearer ann-jwt"%string)
              patch_body one_profile "ann")
    as (_ & Hframe & _ & Hwrite); [reflexivity|].
  split.
  - rewrite (Hframe "kroger_connected"%string).
    + vm_compute. reflexivity.
    + unfold allowed. set_solver.
    + discriminate.
  - destruct (Hwrite (<["full_name"%string := JString "Ann"]>
                        (<["kroger_connected"%string := JBool false]>
                           (<["id"%string := JString "ann"]> ∅))))
      as (row' & Hpatch & Hstamp & Hkeys); [reflexivity | vm_compute; reflexivity |].
    exists row'. split; [exact Hpatch|]. split; [|exact Hstamp].
    rewrite (Hkeys "full_name"%string) by (unfold allowed; set_solver).
    vm_compute. reflexivity.
Defined.

End Examples.

(** * Further properties of the handlers *)

Section Further.

Context {rounding : Rounding} {casing : CaseMapping}.

(** ** Load on the catalog *)

Lemma issued_Issue (l : list string) : issued (map Issue l) = l.
Proof. induction l as [|x l IH]; cbn; [done|]. f_equal. exact IH. Qed.

Lemma issued_Settle (l : list string) : issued (map Settle l) = [].
Proof. induction l as [|x l IH]; cbn; done. Qed.

Lemma settles_Issue (l : list string) : settles (map Issue l) = [].
Proof. induction l as [|x l IH]; cbn; done. Qed.

Lemma settles_Settle (l : list string) : settles (map Settle l) = l.
Proof. induction l as [|x l IH]; cbn; [done|]. f_equal. exact IH. Qed.

Lemma prefix_app_split {A : Type} (t r k : list A) :
  t `prefix_of` r ++ k → t `prefix_of` r ∨ ∃ t', t = r ++ t' ∧ t' `prefix_of` k.
Proof.
  revert t. induction r as [|x r IH]; intros t Ht; cbn in *.
  - right. by exists t.
  - destruct t as [|y t]; [left; apply prefix_nil|].
    apply prefix_cons_inv_1 in Ht as Hxy. apply prefix_cons_inv_2 in Ht. subst y.
    destruct (IH t Ht) as [Hl|(t' & -> & Ht')].
    + left. by apply prefix_cons.
    + right. by exists t'.
Qed.

(** Within one round at most [b] requests are in flight. *)
Lemma round_in_flight (settled : nat → list string → list string)
    (b i : nat) (batch : list string) (t : list Event) :
  Permutation (settled i batch) batch → (length batch ≤ b)%nat →
  t `prefix_of` round_trace settled i batch →
  (length (settles t) ≤ length (issued t) ≤ length (settles t) + b)%nat.
Proof.
  intros Hperm Hb Ht. unfold round_trace in Ht.
  apply Permutation_length in Hperm.
  destruct (prefix_app_split _ _ _ Ht) as [[k Hk]|(t' & -> & [k Hk])].
  - apply map_eq_app in Hk as (l1 & l2 & -> & <- & _).
    rewrite issued_Issue, settles_Issue, length_app in *. cbn. lia.
  - apply map_eq_app in Hk as (l1 & l2 & Hl & <- & _).
    rewrite issued_app, settles_app, issued_Issue, settles_Issue, issued_Settle, settles_Settle.
    rewrite Hl, length_app in Hperm. rewrite app_nil_r. cbn. lia.
Qed.

Lemma rounds_in_flight (settled : nat → list string → list string)
    (b : nat) (cs : list (list string)) (g : nat → nat) (t : list Event) :
  (∀ i batch, Permutation (settled i batch) batch) →
  Forall (fun batch => (length batch ≤ b)%nat) cs →
  t `prefix_of` concat (imap (fun k batch => round_trace settled (g k) batch) cs) →
  (length (settles t) ≤ length (issued t) ≤ length (settles t) + b)%nat.
Proof.
  intros Hperm Hcs. revert g t.
  induction Hcs as [|batch cs Hbatch _ IH]; intros g t Ht; cbn in Ht.
  - apply prefix_nil_inv in Ht as ->. cbn. lia.
  - destruct (prefix_app_split _ _ _ Ht) as [Hl|(t' & -> & Ht')].
    + by eapply round_in_flight.
    + specialize (IH (g ∘ S) t' Ht').
      rewrite issued_app, settles_app, !length_app, issued_round, settles_round.
      rewrite (Permutation_length (Hperm (g 0%nat) batch)). lia.
Qed.

(** X1.  The fan-out asks the catalog once for every category, in the order
    of the list, and never has more than [b] requests in flight: at
    every moment the requests issued exceed the requests settled by at
    most [b]. *)
Theorem fan_out_bounds_requests_in_flight
    (catalog : string → Fetched) (settled : nat → list string → list string)
    (b : nat) (categories : list string) :
  (0 < b)%nat →
  (∀ i batch, Permutation (settled i batch) batch) →
  ∃ st,
    fan_out catalog settled b categories = Some st ∧
    issued (trace st) = categories ∧
    Permutation (settles (trace st)) categories ∧
    ∀ t, t `prefix_of` trace st →
      (length (settles t) ≤ length (issued t) ≤ length (settles t) + b)%nat.
Proof.
  intros Hb Hperm. eexists. split; [by apply fan_out_spec|].
  cbn [trace after_rounds start app].
  split; [|split].
  - rewrite (issued_rounds settled _ (fun k => (0 + k * b)%nat)). by apply chunks_concat.
  - rewrite (settles_rounds settled Hperm _ (fun k => (0 + k * b)%nat)).
    by rewrite chunks_concat.
  - intros t Ht.
    apply (rounds_in_flight settled b (chunks b categories) (fun k => (0 + k * b)%nat));
      [done | | done].
    apply Forall_lookup. intros k batch Hk.
    by destruct (chunks_lookup _ _ _ _ Hb Hk) as [_ [_ ?]].
Qed.

(** ** The schedule and the deals returned *)

Lemma unique_by_id_ids (l : list Deal.t) :
  list_to_set (Deal.id <$> unique_by_id ∅ l) = (list_to_set (Deal.id <$> l) : gset string).
Proof.
  apply set_eq. intros x. rewrite !elem_of_list_to_set, !list_elem_of_fmap. split.
  - intros (d & -> & [Hd _]%unique_by_id_elem). eauto.
  - intros (d & -> & Hd).
    destruct (unique_by_id_complete ∅ l d Hd) as (d' & Hd' & Heq); [set_solver|]. eauto.
Qed.

Lemma fan_out_schedules
    (catalog : string → Fetched) (settled settled' : nat → list string → list string)
    (b b' : nat) (categories : list string) (st st' : Progress) :
  (0 < b)%nat → (0 < b')%nat →
  (∀ i batch, Permutation (settled i batch) batch) →
  (∀ i batch, Permutation (settled' i batch) batch) →
  fan_out catalog settled b categories = Some st →
  fan_out catalog settled' b' categories = Some st' →
  Permutation (allProducts st) (allProducts st').
Proof.
  intros Hb Hb' Hperm Hperm' Hst Hst'.
  rewrite (fan_out_products _ _ _ _ _ Hb Hst), (fan_out_products _ _ _ _ _ Hb' Hst').
  apply Permutation_flat_map.
  rewrite (settle_order_perm settled b categories Hb Hperm).
  symmetry. by apply settle_order_perm.
Qed.

(** X2.  Two runs of the handler that differ only in the size of the
    batches and in the order in which the category requests settle
    return the same number of deals; when a run returns fewer than 200
    deals, the other returns deals with the same identifiers. *)
Theorem schedule_keeps_identifiers
    (answer : TokenAnswer) (products : string → string → string → Fetched)
    (settled settled' : nat → list string → list string)
    (b b' : nat) (categories : list string) (locationId : option string)
    (deals deals' : list Deal.t) :
  (0 < b)%nat → (0 < b')%nat →
  (∀ i batch, Permutation (settled i batch) batch) →
  (∀ i batch, Permutation (settled' i batch) batch) →
  get_deals answer products settled b categories locationId = Some (Status200 deals) →
  get_deals answer products settled' b' categories locationId = Some (Status200 deals') →
  length deals = length deals' ∧
  ((length deals < cap)%nat →
   (list_to_set (map Deal.id deals) : gset string) = list_to_set (map Deal.id deals')).
Proof.
  intros Hb Hb' Hperm Hperm'
    (location & token & st & -> & Htoken & Hst & ->)%get_deals_200
    (location' & token' & st' & [= <-] & Htoken' & Hst' & ->)%get_deals_200.
  assert (token' = token) as -> by congruence.
  pose proof (fan_out_schedules _ _ _ _ _ _ _ _ Hb Hb' Hperm Hperm' Hst Hst') as Hall.
  assert (Hids : (list_to_set (Deal.id <$> allProducts st) : gset string)
                 = list_to_set (Deal.id <$> allProducts st')).
  { apply list_to_set_perm_L, fmap_Permutation, Hall. }
  assert (Hlen : length (unique_by_id ∅ (allProducts st))
                 = length (unique_by_id ∅ (allProducts st')))
    by (by rewrite !unique_by_id_length, Hids).
  pose proof (sort_perm by_pctOff (unique_by_id ∅ (allProducts st))) as Hsort.
  pose proof (sort_perm by_pctOff (unique_by_id ∅ (allProducts st'))) as Hsort'.
  pose proof (Permutation_length Hsort) as Hl.
  pose proof (Permutation_length Hsort') as Hl'.
  rewrite !aggregate_unfold, !length_take. split; [lia|].
  intros Hlt.
  rewrite !take_ge by lia.
  rewrite !map_fmap.
  rewrite (list_to_set_perm_L _ _ (fmap_Permutation Deal.id _ _ Hsort)).
  rewrite (list_to_set_perm_L _ _ (fmap_Permutation Deal.id _ _ Hsort')).
  rewrite !unique_by_id_ids. exact Hids.
Qed.

(** ** A refreshed token serves the next request *)

(** X3.  After a request to [/api/coupons] has refreshed an expired token,
    a request to [/api/cart] by the same user before the new expiry
    sends no refresh request and carries the new access token. *)
Theorem refreshed_token_serves_next_request
    (env env' : Env) (identity : string → option string)
    (coupons_endpoint cart_endpoint : string → Answer) (boost_endpoint : string → Boost)
    (authorization : option string) (items : list CartItem.t) (s : Server)
    (user_id : string) (krogerData : KrogerData.t)
    (access_token : string) (expires_in : Z) :
  getUser identity authorization = Some user_id →
  krogerTokens s !! user_id = Some krogerData →
  KrogerData.expiresAt krogerData ≤ now env →
  token_endpoint env (KrogerData.refreshToken krogerData) = TokenGranted access_token expires_in →
  now env' < now_refreshed env + expires_in * 1000 →
  let s1 := (api_coupons env identity coupons_endpoint boost_endpoint authorization s).1 in
  let s2 := (api_cart env' identity cart_endpoint authorization (Some items) s1).1 in
  calls s2 = calls s1 ++ [CartCall access_token (map cart_line items)] ∧
  refresh_count s2 = refresh_count s1 ∧
  krogerTokens s2 = krogerTokens s1.
Proof.
  intros Huser Hdata Hstale Hgrant Hfresh s1.
  set (krogerData' :=
    {| KrogerData.accessToken := access_token;
       KrogerData.refreshToken := KrogerData.refreshToken krogerData;
       KrogerData.expiresAt := now_refreshed env + expires_in * 1000 |}).
  assert (Htokens : krogerTokens s1 !! user_id = Some krogerData').
  { subst s1. unfold api_coupons. rewrite Huser, Hdata.
    rewrite refresh_if_expired_stale, Hgrant by done. cbn.
    apply lookup_insert_eq. }
  clearbody s1. cbn zeta.
  unfold api_cart. rewrite Huser, Htokens.
  rewrite refresh_if_expired_fresh by done. cbn.
  split; [done|]. split; [|done].
  unfold refresh_count. cbn.
  rewrite List.filter_app, length_app. cbn. lia.
Qed.

(** ** A cheaper promotion never ranks lower *)

Lemma double_le_refl (a : double) : a ≠ NotANumber → double_le a a.
Proof. destruct a; cbn [double_le value]; try done. intros _. lra. Qed.

Lemma double_le_trans (a b c : double) : double_le a b → double_le b c → double_le a c.
Proof. destruct a, b, c; cbn [double_le value]; intros; try done; lra. Qed.

Lemma double_le_not_nan (a b : double) :
  double_le a b → a ≠ NotANumber ∧ b ≠ NotANumber.
Proof. by destruct a, b. Qed.

Lemma double_le_PosInf (a : double) : a ≠ NotANumber → double_le a PosInf.
Proof. by destruct a. Qed.

Lemma double_le_NegInf (a : double) : a ≠ NotANumber → double_le NegInf a.
Proof. by destruct a. Qed.

Lemma round_mono (x y : Q) : (x <= y)%Q → double_le (round x) (round y).
Proof.
  intros Hxy. pose proof (fl_mono x y Hxy) as Hfl. pose proof MAX_VALUE_large as Hmax.
  destruct (round_cases y) as [[-> Hy]|[[-> Hy]|[[Hylo Hyhi] Hy]]].
  - apply double_le_PosInf, round_not_nan.
  - destruct (round_cases x) as [[_ Hx]|[[-> _]|[[Hxlo _] _]]]; [lra | done | lra].
  - destruct (round_cases x) as [[_ Hx]|[[-> _]|[_ Hx]]]; [lra | |].
    + apply double_le_NegInf, round_not_nan.
    + destruct Hx as [(-> & Hx & _)| ->], Hy as [(-> & Hy & _)| ->];
        cbn [double_le value]; lra.
Qed.

(** A double that is zero stands where the rounding of zero stands. *)
Lemma zero_round (s : bool) (x : Q) :
  (x == 0)%Q → double_le (zero s) (round x) ∧ double_le (round x) (zero s).
Proof.
  intros Hx. pose proof (fl_proper x 0 Hx) as Hfl. pose proof fl_0 as H0.
  pose proof MAX_VALUE_large as Hmax.
  destruct (round_cases x) as [[_ H]|[[_ H]|[_ [(-> & _)| ->]]]]; [lra | lra | |];
    destruct s; cbn [zero double_le value]; split; lra.
Qed.

Lemma is_zero_value (a : double) : is_zero a = true → (value a == 0)%Q.
Proof.
  destruct a as [x| | | |]; cbn [is_zero value]; try done.
  by intros H%Qeq_bool_iff.
Qed.

(** An operation that scales a double by a positive finite factor
    keeps the order. *)
Lemma scaling_mono (op : double → double) (f : Q → Q) :
  (∀ x y, (x <= y)%Q → (f x <= f y)%Q) →
  (f 0 == 0)%Q →
  op PosInf = PosInf → op NegInf = NegInf →
  (∀ a, finite a →
     op a = if is_zero a then zero (negative a) else round (f (value a))) →
  ∀ a' a, double_le a' a → double_le (op a') (op a).
Proof.
  intros Hmono Hf0 Hpos Hneg Hop.
  assert (Hfin : ∀ a, finite a →
            double_le (op a) (round (f (value a))) ∧ double_le (round (f (value a))) (op a)).
  { intros a Ha. rewrite Hop by done. destruct (is_zero a) eqn:Hz.
    - apply zero_round. apply is_zero_value in Hz.
      pose proof (Hmono (value a) 0%Q ltac:(lra)). pose proof (Hmono 0%Q (value a) ltac:(lra)).
      lra.
    - split; apply double_le_refl, round_not_nan. }
  assert (Hboth : ∀ a' a, finite a' → finite a → (value a' <= value a)%Q →
            double_le (op a') (op a)).
  { intros a' a Ha' Ha Hle.
    destruct (Hfin a' Ha') as [H1 _]. destruct (Hfin a Ha) as [_ H2].
    eapply double_le_trans; [exact H1|]. eapply double_le_trans; [|exact H2].
    by apply round_mono, Hmono. }
  assert (Hnan : ∀ a, finite a → op a ≠ NotANumber).
  { intros a Ha. destruct (Hfin a Ha) as [H _]. by apply double_le_not_nan in H as [? _]. }
  intros a' a Hle.
  destruct a' as [x'| | | |], a as [x| | | |]; cbn [double_le] in Hle; try done;
    rewrite ?Hpos, ?Hneg;
    first [ by apply Hboth
          | by apply double_le_PosInf, Hnan
          | by apply double_le_NegInf, Hnan
          | done ].
Qed.

Lemma div_mono (a' a : double) (r : Q) :
  (0 < r)%Q → double_le a' a → double_le (JS.div a' (Finite r)) (JS.div a (Finite r)).
Proof.
  intros Hr.
  assert (Hz : Qeq_bool r 0 = false).
  { destruct (Qeq_bool r 0) eqn:E; [|done]. apply Qeq_bool_iff in E. lra. }
  assert (Hs : Qltb r 0 = false).
  { destruct (Qltb r 0) eqn:E; [|done]. apply Qltb_lt in E. lra. }
  apply (scaling_mono (fun a => JS.div a (Finite r)) (fun x => x / r)%Q).
  - intros x y Hxy. unfold Qdiv. apply Qmult_le_compat_r; [done|].
    apply Qlt_le_weak, Qinv_lt_0_compat, Hr.
  - unfold Qdiv. lra.
  - cbn. by rewrite Hs.
  - cbn. by rewrite Hs.
  - intros b Hb. destruct b; try done; cbn [JS.div is_zero negative value];
      rewrite Hz, Hs, ?xorb_false_r; done.
Qed.

Lemma mul_100_mono (a' a : double) :
  double_le a' a → double_le (JS.mul a' (Finite 100)) (JS.mul a (Finite 100)).
Proof.
  apply (scaling_mono (fun a => JS.mul a (Finite 100)) (fun x => x * 100)%Q).
  - intros x y Hxy. lra.
  - lra.
  - done.
  - done.
  - intros b Hb. destruct b; try done; cbn [JS.mul is_zero negative value];
      change (Qeq_bool 100 0) with false; change (Qltb 100 0) with false;
      rewrite ?orb_false_r, ?xorb_false_r; done.
Qed.

Lemma Math_round_mono (a' a : double) :
  double_le a' a → pct_le (Math_round a') (Math_round a).
Proof.
  destruct a' as [x'| | | |], a as [x| | | |]; cbn [double_le value Math_round pct_le];
    try done; intros Hle.
  - apply Qfloor_resp_le. lra.
  - change 0 with (Qfloor (0 + (1 # 2))). apply Qfloor_resp_le. lra.
  - change 0 with (Qfloor (0 + (1 # 2))). apply Qfloor_resp_le. lra.
Qed.

(** X4.  Of two products with the same finite regular price above zero
    and finite promotional prices, the one with the lower promotional
    price gets a percentage at least as high, whatever the rounding
    does and wherever an operation overflows: neither percentage is
    [NaN], and the product may stand before the other in the ranking.
    A percentage may be an infinity: a regular price of [1e-320] and a
    promotional price of [1] give [-Infinity]. *)
Theorem cheaper_promo_ranks_no_lower
    (category category' : string) (p p' : Product.t) (d d' : Deal.t)
    (regular promo promo' : Q) :
  to_deal category p = Some d → to_deal category' p' = Some d' →
  regular_of p = Some (Finite regular) → regular_of p' = Some (Finite regular) →
  promo_of p = Some (Finite promo) → promo_of p' = Some (Finite promo') →
  (0 < regular)%Q → (promo <= promo')%Q →
  ranked_before d d' ∧
  Deal.pctOff d ≠ NaN ∧ Deal.pctOff d' ≠ NaN ∧
  (∀ n n', Deal.pctOff d = Fin n → Deal.pctOff d' = Fin n' → n' ≤ n).
Proof.
  intros Hd Hd' Hr Hr' Hp Hp' Hpos Hle.
  apply to_deal_inv in Hd as (r & q & Hr1 & Hq1 & Hpct & _).
  apply to_deal_inv in Hd' as (r' & q' & Hr2 & Hq2 & Hpct' & _).
  assert (r = Finite regular) as -> by congruence.
  assert (r' = Finite regular) as -> by congruence.
  assert (q = Finite promo) as -> by congruence.
  assert (q' = Finite promo') as -> by congruence.
  assert (Hrank : pct_le (Deal.pctOff d') (Deal.pctOff d)).
  { rewrite Hpct, Hpct'. unfold percent_off.
    apply Math_round_mono, mul_100_mono, div_mono; [done|].
    cbn [JS.minus value]. apply round_mono. lra. }
  split; [exact Hrank|].
  split; [|split].
  - intros H. rewrite H in Hrank. by destruct (Deal.pctOff d').
  - intros H. by rewrite H in Hrank.
  - intros n n' Hn Hn'. by rewrite Hn, Hn' in Hrank.
Qed.

(** ** An ingredient without a first word *)

Lemma includes_empty (s : string) : includes s "" = true.
Proof. rewrite includes_unfold. by destruct s. Qed.

(** X5.  A used ingredient whose name is empty or begins with a space has
    the empty token: it makes every coupon match, and it is attributed a
    sale item as soon as the request holds one. *)
Theorem ingredient_without_first_word_matches_all
    (ingredients : list SaleItem.t) (lookup : Lookup)
    (used : list Ingredient.t) (ing : Ingredient.t) (rest : string) :
  Ingredient.name ing = ""%string ∨ Ingredient.name ing = String " " rest →
  In ing used →
  token_of (Ingredient.name ing) = ""%string ∧
  (∀ c, coupon_matches used c = true) ∧
  (ingredients ≠ [] → is_Some (deal_of lookup ingredients ing)).
Proof.
  intros Hname Hin.
  assert (Htoken : token_of (Ingredient.name ing) = ""%string).
  { unfold token_of. destruct Hname as [->| ->].
    - by rewrite toLowerCase_ascii.
    - by rewrite toLowerCase_space. }
  split; [done|]. split.
  - intros c. unfold coupon_matches. apply existsb_exists.
    exists ing. split; [done|]. rewrite Htoken. apply includes_empty.
  - intros Hne. unfold deal_of, found_for, find_deal, lookup_get. rewrite Htoken.
    destruct (own lookup !! ""%string); [eauto|].
    assert (inherited_get (prototype lookup) "" = None) as ->.
    { unfold inherited_get. by destruct (prototype lookup). }
    destruct ingredients as [|i l]; [done|]. cbn. rewrite includes_empty. eauto.
Qed.

(** ** The site gate and the login *)

Lemma split_nonempty (sep : ascii) (s : string) : split sep s ≠ [].
Proof.
  destruct s as [|c s]; cbn -[Ascii.eqb white_space]; [done|].
  destruct (Ascii.eqb c sep); [done|]. by destruct (split sep s).
Qed.

Lemma append_nil (s : string) : (EmptyString ++ s)%string = s.
Proof. reflexivity. Qed.

Lemma append_cons (c : ascii) (a b : string) : (String c a ++ b)%string = String c (a ++ b).
Proof. reflexivity. Qed.

Lemma split_app (sep : ascii) (a b : string) :
  split sep (a ++ String sep b) = split sep a ++ split sep b.
Proof.
  induction a as [|c a IH]; rewrite ?append_nil, ?append_cons; cbn -[Ascii.eqb white_space].
  - by rewrite Ascii.eqb_refl.
  - destruct (Ascii.eqb c sep); [by rewrite IH|].
    rewrite IH. pose proof (split_nonempty sep a).
    by destruct (split sep a).
Qed.

Lemma split_no_sep (sep : ascii) (s : string) :
  has_char sep s = false → split sep s = [s].
Proof.
  induction s as [|c s IH]; cbn -[Ascii.eqb white_space]; [done|].
  intros [Hc Hs]%orb_false_iff. rewrite Hc. by rewrite IH.
Qed.

Lemma split_pieces (sep : ascii) (s piece : string) :
  piece ∈ split sep s → has_char sep piece = false.
Proof.
  revert piece. induction s as [|c s IH]; cbn -[Ascii.eqb white_space]; intros piece.
  - by intros ->%list_elem_of_singleton.
  - destruct (Ascii.eqb c sep) eqn:Hc.
    + intros [->|H]%elem_of_cons; [done|by apply IH].
    + destruct (split sep s) as [|p ps]; cbn -[Ascii.eqb white_space].
      * intros ->%list_elem_of_singleton. cbn -[Ascii.eqb white_space]. by rewrite Hc.
      * intros [->|H]%elem_of_cons.
        -- cbn -[Ascii.eqb white_space]. rewrite Hc. cbn -[Ascii.eqb white_space]. apply IH. by left.
        -- apply IH. by right.
Qed.

Lemma has_char_app (c : ascii) (a b : string) :
  has_char c (a ++ b) = has_char c a || has_char c b.
Proof.
  induction a as [|c' a IH]; rewrite ?append_nil, ?append_cons; cbn -[Ascii.eqb white_space];
    [done|].
  by rewrite IH, orb_assoc.
Qed.

Lemma has_char_trimStart (c : ascii) (s : string) :
  has_char c (trimStart s) = true → has_char c s = true.
Proof.
  induction s as [|c' s IH]; cbn -[Ascii.eqb white_space]; [done|].
  destruct (white_space c'); [|done].
  intros H. rewrite (IH H). apply orb_true_r.
Qed.

Lemma has_char_trimEnd (c : ascii) (s : string) :
  has_char c (trimEnd s) = true → has_char c s = true.
Proof.
  induction s as [|c' s IH]; cbn -[Ascii.eqb white_space]; [done|].
  destruct (trimEnd s) as [|c'' t] eqn:Ht.
  - destruct (white_space c'); cbn -[Ascii.eqb white_space]; [done|].
    rewrite orb_false_r. intros ->. done.
  - cbn -[Ascii.eqb white_space] in *. intros [->|H]%orb_true_iff; [done|].
    rewrite (IH H). apply orb_true_r.
Qed.

Lemma trimEnd_ends (s : string) : ends_with_white_space (trimEnd s) = false.
Proof.
  induction s as [|c s IH]; cbn -[Ascii.eqb white_space]; [done|].
  destruct (trimEnd s) as [|c' t] eqn:Ht.
  - by destruct (white_space c) eqn:Hc; cbn -[Ascii.eqb white_space]; [|rewrite Hc].
  - exact IH.
Qed.

Lemma trimEnd_id (s : string) : ends_with_white_space s = false → trimEnd s = s.
Proof.
  induction s as [|c s IH]; cbn -[Ascii.eqb white_space]; [done|].
  destruct s as [|c' s]; cbn -[Ascii.eqb white_space] in *; [by intros ->|].
  intros H. specialize (IH H). by rewrite IH.
Qed.

Lemma ends_with_white_space_app (a : string) (c : ascii) (b : string) :
  ends_with_white_space (a ++ String c b) = ends_with_white_space (String c b).
Proof.
  induction a as [|c' a IH]; [done|].
  rewrite append_cons.
  cbn [ends_with_white_space]. destruct (a ++ String c b)%string eqn:Heq; [|done].
  by destruct a.
Qed.

Lemma site_cookie_has_char (pw : option string) :
  has_char ";" (site_cookie pw) = has_char ";" (to_string pw).
Proof. reflexivity. Qed.

Lemma site_cookie_ends (pw : option string) :
  ends_with_white_space (site_cookie pw) = ends_with_white_space (to_string pw).
Proof.
  unfold site_cookie. destruct (to_string pw) as [|c t]; [done|].
  apply ends_with_white_space_app.
Qed.

Lemma trim_site_cookie (pw : option string) (w : string) :
  w = EmptyString ∨ w = " "%string →
  ends_with_white_space (to_string pw) = false →
  trim (w ++ site_cookie pw) = site_cookie pw.
Proof.
  intros Hw Hends. rewrite <- site_cookie_ends in Hends.
  apply trimEnd_id in Hends.
  destruct Hw as [-> | ->]; exact Hends.
Qed.

Lemma append_assoc (a b c : string) : ((a ++ b) ++ c)%string = (a ++ (b ++ c))%string.
Proof. induction a as [|x a IH]; rewrite ?append_nil, ?append_cons; [done|]. by rewrite IH. Qed.

Lemma join_cons (sep x : string) (l : list string) :
  l ≠ [] → join sep (x :: l) = (x ++ sep ++ join sep l)%string.
Proof. by destruct l. Qed.

Lemma site_cookie_among (pw : option string) (before after : list string) (w : string) :
  w = EmptyString ∨ w = " "%string →
  has_char ";" (to_string pw) = false →
  ends_with_white_space (to_string pw) = false →
  site_cookie pw ∈ trim <$> split ";" (w ++ join "; " (before ++ site_cookie pw :: after)).
Proof.
  intros Hw Hsemi Hends. revert w Hw.
  assert (Hpiece : ∀ w, w = EmptyString ∨ w = " "%string →
            split ";" (w ++ site_cookie pw) = [(w ++ site_cookie pw)%string]).
  { intros w Hw. apply split_no_sep. rewrite has_char_app, site_cookie_has_char, Hsemi.
    by destruct Hw as [-> | ->]. }
  induction before as [|x before IH]; intros w Hw.
  - rewrite app_nil_l. destruct after as [|y after].
    + cbn [join]. rewrite Hpiece by done. cbn [fmap list_fmap].
      rewrite trim_site_cookie by done. by left.
    + rewrite join_cons by done.
      change ("; " ++ join "; " (y :: after))%string
        with (String ";" (" " ++ join "; " (y :: after))).
      rewrite <- append_assoc, split_app, Hpiece by done. cbn [app fmap list_fmap].
      rewrite trim_site_cookie by done. by left.
  - rewrite <- app_comm_cons, join_cons by (by destruct before).
    change ("; " ++ join "; " (before ++ site_cookie pw :: after))%string
      with (String ";" (" " ++ join "; " (before ++ site_cookie pw :: after))).
    rewrite <- append_assoc, split_app, fmap_app. apply elem_of_app. right.
    apply IH. by right.
Qed.

Lemma site_gate_next (pw : option string) (path : string) (cookie : string) :
  site_cookie pw ∈ trim <$> split ";" cookie →
  site_gate pw path (Some cookie) = Next.
Proof.
  intros (piece & Hpiece & Hin)%list_elem_of_fmap.
  unfold site_gate. destruct (open_path path); [done|].
  assert (Hsome : existsb (fun c => String.eqb (trim c) (site_cookie pw))
                    (split ";" (or_string (Some cookie) "")) = true).
  { apply existsb_exists. exists piece. split.
    - apply list_elem_of_In. cbn. destruct (String.eqb_spec cookie ""); [|done].
      subst cookie. cbn in Hin. apply list_elem_of_singleton in Hin. subst piece.
      by destruct pw.
    - apply String.eqb_eq. done. }
  by rewrite Hsome.
Qed.

(** X6.  When the login accepts a body, the header it sets begins with the
    pair [site_auth=...], and a [Cookie] header that holds this pair,
    alone or among other cookies, passes the gate on every path,
    provided the configured password has no semicolon and does not end
    in white space. *)
Theorem login_cookie_passes_gate
    (SITE_PASSWORD : option string) (body : gmap string Json) (set_cookie : string)
    (path : string) (before after : list string) :
  site_login SITE_PASSWORD body = LoginOk set_cookie →
  has_char ";" (to_string SITE_PASSWORD) = false →
  ends_with_white_space (to_string SITE_PASSWORD) = false →
  hd EmptyString (split ";" set_cookie) = site_cookie SITE_PASSWORD ∧
  site_gate SITE_PASSWORD path
    (Some (join "; " (before ++ site_cookie SITE_PASSWORD :: after))) = Next.
Proof.
  intros Hlogin Hsemi Hends. split.
  - unfold site_login in Hlogin.
    destruct (is_site_password _ _); [|done]. injection Hlogin as <-.
    change ("; Path=/; HttpOnly; Max-Age=86400")%string
      with (String ";" " Path=/; HttpOnly; Max-Age=86400").
    rewrite split_app, split_no_sep by (by rewrite site_cookie_has_char). done.
  - apply site_gate_next.
    apply (site_cookie_among SITE_PASSWORD before after EmptyString); auto.
Qed.

(** X7.  On a path that the gate guards, some [Cookie] header passes the
    gate exactly when the configured password has no semicolon and does
    not end in white space: with any other password every request is
    sent to the login page, whatever cookie it carries. *)
Theorem gate_can_open_iff (SITE_PASSWORD : option string) (path : string) :
  open_path path = false →
  (∃ cookie, site_gate SITE_PASSWORD path cookie = Next) ↔
  has_char ";" (to_string SITE_PASSWORD) = false ∧
  ends_with_white_space (to_string SITE_PASSWORD) = false.
Proof.
  intros Hpath. split.
  - intros [cookie Hnext]. unfold site_gate in Hnext. rewrite Hpath in Hnext.
    destruct (existsb _ _) eqn:Hsome; [|done].
    apply existsb_exists in Hsome as (piece & Hin%list_elem_of_In & Heq%String.eqb_eq).
    apply split_pieces in Hin. split.
    + rewrite <- site_cookie_has_char, <- Heq.
      destruct (has_char ";" (trim piece)) eqn:Htrim; [|done].
      apply has_char_trimEnd, has_char_trimStart in Htrim. congruence.
    + rewrite <- site_cookie_ends, <- Heq. apply trimEnd_ends.
  - intros [Hsemi Hends]. exists (Some (site_cookie SITE_PASSWORD)).
    apply site_gate_next.
    apply (site_cookie_among SITE_PASSWORD [] [] EmptyString); auto.
Qed.

(** ** The grocer's account *)

Lemma kroger_success_ne : kroger_success ≠ kroger_error.
Proof. intros H. vm_compute in H. discriminate. Qed.

Lemma krogerProfile_truthy (answer : IdentityAnswer) (profile : Json) :
  krogerProfile answer = inr profile → truthy profile = true.
Proof.
  destruct answer as [message| |data]; cbn; [done|by intros [= <-]|].
  destruct data as [data|]; [|by intros [= <-]].
  destruct (truthy data) eqn:Hdata; by intros [= <-].
Qed.

Lemma kroger_callback_inv
    (code_endpoint : string → CodeAnswer) (identity_endpoint : string → IdentityAnswer)
    (connected_at : Z) (stored : bool) (code state error : option string)
    (a a' : Accounts) (profiles profiles' : gmap string (gmap string Json)) (url : string) :
  kroger_callback code_endpoint identity_endpoint connected_at stored code state error a profiles
  = (a', profiles', url) →
  (url = kroger_error ∧ a' = a ∧ profiles' = profiles) ∨
  ∃ c access_token refresh_token expires_in profile,
    or_null error = None ∧ or_null code = Some c ∧
    code_endpoint c = CodeGranted access_token refresh_token expires_in ∧
    krogerProfile (identity_endpoint access_token) = inr profile ∧
    url = kroger_success ∧
    let krogerData :=
      {| KrogerData.accessToken := access_token;
         KrogerData.refreshToken := refresh_token;
         KrogerData.expiresAt := connected_at + expires_in * 1000 |} in
    a' = match state with
         | Some userId =>
             {| server :=
                  {| krogerTokens := <[userId := krogerData]> (krogerTokens (server a));
                     calls := calls (server a) |};
                krogerProfiles := <[userId := profile]> (krogerProfiles a);
                unnamed := unnamed a |}
         | None =>
             {| server := server a; krogerProfiles := krogerProfiles a;
                unnamed := Some (krogerData, profile) |}
         end ∧
    profiles' = (if bool_decide (state = Some "anonymous"%string) then profiles
                 else set_connected stored true (to_string state) profiles).
Proof.
  unfold kroger_callback.
  destruct (or_null error) as [e|] eqn:He; [intros [= <- <- <-]; by left|].
  destruct (or_null code) as [c|] eqn:Hc; [|intros [= <- <- <-]; by left].
  destruct (code_endpoint c) as [m|t|access_token refresh_token expires_in] eqn:Hcode;
    [intros [= <- <- <-]; by left..|].
  destruct (krogerProfile _) as [m|profile] eqn:Hprofile; [intros [= <- <- <-]; by left|].
  intros [= <- <- <-]. right.
  exists c, access_token, refresh_token, expires_in, profile. done.
Qed.




(** X9.  When the callback redirects to the success page for the user that
    [state] names, the token endpoint granted the code; a request of
    that user to [/api/coupons] before the expiry granted sends no
    refresh request and carries the granted access token, and its reply
    is 200 unless one of the two answers makes the handler throw; from
    the expiry on it first sends a refresh request with the refresh
    token granted; and [GET /api/profile] reports the user as
    connected, with the profile read at the callback, even when the
    table did not record the connection. *)
Theorem callback_connects_the_named_user
    (code_endpoint : string → CodeAnswer) (identity_endpoint : string → IdentityAnswer)
    (connected_at : Z) (stored : bool) (code error : option string) (user_id : string)
    (a a' : Accounts) (profiles profiles' : gmap string (gmap string Json))
    (identity : string → option string) (authorization : option string)
    (env : Env) (coupons_endpoint : string → Answer) (boost_endpoint : string → Boost)
    (no_row : string) :
  kroger_callback code_endpoint identity_endpoint connected_at stored
    code (Some user_id) error a profiles = (a', profiles', kroger_success) →
  getUser identity authorization = Some user_id →
  ∃ c access_token refresh_token expires_in profile,
    code = Some c ∧
    code_endpoint c = CodeGranted access_token refresh_token expires_in ∧
    krogerProfile (identity_endpoint access_token) = inr profile ∧
    (now env < connected_at + expires_in * 1000 →
       api_coupons env identity coupons_endpoint boost_endpoint authorization (server a')
       = (send (BoostCall access_token) (send (CouponsCall access_token) (server a')),
          coupons_reply (coupons_endpoint access_token) (boost_endpoint access_token))) ∧
    (connected_at + expires_in * 1000 ≤ now env →
       ∃ rest,
         calls (api_coupons env identity coupons_endpoint boost_endpoint authorization (server a')).1
         = calls (server a') ++ RefreshCall refresh_token :: rest) ∧
    (∀ data, get_profile identity None no_row authorization a' profiles' = Profile200 data →
       data !! "kroger_connected"%string = Some (JBool true) ∧
       data !! "kroger_profile"%string = Some profile).
Proof.
  intros [(Hurl & _)|
    (c & access_token & refresh_token & expires_in & profile &
     He & Hc & Hcode & Hprofile & _ & -> & ->)]%kroger_callback_inv Huser;
    [by apply kroger_success_ne in Hurl|].
  exists c, access_token, refresh_token, expires_in, profile.
  split; [|split; [done|split; [done|split; [|split]]]].
  - destruct code as [code|]; [|done]. cbn in Hc.
    destruct (String.eqb code ""); congruence.
  - intros Hfresh. unfold api_coupons. rewrite Huser. cbn [server krogerTokens].
    rewrite lookup_insert_eq. by rewrite refresh_if_expired_fresh by done.
  - intros Hstale. unfold api_coupons. rewrite Huser. cbn [server krogerTokens].
    rewrite lookup_insert_eq. rewrite refresh_if_expired_stale by done.
    cbn [KrogerData.refreshToken].
    destruct (token_endpoint env refresh_token); cbn; eauto.
    rewrite <- !app_assoc. eauto.
  - intros data. unfold get_profile. rewrite Huser. cbn [server krogerTokens krogerProfiles].
    destruct (_ !! user_id) as [row|] eqn:Hrow; [|done].
    rewrite !lookup_insert_eq, (krogerProfile_truthy _ _ Hprofile).
    intros [= <-]. rewrite lookup_insert_eq.
    rewrite lookup_insert_ne, lookup_insert_eq by done.
    done.
Qed.

(** X10.  After a disconnect by an authenticated user, that user's requests
    to [/api/coupons] and [/api/cart] are answered 401 and send
    nothing, and [GET /api/profile] reports the user as not connected,
    even when the table still says otherwise; the accounts and the rows
    of the other users are as before. *)
Theorem disconnect_forgets_the_caller_only
    (identity : string → option string) (stored : bool) (authorization : option string)
    (a : Accounts) (profiles : gmap string (gmap string Json)) (user_id : string)
    (env : Env) (coupons_endpoint cart_endpoint : string → Answer)
    (boost_endpoint : string → Boost)
    (items : option (list CartItem.t)) (no_row : string) :
  getUser identity authorization = Some user_id →
  let after := kroger_disconnect identity stored authorization a profiles in
  api_coupons env identity coupons_endpoint boost_endpoint authorization (server after.1)
  = (server after.1, Reply401 "Kroger not connected") ∧
  api_cart env identity cart_endpoint authorization items (server after.1)
  = (server after.1, Reply401 "Kroger not connected") ∧
  calls (server after.1) = calls (server a) ∧
  (∀ data, get_profile identity None no_row authorization after.1 after.2 = Profile200 data →
     data !! "kroger_connected"%string = Some (JBool false) ∧
     data !! "kroger_profile"%string = Some JNull) ∧
  (∀ other, other ≠ user_id →
     krogerTokens (server after.1) !! other = krogerTokens (server a) !! other ∧
     krogerProfiles after.1 !! other = krogerProfiles a !! other ∧
     after.2 !! other = profiles !! other).
Proof.
  intros Huser. cbn zeta. unfold kroger_disconnect. rewrite Huser. cbn [fst snd].
  split; [|split; [|split; [done|split]]].
  - unfold api_coupons. rewrite Huser. cbn [server krogerTokens].
    by rewrite lookup_delete_eq.
  - unfold api_cart. rewrite Huser. cbn [server krogerTokens].
    by rewrite lookup_delete_eq.
  - intros data. unfold get_profile. rewrite Huser. cbn [server krogerTokens krogerProfiles].
    destruct (_ !! user_id) as [row|] eqn:Hrow; [|done].
    rewrite !lookup_delete_eq. intros [= <-].
    rewrite lookup_insert_eq, lookup_insert_ne, lookup_insert_eq by done.
    done.
  - intros other Hother. cbn [server krogerTokens krogerProfiles].
    rewrite !lookup_delete_ne by done. split; [done|]. split; [done|].
    unfold set_connected. destruct stored; [|done]. by rewrite lookup_alter_ne.
Qed.

(** ** Requests without a bearer token *)

Lemma getUser_no_bearer (identity : string → option string) (authorization : option string) :
  (∀ auth, authorization = Some auth → String.prefix "Bearer " auth = false) →
  getUser identity authorization = None.
Proof.
  intros H. unfold getUser. destruct authorization as [auth|]; [|done]. cbn.
  by rewrite (H auth eq_refl).
Qed.

(** X11.  A request whose [Authorization] header is absent or does not begin
    with [Bearer ] is answered 401 by the coupon, cart and profile
    handlers, whatever the identity provider would say of it; it
    changes no credential and no row and sends nothing, and a
    disconnect changes nothing either. *)
Theorem no_bearer_no_effect
    (identity : string → option string) (authorization : option string)
    (env : Env) (coupons_endpoint cart_endpoint : string → Answer)
    (boost_endpoint : string → Boost)
    (items : option (list CartItem.t)) (s : Server)
    (refuses : gmap string Json → option string) (unavailable : option string)
    (no_row timestamp : string) (body : gmap string Json)
    (stored : bool) (a : Accounts) (profiles : gmap string (gmap string Json)) :
  (∀ auth, authorization = Some auth → String.prefix "Bearer " auth = false) →
  api_coupons env identity coupons_endpoint boost_endpoint authorization s = (s, Reply401 "Not authenticated") ∧
  api_cart env identity cart_endpoint authorization items s = (s, Reply401 "Not authenticated") ∧
  patch_profile identity refuses no_row timestamp authorization body profiles
  = (profiles, Profile401 "Not authenticated") ∧
  get_profile identity unavailable no_row authorization a profiles
  = Profile401 "Not authenticated" ∧
  kroger_disconnect identity stored authorization a profiles = (a, profiles).
Proof.
  intros Hauth. pose proof (getUser_no_bearer identity authorization Hauth) as Huser.
  unfold api_coupons, api_cart, patch_profile, get_profile, kroger_disconnect.
  by rewrite Huser.
Qed.

(** ** The query sent to the recipe search *)

(** X12.  The query excludes the ingredients of the kosher list whenever the
    diets name [Kosher], those of the halal list when they name [Halal]
    and not [Kosher], and none otherwise: with both diets, gelatin,
    alcohol, wine and beer are not excluded. *)
Theorem kosher_replaces_halal
    (native : string → string) (apiKey : option string) (ingredients : list SaleItem.t)
    (mealType : option string) (diets : option (list string)) (offset : option string) :
  params_get "excludeIngredients"
    (search_params native apiKey ingredients mealType diets offset) =
  if diets_include diets "Kosher" then Some "pork,shellfish,bacon,lard"%string
  else if diets_include diets "Halal"
       then Some "pork,bacon,lard,gelatin,alcohol,wine,beer"%string
       else None.
Proof.
  unfold search_params.
  generalize (typeStr native mealType) (dietStr native diets). intros type diet.
  by destruct (nonempty diet),
    (diets_include diets "Halal"), (diets_include diets "Kosher"),
    (diets_include diets "Low Calorie"), (diets_include diets "High Fiber").
Qed.

(** X13.  The query names no parameter twice.  It begins with the same ten
    parameters in the same order; [includeIngredients] joins the names
    of the first twenty ingredients of the request, and the later ones
    play no part; [type] is what the table of meal types gives, and
    [diet] joins what the table of diets gives for every diet of the
    request, the first one included, and is never sent empty. *)
Theorem search_params_well_formed
    (native : string → string) (apiKey : option string) (ingredients : list SaleItem.t)
    (mealType : option string) (diets : option (list string)) (offset : option string) :
  let params := search_params native apiKey ingredients mealType diets offset in
  NoDup (map fst params) ∧
  map fst (take 10 params)
  = ["apiKey"; "includeIngredients"; "type"; "number"; "offset"; "sort"; "sortDirection";
     "addRecipeInformation"; "fillIngredients"; "instructionsRequired"]%string ∧
  params_get "includeIngredients" params
  = Some (join "," (map SaleItem.name (take 20 ingredients))) ∧
  params_get "type" params = Some (typeStr native mealType) ∧
  params_get "diet" params
  = (if nonempty (dietStr native diets) then Some (dietStr native diets) else None) ∧
  dietStr native diets
  = join "," (map text (List.filter truthy_value (map (diet_of native) (default [] diets)))) ∧
  params_get "diet" params ≠ Some EmptyString ∧
  ∀ ingredients', take 20 ingredients' = take 20 ingredients →
    search_params native apiKey ingredients' mealType diets offset = params.
Proof.
  intros params.
  assert (Hmore : ∀ ingredients', take 20 ingredients' = take 20 ingredients →
    search_params native apiKey ingredients' mealType diets offset = params).
  { intros ingredients' Htake. subst params. unfold search_params, slice.
    by rewrite !drop_0, Nat.sub_0_r, Htake. }
  assert (Hdiets : dietStr native diets
                   = join "," (map text (List.filter truthy_value
                                           (map (diet_of native) (default [] diets))))).
  { by destruct diets as [[|d more]|]. }
  enough (NoDup (map fst params) ∧
          map fst (take 10 params)
          = ["apiKey"; "includeIngredients"; "type"; "number"; "offset"; "sort";
             "sortDirection"; "addRecipeInformation"; "fillIngredients";
             "instructionsRequired"]%string ∧
          params_get "includeIngredients" params
          = Some (join "," (map SaleItem.name (take 20 ingredients))) ∧
          params_get "type" params = Some (typeStr native mealType) ∧
          params_get "diet" params
          = (if nonempty (dietStr native diets) then Some (dietStr native diets) else None) ∧
          params_get "diet" params ≠ Some EmptyString)
    as (? & ? & ? & ? & ? & ?) by done.
  clear Hmore Hdiets. subst params. unfold search_params, slice. rewrite drop_0, Nat.sub_0_r.
  generalize (join "," (map SaleItem.name (take 20 ingredients))). intros ingredientStr.
  generalize (typeStr native mealType) (dietStr native diets). intros type diet.
  destruct (nonempty diet) eqn:Hdiet,
    (diets_include diets "Halal"), (diets_include diets "Kosher"),
    (diets_include diets "Low Calorie"), (diets_include diets "High Fiber");
    cbn;
    (split; [apply (bool_decide_unpack _); by vm_compute|]);
    (split; [done|]); (split; [done|]); (split; [done|]); (split; [done|]);
    try done;
    intros [= ->]; done.
Qed.

(** ** Two patches of the same profile *)

(** X14.  When a user patches the profile twice and the store accepts both
    updates, each allowed column holds the value of the second body if
    that body defines it, otherwise the value of the first body,
    otherwise the old value; [updated_at] is the second timestamp, and
    no other column changes.  Sending the same body again with the same
    timestamp changes nothing. *)
Theorem later_patch_wins
    (identity : string → option string) (refuses : gmap string Json → option string)
    (no_row first_at second_at : string) (authorization : option string)
    (first second : gmap string Json) (profiles : gmap string (gmap string Json))
    (user_id : string) (row : gmap string Json) :
  getUser identity authorization = Some user_id →
  profiles !! user_id = Some row →
  refuses (profile_updates first first_at) = None →
  refuses (profile_updates second second_at) = None →
  let after_first :=
    patch_profile identity refuses no_row first_at authorization first profiles in
  let after_second :=
    patch_profile identity refuses no_row second_at authorization second after_first.1 in
  (∃ row',
     after_second = (<[user_id := row']> profiles, Profile200 row') ∧
     row' !! "updated_at"%string = Some (JString second_at) ∧
     (∀ key, key ∈ allowed →
        row' !! key =
        match second !! key with
        | Some value => Some value
        | None => match first !! key with Some value => Some value | None => row !! key end
        end) ∧
     (∀ column, column ∉ allowed → column ≠ "updated_at"%string →
        row' !! column = row !! column)) ∧
  (second = first → second_at = first_at → after_second = after_first).
Proof.
  intros Huser Hrow Hfirst Hsecond. cbn zeta.
  unfold patch_profile. rewrite Huser, Hfirst, Hrow. cbn [fst].
  rewrite Hsecond, lookup_insert_eq, insert_insert_eq.
  set (row' := profile_updates second second_at ∪ (profile_updates first first_at ∪ row)).
  assert (Hlookup : ∀ k, row' !! k =
            if decide (k = "updated_at"%string) then Some (JString second_at)
            else if decide (k ∈ allowed)
                 then match second !! k with
                      | Some value => Some value
                      | None => match first !! k with
                                | Some value => Some value
                                | None => row !! k
                                end
                      end
                 else row !! k).
  { intros k. subst row'. rewrite !lookup_union, !profile_updates_lookup.
    destruct (decide (k = "updated_at"%string)); [by destruct (row !! k)|].
    destruct (decide (k ∈ allowed)).
    - by destruct (second !! k), (first !! k), (row !! k).
    - by destruct (row !! k). }
  split.
  - exists row'. split; [done|]. split; [|split].
    + by rewrite Hlookup.
    + intros key Hkey. rewrite Hlookup.
      destruct (decide (key = "updated_at"%string)) as [->|?]; [|by rewrite decide_True].
      exfalso. revert Hkey. unfold allowed. set_solver.
    + intros column Hcolumn Hstamp. rewrite Hlookup.
      by rewrite decide_False, decide_False.
  - intros -> ->. subst row'. f_equal.
    + f_equal. by rewrite (assoc_L (∪)), (idemp_L (∪)).
    + f_equal. by rewrite (assoc_L (∪)), (idemp_L (∪)).
Qed.

(** ** The stores of a zip code *)

Lemma or_string_nonempty (a : option string) (b : string) :
  b ≠ EmptyString → or_string a b ≠ EmptyString.
Proof.
  intros Hb. unfold or_string. destruct a as [s|]; [|done].
  by destruct (String.eqb_spec s "").
Qed.

(** X15.  When the handler replies with stores, it was given a zip code that
    is not empty and a token; the stores are the locations found, one
    for one and in their order, under their identifiers; and every
    store has a name that is not empty: the chain if the location has
    one, otherwise its name, otherwise [Kroger]. *)
Theorem stores_are_the_locations_named
    (token_endpoint : TokenAnswer) (locations : string → string → Located)
    (zip : option string) (stores : list Store.t) :
  api_stores token_endpoint locations zip = Stores200 stores →
  ∃ z token data,
    zip = Some z ∧ z ≠ EmptyString ∧
    getAppToken token_endpoint = inl token ∧
    locations token z = Locations data ∧
    map Store.id stores = map Location.locationId (default [] data) ∧
    Forall (fun store => Store.name store ≠ EmptyString) stores ∧
    Forall2 (fun loc store =>
               match or_null (Location.chain loc), or_null (Location.name loc) with
               | Some chain, _ => Store.name store = chain
               | None, Some name => Store.name store = name
               | None, None => Store.name store = "Kroger"%string
               end)
            (default [] data) stores.
Proof.
  unfold api_stores.
  destruct zip as [z|]; [|done]. cbn [or_null].
  destruct (String.eqb_spec z ""); [done|].
  destruct (getAppToken token_endpoint) as [token|message] eqn:Htoken; [|done].
  destruct (locations token z) as [m|t|m|data] eqn:Hdata; try done.
  intros [= <-]. exists z, token, data. repeat split; try done.
  - by rewrite map_map.
  - apply Forall_map, Forall_forall. intros loc _. cbn.
    by do 2 apply or_string_nonempty.
  - induction (default [] data) as [|loc l IH]; cbn; constructor; [|exact IH].
    destruct loc as [id chain name address hours]. cbn. unfold or_string, or_null.
    destruct chain as [chain|], name as [name|];
      repeat (match goal with |- context [String.eqb ?s ""] => destruct (String.eqb s "") end);
      done.
Qed.

(** ** The estimated cost of a recipe *)

Lemma toFixed2_monotone (x y : Q) : (x <= y)%Q → toFixed2 x ≤ toFixed2 y.
Proof.
  intros Hxy. unfold toFixed2.
  destruct (Qltb x 0) eqn:Hx, (Qltb y 0) eqn:Hy.
  - apply Qltb_lt in Hx, Hy.
    assert (Qfloor (- y * 100 + (1 # 2)) ≤ Qfloor (- x * 100 + (1 # 2)))
      by (apply Qfloor_resp_le; lra).
    lia.
  - apply Qltb_lt in Hx. apply Qltb_ge in Hy.
    assert (Qfloor 0 ≤ Qfloor (- x * 100 + (1 # 2))) by (apply Qfloor_resp_le; lra).
    assert (Qfloor 0 ≤ Qfloor (y * 100 + (1 # 2))) by (apply Qfloor_resp_le; lra).
    change (Qfloor 0) with 0 in *. lia.
  - apply Qltb_ge in Hx. apply Qltb_lt in Hy. lra.
  - apply Qfloor_resp_le. lra.
Qed.

Lemma round2_mono (x y : Q) : (x <= y)%Q → (round2 x <= round2 y)%Q.
Proof.
  intros Hxy. unfold round2, parseFloat. apply fl_mono.
  pose proof (toFixed2_monotone x y Hxy) as Hle.
  assert (inject_Z (toFixed2 x) <= inject_Z (toFixed2 y))%Q
    by (rewrite <- Zle_Qle; exact Hle).
  unfold Qdiv. apply Qmult_le_compat_r; [done|]. discriminate.
Qed.

(** X16.  Of two recipes with the same used ingredients, the one that misses
    more ingredients is never estimated cheaper, whatever the rounding
    of the sums and of the two printed digits does; its sale items, its
    savings and its coupons are the same. *)
Theorem estimated_cost_grows_with_missed_ingredients
    (lookup : Lookup) (ingredients : list SaleItem.t)
    (coupons boostDeals : option (list Coupon.t)) (recipe recipe' : Recipe.t)
    (e e' : Enriched.t) :
  Recipe.usedIngredients recipe' = Recipe.usedIngredients recipe →
  default 0 (Recipe.missedIngredientCount recipe)
  ≤ default 0 (Recipe.missedIngredientCount recipe') →
  enrich lookup ingredients coupons boostDeals recipe = e →
  enrich lookup ingredients coupons boostDeals recipe' = e' →
  (Enriched.estimatedCost e <= Enriched.estimatedCost e')%Q ∧
  Enriched.usedSaleItems e' = Enriched.usedSaleItems e ∧
  Enriched.totalSavings e' = Enriched.totalSavings e ∧
  Enriched.couponsToClip e' = Enriched.couponsToClip e.
Proof.
  intros Hused Hmissed. unfold enrich. rewrite Hused.
  intros <- <-. cbn. split; [|done].
  apply round2_mono. unfold plus. apply fl_mono.
  set (m := default 0 (Recipe.missedIngredientCount recipe)) in *.
  set (m' := default 0 (Recipe.missedIngredientCount recipe')) in *.
  assert (Hm : (inject_Z m <= inject_Z m')%Q) by (rewrite <- Zle_Qle; exact Hmissed).
  assert (Hhalf : (fl (inject_Z m * (1 # 2)) <= fl (inject_Z m' * (1 # 2)))%Q)
    by (apply fl_mono; lra).
  lra.
Qed.

(** ** The saved recipes *)

Lemma recipe_from (body : gmap string Json) (keys : list string)
    (acc : gmap string Json) (k : string) :
  foldl
    (fun row key =>
       match body !! key with
       | Some value => <[key := value]> row
       | None => row
       end)
    acc keys !! k
  = if decide (k ∈ keys) then match body !! k with Some v => Some v | None => acc !! k end
    else acc !! k.
Proof.
  revert acc. induction keys as [|key keys IH]; intros acc; cbn [foldl].
  - rewrite decide_False by set_solver. done.
  - rewrite IH. destruct (decide (k = key)) as [->|Hne].
    + rewrite (decide_True (P := key ∈ key :: keys)) by set_solver.
      destruct (body !! key) as [v|] eqn:Hv.
      * rewrite lookup_insert_eq. by destruct (decide (key ∈ keys)).
      * by destruct (decide (key ∈ keys)).
    + assert (Hacc : match body !! key with
                     | Some value => <[key := value]> acc
                     | None => acc
                     end !! k = acc !! k)
        by (destruct (body !! key); [by rewrite lookup_insert_ne|done]).
      rewrite Hacc.
      destruct (decide (k ∈ keys)) as [Hin|Hnin].
      * by rewrite (decide_True (P := k ∈ key :: keys)) by set_solver.
      * by rewrite (decide_False (P := k ∈ key :: keys)) by set_solver.
Qed.

Lemma filter_keeps_all {A : Type} (f : A → bool) (l : list A) :
  Forall (fun x => f x = true) l → List.filter f l = l.
Proof.
  induction 1 as [|x l Hx _ IH]; cbn; [done|]. by rewrite Hx, IH.
Qed.

(** X17.  When a user saves a recipe and the store accepts it under an
    identifier that no row had, the row belongs to that user whatever
    the body says, and holds the nine recipe members of the body and
    nothing else of it.  The user's list then holds the row, and only
    rows of that user; a [DELETE] of the identifier by the user gives
    back the table from before.  The list of any other user is the one
    from before, and a [DELETE] of the identifier by another user is
    answered with success and removes nothing. *)
Theorem saved_recipe_belongs_to_its_author
    (identity : string → option string)
    (refuses : string → gmap string Json → option string) (id created_at : string)
    (ordered : list SavedRecipe.t → list SavedRecipe.t)
    (authorization : option string) (body : gmap string Json)
    (saved_recipes saved_recipes' : list SavedRecipe.t)
    (user_id : string) (row : SavedRecipe.t) :
  getUser identity authorization = Some user_id →
  (∀ l, Permutation (ordered l) l) →
  Forall (fun old => SavedRecipe.id old ≠ id) saved_recipes →
  post_saved identity refuses id created_at authorization body saved_recipes
  = (saved_recipes', SavedRow row) →
  SavedRecipe.user_id row = user_id ∧
  (∀ key, SavedRecipe.columns row !! key
          = if decide (key ∈ recipe_columns) then body !! key else None) ∧
  (∃ recipes,
     get_saved identity None ordered authorization saved_recipes' = SavedRecipes recipes ∧
     row ∈ recipes ∧
     Forall (fun recipe => SavedRecipe.user_id recipe = user_id) recipes) ∧
  delete_saved identity None authorization id saved_recipes' = (saved_recipes, SavedSuccess) ∧
  (∀ other other_id,
     getUser identity other = Some other_id → other_id ≠ user_id →
     get_saved identity None ordered other saved_recipes'
     = get_saved identity None ordered other saved_recipes ∧
     delete_saved identity None other id saved_recipes' = (saved_recipes', SavedSuccess)).
Proof.
  intros Huser Hordered Hfresh. unfold post_saved. rewrite Huser.
  destruct (refuses user_id (recipe_of body)); [done|].
  intros [= <- <-]. cbn [SavedRecipe.user_id SavedRecipe.columns].
  assert (Hold : ∀ who,
    List.filter
      (fun r => negb (String.eqb (SavedRecipe.id r) id
                      && String.eqb (SavedRecipe.user_id r) who)) saved_recipes
    = saved_recipes).
  { intros who. apply filter_keeps_all. eapply Forall_impl; [exact Hfresh|].
    intros old Hold. cbn. by destruct (String.eqb_spec (SavedRecipe.id old) id). }
  split; [done|]. split; [|split; [|split]].
  - intros key. unfold recipe_of. rewrite recipe_from, lookup_empty.
    destruct (decide (key ∈ recipe_columns)); [|done]. by destruct (body !! key).
  - eexists. unfold get_saved. rewrite Huser. split; [done|]. split.
    + rewrite Hordered, List.filter_app. cbn. rewrite String.eqb_refl.
      apply elem_of_app. right. by left.
    + rewrite Hordered. apply Forall_forall. intros recipe Hin.
      apply list_elem_of_In, filter_In in Hin as [_ Heq]. by apply String.eqb_eq.
  - unfold delete_saved. rewrite Huser, List.filter_app, Hold. cbn.
    rewrite !String.eqb_refl. cbn. by rewrite app_nil_r.
  - intros other other_id Hother Hne. unfold get_saved, delete_saved. rewrite Hother.
    rewrite !List.filter_app, Hold. cbn.
    destruct (String.eqb_spec user_id other_id) as [->|_]; [done|].
    rewrite andb_false_r. cbn. by rewrite app_nil_r.
Qed.

End Further.

(** * The further examples, checked *)

Section FurtherExamples.

#[local] Existing Instance exact.
#[local] Existing Instance ascii_letters.

Lemma fan_out_bounds_requests_in_flight_witness :
  ∃ st,
    fan_out unavailable reversed 8 DEAL_CATEGORIES = Some st ∧
    issued (trace st) = DEAL_CATEGORIES ∧
    ∀ t, t `prefix_of` trace st → (length (issued t) ≤ length (settles t) + 8)%nat.
Proof.
  destruct (fan_out_bounds_requests_in_flight unavailable reversed 8 DEAL_CATEGORIES)
    as (st & Hst & Hissued & _ & Hflight).
  - lia.
  - intros i batch. symmetry. apply Permutation_rev.
  - exists st. split; [exact Hst|]. split; [exact Hissued|].
    intros t Ht. destruct (Hflight t Ht) as [_ Hle]. exact Hle.
Defined.

Lemma schedule_keeps_identifiers_witness :
  length small_deals_in_order = length small_deals ∧
  (list_to_set (map Deal.id small_deals_in_order) : gset string)
  = list_to_set (map Deal.id small_deals).
Proof.
  destruct (schedule_keeps_identifiers granted (fun _ _ => small_catalog) in_order reversed
              3 8 eight_terms (Some "01400943"%string) small_deals_in_order small_deals)
    as [Hlen Hids].
  - lia.
  - lia.
  - intros i batch. reflexivity.
  - intros i batch. symmetry. apply Permutation_rev.
  - vm_compute. reflexivity.
  - vm_compute. reflexivity.
  - split; [exact Hlen|]. apply Hids. cbn. unfold cap. lia.
Defined.

Lemma refreshed_token_serves_next_request_witness :
  calls (api_cart at_6000 known_user (fun _ => Accepted) (Some "Bearer ann-jwt"%string)
           (Some basket)
           (api_coupons at_5000 known_user (fun _ => Accepted) (fun _ => BoostRead)
              (Some "Bearer ann-jwt"%string) two_users).1).1
  = calls (api_coupons at_5000 known_user (fun _ => Accepted) (fun _ => BoostRead)
             (Some "Bearer ann-jwt"%string) two_users).1
    ++ [CartCall "new" [(Some "0001111097139"%string, 1)]].
Proof.
  destruct (refreshed_token_serves_next_request at_5000 at_6000 known_user
              (fun _ => Accepted) (fun _ => Accepted) (fun _ => BoostRead)
              (Some "Bearer ann-jwt"%string)
              basket two_users "ann" stale "new" 1800)
    as (Hcalls & _ & _).
  - reflexivity.
  - vm_compute. reflexivity.
  - cbn. lia.
  - reflexivity.
  - cbn. lia.
  - exact Hcalls.
Defined.

Lemma cheaper_promo_ranks_no_lower_witness :
  ranked_before milk_deal eggs_deal.
Proof.
  destruct (cheaper_promo_ranks_no_lower "dairy" "eggs" milk eggs milk_deal eggs_deal
              4 3 (7 # 2)) as [Hranked _].
  - vm_compute. reflexivity.
  - vm_compute. reflexivity.
  - reflexivity.
  - reflexivity.
  - reflexivity.
  - reflexivity.
  - reflexivity.
  - discriminate.
  - exact Hranked.
Defined.

Lemma ingredient_without_first_word_matches_all_witness :
  coupon_matches [padded] chicken_coupon = true ∧
  is_Some (deal_of (ingredientLookup [chicken]) [chicken] padded).
Proof.
  destruct (ingredient_without_first_word_matches_all [chicken] (ingredientLookup [chicken])
              [padded] padded "chicken")
    as (_ & Hcoupons & Hdeal).
  - right. reflexivity.
  - left. reflexivity.
  - split; [apply Hcoupons|]. apply Hdeal. discriminate.
Defined.

Lemma login_cookie_passes_gate_witness :
  site_gate (Some "open sesame"%string) "/index.html"
    (Some "theme=dark; site_auth=open sesame; lang=en"%string) = Next.
Proof.
  destruct (login_cookie_passes_gate (Some "open sesame"%string) login_body
              "site_auth=open sesame; Path=/; HttpOnly; Max-Age=86400" "/index.html"
              ["theme=dark"%string] ["lang=en"%string])
    as [_ Hgate].
  - vm_compute. reflexivity.
  - reflexivity.
  - reflexivity.
  - exact Hgate.
Defined.

Lemma gate_can_open_iff_witness :
  ¬ ∃ cookie, site_gate (Some "a;b"%string) "/index.html" cookie = Next.
Proof.
  intros Hopen.
  apply (gate_can_open_iff (Some "a;b"%string) "/index.html") in Hopen as [Hsemi _].
  - discriminate Hsemi.
  - reflexivity.
Defined.


Lemma callback_connects_the_named_user_witness :
  api_coupons at_5000 known_user (fun _ => Accepted) (fun _ => BoostRead)
    (Some "Bearer ann-jwt"%string) (server connected)
  = (send (BoostCall "at-1") (send (CouponsCall "at-1") (server connected)), Reply200) ∧
  api_coupons at_5000 known_user (fun _ => Accepted) (fun _ => BoostUnreadable "Unexpected token")
    (Some "Bearer ann-jwt"%string) (server connected)
  = (send (BoostCall "at-1") (send (CouponsCall "at-1") (server connected)),
     Reply500 "Unexpected token").
Proof.
  split.
  - destruct (callback_connects_the_named_user code_endpoint identity_endpoint
                5000 true (Some "code-1"%string) None "ann"
                accounts connected one_profile (set_connected true true "ann" one_profile)
                known_user (Some "Bearer ann-jwt"%string) at_5000
                (fun _ => Accepted) (fun _ => BoostRead) "no row")
      as (c & access_token & refresh_token & expires_in & profile &
          Hc & Hcode & _ & Hcoupons & _ & _).
    + reflexivity.
    + reflexivity.
    + injection Hc as <-. vm_compute in Hcode. injection Hcode as <- <- <-.
      apply Hcoupons. cbn. lia.
  - destruct (callback_connects_the_named_user code_endpoint identity_endpoint
                5000 true (Some "code-1"%string) None "ann"
                accounts connected one_profile (set_connected true true "ann" one_profile)
                known_user (Some "Bearer ann-jwt"%string) at_5000
                (fun _ => Accepted) (fun _ => BoostUnreadable "Unexpected token") "no row")
      as (c & access_token & refresh_token & expires_in & profile &
          Hc & Hcode & _ & Hcoupons & _ & _).
    + reflexivity.
    + reflexivity.
    + injection Hc as <-. vm_compute in Hcode. injection Hcode as <- <- <-.
      apply Hcoupons. cbn. lia.
Defined.

Lemma disconnect_forgets_the_caller_only_witness :
  api_coupons at_5000 known_user (fun _ => Accepted) (fun _ => BoostRead) (Some "Bearer ann-jwt"%string)
    (server (kroger_disconnect known_user false (Some "Bearer ann-jwt"%string)
               connected one_profile).1)
  = (server (kroger_disconnect known_user false (Some "Bearer ann-jwt"%string)
               connected one_profile).1,
     Reply401 "Kroger not connected") ∧
  krogerTokens (server (kroger_disconnect known_user false (Some "Bearer ann-jwt"%string)
                          connected one_profile).1) !! "bob"%string
  = krogerTokens (server connected) !! "bob"%string.
Proof.
  destruct (disconnect_forgets_the_caller_only known_user false
              (Some "Bearer ann-jwt"%string) connected one_profile "ann"
              at_5000 (fun _ => Accepted) (fun _ => Accepted) (fun _ => BoostRead)
              (Some basket) "no row")
    as (Hcoupons & _ & _ & _ & Hothers).
  - reflexivity.
  - split; [exact Hcoupons|].
    destruct (Hothers "bob"%string) as [Htokens _]; [discriminate|]. exact Htokens.
Defined.

Lemma no_bearer_no_effect_witness :
  api_cart at_5000 known_user (fun _ => Accepted) (Some "bearer ann-jwt"%string)
    (Some basket) two_users
  = (two_users, Reply401 "Not authenticated").
Proof.
  destruct (no_bearer_no_effect known_user (Some "bearer ann-jwt"%string) at_5000
              (fun _ => Accepted) (fun _ => Accepted) (fun _ => BoostRead)
              (Some basket) two_users
              never None "no row" "2026-11-03T08:00:00.000Z" patch_body
              false accounts one_profile)
    as (_ & Hcart & _).
  - intros auth [= <-]. reflexivity.
  - exact Hcart.
Defined.

Lemma kosher_replaces_halal_witness :
  params_get "excludeIngredients"
    (search_params node_text (Some "key"%string) [chicken] (Some "Dinner"%string)
       both_diets None)
  = Some "pork,shellfish,bacon,lard"%string.
Proof.
  exact (kosher_replaces_halal node_text (Some "key"%string) [chicken]
           (Some "Dinner"%string) both_diets None).
Defined.

Lemma search_params_well_formed_witness :
  NoDup (map fst (search_params node_text (Some "key"%string) [chicken]
                    (Some "Dinner"%string) both_diets None)) ∧
  params_get "includeIngredients"
    (search_params node_text (Some "key"%string) [chicken] (Some "Dinner"%string)
       both_diets None)
  = Some "Chicken Breast"%string ∧
  params_get "diet"
    (search_params node_text (Some "key"%string) [chicken] (Some "Dinner"%string)
       both_diets None)
  = Some "halal,kosher,whole30"%string.
Proof.
  destruct (search_params_well_formed node_text (Some "key"%string) [chicken]
              (Some "Dinner"%string) both_diets None)
    as (Hnames & _ & Hingredients & _ & Hdiet & _).
  split; [exact Hnames|]. split; [exact Hingredients | exact Hdiet].
Defined.

Lemma later_patch_wins_witness :
  ∃ row',
    patch_profile known_user never "no row" "2026-11-03T09:00:00.000Z"
      (Some "Bearer ann-jwt"%string) household
      (patch_profile known_user never "no row" "2026-11-03T08:00:00.000Z"
         (Some "Bearer ann-jwt"%string) patch_body one_profile).1
    = (<["ann"%string := row']> one_profile, Profile200 row') ∧
    row' !! "updated_at"%string = Some (JString "2026-11-03T09:00:00.000Z") ∧
    row' !! "full_name"%string = Some (JString "Ann B.") ∧
    row' !! "household_size"%string = Some (JNumber 3).
Proof.
  destruct (later_patch_wins known_user never "no row"
              "2026-11-03T08:00:00.000Z" "2026-11-03T09:00:00.000Z"
              (Some "Bearer ann-jwt"%string) patch_body household one_profile "ann" ann_row)
    as [(row' & Hpatch & Hstamp & Hkeys & _) _].
  - reflexivity.
  - vm_compute. reflexivity.
  - reflexivity.
  - reflexivity.
  - exists row'. split; [exact Hpatch|]. split; [exact Hstamp|]. split.
    + rewrite (Hkeys "full_name"%string) by (unfold allowed; set_solver).
      vm_compute. reflexivity.
    + rewrite (Hkeys "household_size"%string) by (unfold allowed; set_solver).
      vm_compute. reflexivity.
Defined.

Lemma stores_are_the_locations_named_witness :
  map Store.name (map to_store [corner_store; nameless]) = ["KROGER"; "Kroger"]%string ∧
  Forall (fun store => Store.name store ≠ EmptyString) (map to_store [corner_store; nameless]).
Proof.
  destruct (stores_are_the_locations_named granted nearby (Some "45202"%string)
              (map to_store [corner_store; nameless]))
    as (z & token & data & _ & _ & _ & _ & _ & Hnames & _).
  - reflexivity.
  - split; [reflexivity | exact Hnames].
Defined.

Lemma estimated_cost_grows_with_missed_ingredients_witness :
  (Enriched.estimatedCost (enrich (ingredientLookup [chicken]) [chicken] None None two_cuts)
   == 9)%Q ∧
  (Enriched.estimatedCost (enrich (ingredientLookup [chicken]) [chicken] None None five_missing)
   == 21 # 2)%Q ∧
  (Enriched.estimatedCost (enrich (ingredientLookup [chicken]) [chicken] None None two_cuts)
   <= Enriched.estimatedCost
        (enrich (ingredientLookup [chicken]) [chicken] None None five_missing))%Q.
Proof.
  split; [reflexivity|]. split; [reflexivity|].
  refine (proj1 (estimated_cost_grows_with_missed_ingredients
                   (ingredientLookup [chicken]) [chicken] None None
                   two_cuts five_missing _ _ _ _ _ _)).
  - reflexivity.
  - cbn. lia.
  - reflexivity.
  - reflexivity.
Defined.

Lemma saved_recipe_belongs_to_its_author_witness :
  SavedRecipe.columns anns_tacos !! "user_id"%string = None ∧
  delete_saved known_user None (Some "Bearer bob-jwt"%string) "r-2" [bobs_recipe; anns_tacos]
  = ([bobs_recipe; anns_tacos], SavedSuccess) ∧
  delete_saved known_user None (Some "Bearer ann-jwt"%string) "r-2" [bobs_recipe; anns_tacos]
  = ([bobs_recipe], SavedSuccess).
Proof.
  destruct (saved_recipe_belongs_to_its_author known_user accepts "r-2"
              "2026-11-03T08:00:00Z" (fun l => l) (Some "Bearer ann-jwt"%string) tacos
              [bobs_recipe] [bobs_recipe; anns_tacos] "ann" anns_tacos)
    as (_ & Hcolumns & _ & Hundo & Hothers).
  - reflexivity.
  - intros l. reflexivity.
  - repeat constructor. discriminate.
  - vm_compute. reflexivity.
  - split; [by rewrite Hcolumns|].
    destruct (Hothers (Some "Bearer bob-jwt"%string) "bob"%string)
      as [_ Hdelete]; [reflexivity | discriminate |].
    split; [exact Hdelete | exact Hundo].
Defined.

End FurtherExamples.
